(** * CodepointWidthDetector_gen.go: a shallow embedding

    The generator reads the Unicode Character Database, computes one
    classification byte per code point (cluster-break category in the low
    bits, display width in bits 6-7), compresses the dense array into a
    multi-stage trie and packs the grapheme join rules into 32-bit rows.
    It also emits the C++ lookup functions that the terminal runs.

    Conventions of the embedding:
    - Go [int] is a 64-bit signed integer.  It is modelled as [Z]; where a
      wrap-around can change a result it is written out with [wrap64].
    - [TrieType] is [uint32]: a [Z] in [0, 2^32), conversions written out.
    - A Go run-time panic (slice bounds, index out of range, negative shift
      count, [slices.Max] of an empty slice) is [None] of an [option].
    - A Go [error] return is the [Err] of [result].
    - The byte view of a [[]TrieType] obtained through [unsafe] is the
      little-endian layout of the platforms the generator runs on. *)

From Stdlib Require Import String Ascii.
From Stdlib Require Import ZArith List Lia Bool Permutation.
Import ListNotations.
Open Scope Z_scope.

(** ** Go integers *)

Module GoInt.

Definition MaxInt : Z := 9223372036854775807.
Definition MaxInt32 : Z := 2147483647.

(** Reduction of a mathematical integer to the 64-bit signed range. *)
Definition wrap64 (x : Z) : Z := (x + 2 ^ 63) mod 2 ^ 64 - 2 ^ 63.

(** Conversion to [uint32], [uint8]. *)
Definition to_uint32 (x : Z) : Z := x mod 2 ^ 32.
Definition to_byte (x : Z) : Z := x mod 2 ^ 8.

(** [bits.Len8]: the number of bits needed to represent a byte. *)
Definition bits_Len8 (x : Z) : Z := if x =? 0 then 0 else Z.log2 x + 1.

End GoInt.
Export GoInt.

(** An option monad for code that may panic. *)
Definition bind {A B : Type} (o : option A) (f : A -> option B) : option B :=
  match o with
  | Some a => f a
  | None => None
  end.

Notation "x <- e ;; k" := (bind e (fun x => k))
  (at level 61, e at next level, right associativity).

Fixpoint mapM {A B : Type} (f : A -> option B) (l : list A) : option (list B) :=
  match l with
  | [] => Some []
  | a :: l' => b <- f a ;; bs <- mapM f l' ;; Some (b :: bs)
  end.

(** ** The two enumerations *)

Inductive CharacterWidth : Type :=
| cwZeroWidth
| cwNarrow
| cwWide
| cwAmbiguous.

Definition CharacterWidth_int (w : CharacterWidth) : Z :=
  match w with
  | cwZeroWidth => 0
  | cwNarrow => 1
  | cwWide => 2
  | cwAmbiguous => 3
  end.

Inductive ClusterBreak : Type :=
| cbOther
| cbControl
| cbExtend
| cbRI
| cbPrepend
| cbHangulL
| cbHangulV
| cbHangulT
| cbHangulLV
| cbHangulLVT
| cbInCBLinker
| cbInCBConsonant
| cbExtPic
| cbZWJ.

Definition ClusterBreak_int (cb : ClusterBreak) : Z :=
  match cb with
  | cbOther => 0
  | cbControl => 1
  | cbExtend => 2
  | cbRI => 3
  | cbPrepend => 4
  | cbHangulL => 5
  | cbHangulV => 6
  | cbHangulT => 7
  | cbHangulLV => 8
  | cbHangulLVT => 9
  | cbInCBLinker => 10
  | cbInCBConsonant => 11
  | cbExtPic => 12
  | cbZWJ => 13
  end.

Definition cbCount : Z := 14.

Definition all_ClusterBreak : list ClusterBreak :=
  [cbOther; cbControl; cbExtend; cbRI; cbPrepend; cbHangulL; cbHangulV;
   cbHangulT; cbHangulLV; cbHangulLVT; cbInCBLinker; cbInCBConsonant;
   cbExtPic; cbZWJ].

Definition ClusterBreak_eqb (a b : ClusterBreak) : bool :=
  ClusterBreak_int a =? ClusterBreak_int b.

(** ** The join rules *)

(** [Ω] is the "break" verdict; every other entry names the state in which
    the scan continues. *)
Definition Ω : Z := 3.

Definition JoinRules : list (list (list Z)) :=
  [ (* Base table *)
    [ [Ω; Ω; 0; Ω; Ω; Ω; Ω; Ω; Ω; Ω; 0; Ω; Ω; 0];
      [Ω; Ω; Ω; Ω; Ω; Ω; Ω; Ω; Ω; Ω; Ω; Ω; Ω; Ω];
      [Ω; Ω; 0; Ω; Ω; Ω; Ω; Ω; Ω; Ω; 0; Ω; Ω; 0];
      [Ω; Ω; 0; 1; Ω; Ω; Ω; Ω; Ω; Ω; 0; Ω; Ω; 0];
      [0; Ω; 0; 0; 0; 0; 0; 0; 0; 0; 0; 0; 0; 0];
      [Ω; Ω; 0; Ω; Ω; 0; 0; Ω; 0; 0; 0; Ω; Ω; 0];
      [Ω; Ω; 0; Ω; Ω; Ω; 0; 0; Ω; Ω; 0; Ω; Ω; 0];
      [Ω; Ω; 0; Ω; Ω; Ω; Ω; 0; Ω; Ω; 0; Ω; Ω; 0];
      [Ω; Ω; 0; Ω; Ω; Ω; 0; 0; Ω; Ω; 0; Ω; Ω; 0];
      [Ω; Ω; 0; Ω; Ω; Ω; Ω; 0; Ω; Ω; 0; Ω; Ω; 0];
      [Ω; Ω; 0; Ω; Ω; Ω; Ω; Ω; Ω; Ω; 0; 0; Ω; 0];
      [Ω; Ω; 0; Ω; Ω; Ω; Ω; Ω; Ω; Ω; 0; Ω; Ω; 0];
      [Ω; Ω; 0; Ω; Ω; Ω; Ω; Ω; Ω; Ω; 0; Ω; Ω; 0];
      [Ω; Ω; 0; Ω; Ω; Ω; Ω; Ω; Ω; Ω; 0; Ω; 0; 0] ];
    (* After a Regional Indicator pair: further RI joins are forbidden *)
    [ [Ω; Ω; 0; Ω; Ω; Ω; Ω; Ω; Ω; Ω; 0; Ω; Ω; 0];
      [Ω; Ω; Ω; Ω; Ω; Ω; Ω; Ω; Ω; Ω; Ω; Ω; Ω; Ω];
      [Ω; Ω; 0; Ω; Ω; Ω; Ω; Ω; Ω; Ω; 0; Ω; Ω; 0];
      [Ω; Ω; 0; Ω; Ω; Ω; Ω; Ω; Ω; Ω; 0; Ω; Ω; 0];
      [0; Ω; 0; 0; 0; 0; 0; 0; 0; 0; 0; 0; 0; 0];
      [Ω; Ω; 0; Ω; Ω; 0; 0; Ω; 0; 0; 0; Ω; Ω; 0];
      [Ω; Ω; 0; Ω; Ω; Ω; 0; 0; Ω; Ω; 0; Ω; Ω; 0];
      [Ω; Ω; 0; Ω; Ω; Ω; Ω; 0; Ω; Ω; 0; Ω; Ω; 0];
      [Ω; Ω; 0; Ω; Ω; Ω; 0; 0; Ω; Ω; 0; Ω; Ω; 0];
      [Ω; Ω; 0; Ω; Ω; Ω; Ω; 0; Ω; Ω; 0; Ω; Ω; 0];
      [Ω; Ω; 0; Ω; Ω; Ω; Ω; Ω; Ω; Ω; 0; 0; Ω; 0];
      [Ω; Ω; 0; Ω; Ω; Ω; Ω; Ω; Ω; Ω; 0; Ω; Ω; 0];
      [Ω; Ω; 0; Ω; Ω; Ω; Ω; Ω; Ω; Ω; 0; Ω; Ω; 0];
      [Ω; Ω; 0; Ω; Ω; Ω; Ω; Ω; Ω; Ω; 0; Ω; 0; 0] ] ].

(** [JoinRules[state][lead][trail]], [None] when an index is out of range. *)
Definition JoinRules_at (state : nat) (lead trail : ClusterBreak) : option Z :=
  table <- nth_error JoinRules state ;;
  row <- nth_error table (Z.to_nat (ClusterBreak_int lead)) ;;
  nth_error row (Z.to_nat (ClusterBreak_int trail)).

(** ** [trieValue] *)

(** [TrieType(byte(cb) | byte(width)<<6)]: the shift happens in [byte]. *)
Definition trieValue_int (cb width : Z) : Z :=
  to_uint32 (Z.lor (to_byte cb) (to_byte (Z.shiftl (to_byte width) 6))).

Definition trieValue (cb : ClusterBreak) (width : CharacterWidth) : Z :=
  trieValue_int (ClusterBreak_int cb) (CharacterWidth_int width).

(** ** [prepareRulesTable] and [rulesSize] *)

(** The inner loop over one row: [nextIndices |= uint32(nextIndex) << (trail*2)],
    panicking on an entry above [Ω]. *)
Fixpoint packRow (row : list Z) (trail : Z) (nextIndices : Z) : option Z :=
  match row with
  | [] => Some nextIndices
  | nextIndex :: rest =>
      if Ω <? nextIndex then None
      else packRow rest (trail + 1)
             (Z.lor nextIndices (to_uint32 (Z.shiftl (to_uint32 nextIndex) (trail * 2))))
  end.

(** [s[i] = v] on a slice: a panic when [i] is out of range. *)
Fixpoint slice_set {A : Type} (s : list A) (i : nat) (v : A) : option (list A) :=
  match s, i with
  | [], _ => None
  | _ :: s', O => Some (v :: s')
  | x :: s', S i' => s'' <- slice_set s' i' v ;; Some (x :: s'')
  end.

(** The loop over the rows of one table, writing [compressed[prevIndex][lead]]. *)
Fixpoint packTable (table : list (list Z)) (lead : nat) (packed : list Z)
  : option (list Z) :=
  match table with
  | [] => Some packed
  | row :: rest =>
      if (16 <? length row)%nat then None
      else
        nextIndices <- packRow row 0 0 ;;
        packed' <- slice_set packed lead nextIndices ;;
        packTable rest (S lead) packed'
  end.

Definition prepareRulesTable (rules : list (list (list Z))) : option (list (list Z)) :=
  mapM (fun table => packTable table 0 (repeat 0 16)) rules.

(** [len(rules) * len(rules[0]) * 4]; the index [rules[0]] panics on an empty
    table list. *)
Definition rulesSize (rules : list (list Z)) : option Z :=
  first <- nth_error rules 0 ;;
  Some (Z.of_nat (length rules) * Z.of_nat (length first) * 4).

(** ** The emitted C++ lookups *)

(** The table the generator prints as [s_joinRules]. *)
Definition s_joinRules : list (list Z) :=
  Eval vm_compute in
    match prepareRulesTable JoinRules with
    | Some t => t
    | None => []
    end.

(** [(s_joinRules[state][l] >> (t * bits.Len8(Ω))) & Ω], the expression the
    generator emits as the body of [ucdGraphemeJoins]; [None] is a read
    outside the array. *)
Definition s_joinRules_verdict (state l t : Z) : option Z :=
  if state <? 0 then None
  else
    table <- nth_error s_joinRules (Z.to_nat state) ;;
    row <- nth_error table (Z.to_nat l) ;;
    Some (Z.land (Z.shiftr row (t * bits_Len8 Ω)) Ω).

(** [ucdGraphemeJoins]: [l = lead & 15], [t = trail & 15], then the lookup. *)
Definition ucdGraphemeJoins (state lead trail : Z) : option Z :=
  let l := Z.land lead 15 in
  let t := Z.land trail 15 in
  s_joinRules_verdict state l t.

Definition ucdGraphemeDone (state : Z) : bool := state =? Ω.

(** [val >> 6] on a [uint8]. *)
Definition ucdToCharacterWidth (val : Z) : Z := Z.shiftr val 6.

(** ** The Unicode Character Database, as the XML decoder delivers it *)

(** One [<char>], [<reserved>], [<surrogate>] or [<noncharacter>] element.
    [HexInt] attributes are parsed as unsigned 32-bit hexadecimal numbers; an
    absent attribute is [0] or the empty string. *)
Record Char : Type := {
  Codepoint : Z;
  FirstCodepoint : Z;
  LastCodepoint : Z;
  Char_GeneralCategory : string;
  Char_GraphemeClusterBreak : string;
  Char_IndicConjunctBreak : string;
  Char_ExtendedPictographic : string;
  Char_EastAsian : string
}.

Record Group : Type := {
  Group_GeneralCategory : string;
  Group_GraphemeClusterBreak : string;
  Group_IndicConjunctBreak : string;
  Group_ExtendedPictographic : string;
  Group_EastAsian : string;
  Chars : list Char
}.

Record UCD : Type := {
  Description : string;
  Repertoire : list Group
}.

(** The errors [extractValuesFromUCD] formats with [fmt.Errorf]: each names
    the attribute value it prints and the code-point range. *)
Inductive ExtractError : Type :=
| UnrecognizedGCB (value : string) (firstCp lastCp : Z)
| UnexpectedGCBWithExtPict (value : string) (firstCp lastCp : Z)
| UnexpectedGCBWithLinker (value : string) (firstCp lastCp : Z)
| UnexpectedGCBWithConsonant (value : string) (firstCp lastCp : Z)
| UnrecognizedInCB (value : string) (firstCp lastCp : Z)
| UnrecognizedEA (value : string) (firstCp lastCp : Z).

Definition error_value (e : ExtractError) : string :=
  match e with
  | UnrecognizedGCB v _ _ | UnexpectedGCBWithExtPict v _ _
  | UnexpectedGCBWithLinker v _ _ | UnexpectedGCBWithConsonant v _ _
  | UnrecognizedInCB v _ _ | UnrecognizedEA v _ _ => v
  end.

Definition error_range (e : ExtractError) : Z * Z :=
  match e with
  | UnrecognizedGCB _ a b | UnexpectedGCBWithExtPict _ a b
  | UnexpectedGCBWithLinker _ a b | UnexpectedGCBWithConsonant _ a b
  | UnrecognizedInCB _ a b | UnrecognizedEA _ a b => (a, b)
  end.

(** How a call of the extraction ends. *)
Inductive outcome (A : Type) : Type :=
| Returned (a : A)
| Failed (e : ExtractError)
| Panicked.
Arguments Returned {A} a.
Arguments Failed {A} e.
Arguments Panicked {A}.

Definition coalesce (a b : string) : string :=
  if String.eqb a "" then b else a.

(** [fillRange(s[lo:hi], v)]: the slice expression panics unless
    [0 <= lo <= hi <= cap(s)]; the capacity of [values] is its length. *)
Definition fillRange_slice (s : list Z) (lo hi : Z) (v : Z) : option (list Z) :=
  if (0 <=? lo) && (lo <=? hi) && (hi <=? Z.of_nat (length s)) then
    Some (firstn (Z.to_nat lo) s ++ repeat v (Z.to_nat (hi - lo)) ++ skipn (Z.to_nat hi) s)
  else None.

(** The first [switch]: Grapheme_Cluster_Break to category. *)
Definition gcbCategory (graphemeClusterBreak : string) : option ClusterBreak :=
  let s := graphemeClusterBreak in
  (if s =? "XX" then Some cbOther
   else if (s =? "CR") || (s =? "LF") || (s =? "CN") then Some cbControl
   else if (s =? "EX") || (s =? "SM") then Some cbExtend
   else if s =? "PP" then Some cbPrepend
   else if s =? "ZWJ" then Some cbZWJ
   else if s =? "RI" then Some cbRI
   else if s =? "L" then Some cbHangulL
   else if s =? "V" then Some cbHangulV
   else if s =? "T" then Some cbHangulT
   else if s =? "LV" then Some cbHangulLV
   else if s =? "LVT" then Some cbHangulLVT
   else None)%string.

(** The last [switch]: East_Asian_Width to width. *)
Definition eaWidth (eastAsian : string) : option CharacterWidth :=
  let s := eastAsian in
  (if (s =? "N") || (s =? "Na") || (s =? "H") then Some cwNarrow
   else if (s =? "F") || (s =? "W") then Some cwWide
   else if s =? "A" then Some cwAmbiguous
   else None)%string.

(** The body of the inner loop between the coalescing and the [fillRange]:
    the category and width of one record, or the error it returns. *)
Definition classifyRecord
    (generalCategory graphemeClusterBreak indicConjunctBreak
       extendedPictographic eastAsian : string) (firstCp lastCp : Z)
  : ExtractError + (ClusterBreak * CharacterWidth) :=
  match gcbCategory graphemeClusterBreak with
  | None => inl (UnrecognizedGCB graphemeClusterBreak firstCp lastCp)
  | Some cb0 =>
      let afterExtPict :=
        if String.eqb extendedPictographic "Y" then
          if ClusterBreak_eqb cb0 cbOther then inr cbExtPic
          else inl (UnexpectedGCBWithExtPict graphemeClusterBreak firstCp lastCp)
        else inr cb0 in
      match afterExtPict with
      | inl e => inl e
      | inr cb1 =>
          let afterInCB :=
            if String.eqb indicConjunctBreak "None"
               || String.eqb indicConjunctBreak "Extend" then inr cb1
            else if String.eqb indicConjunctBreak "Linker" then
              if ClusterBreak_eqb cb1 cbExtend then inr cbInCBLinker
              else inl (UnexpectedGCBWithLinker graphemeClusterBreak firstCp lastCp)
            else if String.eqb indicConjunctBreak "Consonant" then
              if ClusterBreak_eqb cb1 cbOther then inr cbInCBConsonant
              else inl (UnexpectedGCBWithConsonant graphemeClusterBreak firstCp lastCp)
            else inl (UnrecognizedInCB indicConjunctBreak firstCp lastCp) in
          match afterInCB with
          | inl e => inl e
          | inr cb =>
              match eaWidth eastAsian with
              | None => inl (UnrecognizedEA eastAsian firstCp lastCp)
              | Some width0 =>
                  let width :=
                    if String.prefix "M" generalCategory
                       || String.eqb generalCategory "Cf"
                    then cwZeroWidth else width0 in
                  inr (cb, width)
              end
          end
      end
  end.

(** The attributes of a record after coalescing with its group, and its
    code-point range. *)
Definition generalCategory_of (g : Group) (c : Char) : string :=
  coalesce (Char_GeneralCategory c) (Group_GeneralCategory g).
Definition graphemeClusterBreak_of (g : Group) (c : Char) : string :=
  coalesce (Char_GraphemeClusterBreak c) (Group_GraphemeClusterBreak g).
Definition indicConjunctBreak_of (g : Group) (c : Char) : string :=
  coalesce (Char_IndicConjunctBreak c) (Group_IndicConjunctBreak g).
Definition extendedPictographic_of (g : Group) (c : Char) : string :=
  coalesce (Char_ExtendedPictographic c) (Group_ExtendedPictographic g).
Definition eastAsian_of (g : Group) (c : Char) : string :=
  coalesce (Char_EastAsian c) (Group_EastAsian g).

Definition firstCp_of (c : Char) : Z :=
  if Codepoint c =? 0 then FirstCodepoint c else Codepoint c.
Definition lastCp_of (c : Char) : Z :=
  if Codepoint c =? 0 then LastCodepoint c else Codepoint c.

Definition classifyChar (g : Group) (c : Char)
  : ExtractError + (ClusterBreak * CharacterWidth) :=
  classifyRecord (generalCategory_of g c) (graphemeClusterBreak_of g c)
    (indicConjunctBreak_of g c) (extendedPictographic_of g c)
    (eastAsian_of g c) (firstCp_of c) (lastCp_of c).

(** One iteration of the inner loop. *)
Definition processChar (g : Group) (values : list Z) (c : Char) : outcome (list Z) :=
  match classifyChar g c with
  | inl e => Failed e
  | inr (cb, width) =>
      match fillRange_slice values (firstCp_of c) (lastCp_of c + 1) (trieValue cb width) with
      | Some values' => Returned values'
      | None => Panicked
      end
  end.

Fixpoint processChars (g : Group) (values : list Z) (chars : list Char)
  : outcome (list Z) :=
  match chars with
  | [] => Returned values
  | c :: rest =>
      match processChar g values c with
      | Returned values' => processChars g values' rest
      | Failed e => Failed e
      | Panicked => Panicked
      end
  end.

Fixpoint processGroups (values : list Z) (groups : list Group) : outcome (list Z) :=
  match groups with
  | [] => Returned values
  | g :: rest =>
      match processChars g values (Chars g) with
      | Returned values' => processGroups values' rest
      | Failed e => Failed e
      | Panicked => Panicked
      end
  end.

Definition codepointCount : Z := 1114112.

(** The two fixed ranges written after all records. *)
Definition postPass (values : list Z) : option (list Z) :=
  v1 <- fillRange_slice values 9472 (9631 + 1) (trieValue cbOther cwNarrow) ;;
  fillRange_slice v1 65039 (65039 + 1) (trieValue cbExtend cwWide).

Definition extractValuesFromUCD (ucd : UCD) : outcome (list Z) :=
  let values := repeat (trieValue cbOther cwNarrow) (Z.to_nat codepointCount) in
  match processGroups values (Repertoire ucd) with
  | Returned values' =>
      match postPass values' with
      | Some values'' => Returned values''
      | None => Panicked
      end
  | Failed e => Failed e
  | Panicked => Panicked
  end.

(** ** Byte views and the two chunk searches *)

(** The four bytes of a [TrieType], least significant first. *)
Definition wordBytes (w : Z) : list Z :=
  [Z.land w 255; Z.land (Z.shiftr w 8) 255;
   Z.land (Z.shiftr w 16) 255; Z.land (Z.shiftr w 24) 255].

(** The memory of a slice of [len(s)] words read as [len(s)*4] bytes, as
    [unsafe.Slice] and [unsafe.String] expose it from the address of [s[0]]. *)
Definition rawBytes (s : list Z) : list Z := flat_map wordBytes s.

Fixpoint bytes_HasPrefix (s prefix : list Z) : bool :=
  match prefix, s with
  | [], _ => true
  | _ :: _, [] => false
  | b :: prefix', a :: s' => (a =? b) && bytes_HasPrefix s' prefix'
  end.

(** [bytes.Index]: the index of the first instance of [sep] in [s], or [-1]. *)
Fixpoint bytes_Index (s sep : list Z) : Z :=
  if bytes_HasPrefix s sep then 0
  else
    match s with
    | [] => -1
    | _ :: s' =>
        let r := bytes_Index s' sep in
        if r <? 0 then -1 else r + 1
    end.

(** The [for] loop of [findExisting].  It has no bound of its own; [fuel]
    counts its iterations, and [None] is a loop still running when the fuel
    is spent. *)
Fixpoint findExisting_loop (fuel : nat) (h n : list Z) (i : Z) : option Z :=
  match fuel with
  | O => None
  | S fuel' =>
      let i' := bytes_Index (skipn (Z.to_nat i) h) n in
      if i' =? -1 then Some (-1)
      else if Z.rem i' 4 =? 0 then Some (Z.quot i' 4)
      else findExisting_loop fuel' h n i'
  end.

(** Two iterations are all the loop ever takes ([findExisting_loop_fuel]
    below), so the default is never used. *)
Definition findExisting (haystack needle : list Z) : Z :=
  match haystack, needle with
  | [], _ => -1
  | _, [] => -1
  | _, _ =>
      match findExisting_loop 2 (rawBytes haystack) (rawBytes needle) 0 with
      | Some r => r
      | None => -1
      end
  end.

Fixpoint slices_Equal (a b : list Z) : bool :=
  match a, b with
  | [], [] => true
  | x :: a', y :: b' => (x =? y) && slices_Equal a' b'
  | _, _ => false
  end.

(** The descending loop of [measureOverlap], entered at [overlap]. *)
Fixpoint measureOverlap_from (overlap lenPrev : nat) (prev next : list Z) : nat :=
  if slices_Equal (skipn (lenPrev - overlap) prev) (firstn overlap next) then overlap
  else
    match overlap with
    | O => O
    | S overlap' => measureOverlap_from overlap' lenPrev prev next
    end.

Definition measureOverlap (prev next : list Z) : nat :=
  measureOverlap_from (Nat.min (length prev) (length next)) (length prev) prev next.

(** ** [buildTrie] *)

Record Stage : Type := {
  Values : list Z;
  Shift : Z;
  Mask : Z;
  Bits : Z
}.

Record Trie : Type := {
  Stages : list Stage;
  TotalSize : Z
}.

(** The chunk cache, [map[string]TrieType] keyed by the raw bytes of a chunk.
    A lookup returns the latest value stored under the key. *)
Definition Cache : Type := list (list Z * Z).

Fixpoint cache_get (key : list Z) (cache : Cache) : option Z :=
  match cache with
  | [] => None
  | (k, v) :: rest => if slices_Equal k key then Some v else cache_get key rest
  end.

Definition cache_set (key : list Z) (v : Z) (cache : Cache) : Cache :=
  (key, v) :: cache.

(** The body of the chunk loop: the new cache, the new compressed slice and
    the offset appended to [offsets]. *)
Definition placeChunk (cache : Cache) (compressed chunk : list Z)
  : Cache * list Z * Z :=
  let key := rawBytes chunk in
  match cache_get key cache with
  | Some offset => (cache, compressed, offset)
  | None =>
      let existing := findExisting compressed chunk in
      if negb (existing =? -1) then
        let offset := to_uint32 existing in
        (cache_set key offset cache, compressed, offset)
      else
        let overlap := measureOverlap compressed chunk in
        let compressed' := compressed ++ skipn overlap chunk in
        let offset :=
          to_uint32 (Z.of_nat (length compressed') - Z.of_nat (length chunk)) in
        (cache_set key offset cache, compressed', offset)
  end.

(** The chunk loop over the successive chunks: the final compressed slice
    and the offsets in order. *)
Fixpoint compressChunks (chunks : list (list Z)) (cache : Cache) (compressed : list Z)
  : list Z * list Z :=
  match chunks with
  | [] => (compressed, [])
  | chunk :: rest =>
      let '(cache', compressed', offset) := placeChunk cache compressed chunk in
      let '(c, offsets) := compressChunks rest cache' compressed' in
      (c, offset :: offsets)
  end.

(** The chunks [uncompressed[i:min(len(uncompressed), i+chunkSize)]] for
    [i = 0, chunkSize, 2*chunkSize, ...]. *)
Fixpoint chunksOf_fuel (fuel : nat) (chunkSize : Z) (l : list Z) : list (list Z) :=
  match fuel with
  | O => []
  | S fuel' =>
      match l with
      | [] => []
      | _ =>
          firstn (Z.to_nat chunkSize) l
            :: chunksOf_fuel fuel' chunkSize (skipn (Z.to_nat chunkSize) l)
      end
  end.

Definition chunksOf (chunkSize : Z) (l : list Z) : list (list Z) :=
  chunksOf_fuel (length l) chunkSize l.

(** [1 << shift] on [int]: a panic for a negative count; for a count of 63
    the result is negative and for larger counts it is zero, and the chunk
    loop then panics on its first slice expression or on [&chunk[0]]. *)
Definition validShift (shift : Z) : bool := (0 <=? shift) && (shift <? 63).

Definition compressStage (uncompressed : list Z) (shift : Z) : list Z * list Z :=
  compressChunks (chunksOf (Z.shiftl 1 shift) uncompressed) [] [].

(** The loop over [shifts], followed by the append of the root stage. *)
Fixpoint buildStages (shifts : list Z) (uncompressed : list Z)
    (cumulativeShift : Z) (stages : list Stage) : option (list Stage) :=
  match shifts with
  | [] =>
      Some (stages ++ [ {| Values := uncompressed; Shift := cumulativeShift;
                           Mask := MaxInt32; Bits := 0 |} ])
  | shift :: rest =>
      if validShift shift then
        let '(compressed, offsets) := compressStage uncompressed shift in
        buildStages rest offsets (cumulativeShift + shift)
          (stages ++ [ {| Values := compressed; Shift := cumulativeShift;
                          Mask := Z.shiftl 1 shift - 1; Bits := 0 |} ])
      else None
  end.

(** [slices.Max] panics on an empty slice. *)
Definition slices_Max (l : list Z) : option Z :=
  match l with
  | [] => None
  | x :: rest => Some (fold_left Z.max rest x)
  end.

Definition bitsFor (m : Z) : Z :=
  if m <=? 255 then 8 else if m <=? 65535 then 16 else 32.

Definition setBits (s : Stage) : option Stage :=
  m <- slices_Max (Values s) ;;
  Some {| Values := Values s; Shift := Shift s; Mask := Mask s; Bits := bitsFor m |}.

Definition totalSizeOf (stages : list Stage) : Z :=
  fold_left (fun totalSize s => totalSize + Z.quot (Bits s) 8 * Z.of_nat (length (Values s)))
    stages 0.

Definition buildTrie (uncompressed : list Z) (shifts : list Z) : option Trie :=
  stages <- buildStages shifts uncompressed 0 [] ;;
  stages' <- mapM setBits (rev stages) ;;
  Some {| Stages := stages'; TotalSize := totalSizeOf stages' |}.

(** ** [buildBestTrie] *)

(** [iters := 1; for i := 1; i < stages; i++ { iters *= delta }]. *)
Fixpoint itersLoop (n : nat) (delta iters : Z) : Z :=
  match n with
  | O => iters
  | S n' => itersLoop n' delta (wrap64 (iters * delta))
  end.

Definition itersFor (delta stages : Z) : Z :=
  itersLoop (Z.to_nat (stages - 1)) delta 1.

(** The digits of [i] in base [delta], least significant first, each added
    to [minShift]. *)
Fixpoint shiftsFor (n : nat) (minShift delta i : Z) : list Z :=
  match n with
  | O => []
  | S n' => wrap64 (minShift + Z.rem i delta) :: shiftsFor n' minShift delta (Z.quot i delta)
  end.

(** What the goroutine started for [i] sends; [make([]int, stages-1)] panics
    on a negative length. *)
Definition candidate (uncompressed : list Z) (minShift delta stages i : Z) : option Trie :=
  if stages - 1 <? 0 then None
  else buildTrie uncompressed (shiftsFor (Z.to_nat (stages - 1)) minShift delta i).

Definition pickBest (bestTrie t : Trie) : Trie :=
  if TotalSize bestTrie >? TotalSize t then t else bestTrie.

(** The indices for which a goroutine is started. *)
Definition launched (minShift maxShift stages : Z) : list Z :=
  map Z.of_nat (seq 0 (Z.to_nat (itersFor (wrap64 (maxShift - minShift + 1)) stages))).

(** [buildBestTrie] when the results arrive on the channel in the order
    [arrival].  A goroutine that panics takes the whole program down. *)
Definition buildBestTrie_arrival (arrival : list Z)
    (uncompressed : list Z) (minShift maxShift stages : Z) : option Trie :=
  let delta := wrap64 (maxShift - minShift + 1) in
  tries <- mapM (candidate uncompressed minShift delta stages) arrival ;;
  Some (fold_left pickBest tries {| Stages := []; TotalSize := MaxInt |}).

(** The schedule in which the results arrive in launch order. *)
Definition buildBestTrie (uncompressed : list Z) (minShift maxShift stages : Z)
  : option Trie :=
  buildBestTrie_arrival (launched minShift maxShift stages)
    uncompressed minShift maxShift stages.

(** ** The lookup of the sanity check in [run] *)

Definition slice_index (s : list Z) (i : Z) : option Z :=
  if i <? 0 then None else nth_error s (Z.to_nat i).

(** [for _, s := range trie.Stages { v = s.Values[int(v)+((cp>>s.Shift)&s.Mask)] }]. *)
Fixpoint trieLookup_from (stages : list Stage) (cp v : Z) : option Z :=
  match stages with
  | [] => Some v
  | s :: rest =>
      v' <- slice_index (Values s) (v + Z.land (Z.shiftr cp (Shift s)) (Mask s)) ;;
      trieLookup_from rest cp v'
  end.

Definition trieLookup (t : Trie) (cp : Z) : option Z :=
  trieLookup_from (Stages t) cp 0.

(** The loop [for cp, expected := range values] of [run]: [Some None] when
    every code point passes, [Some (Some cp)] for the code point of the
    "trie sanity check failed" error, [None] for a panic. *)
Fixpoint sanityCheck_from (t : Trie) (cp : Z) (values : list Z) : option (option Z) :=
  match values with
  | [] => Some None
  | expected :: rest =>
      v <- trieLookup t cp ;;
      if v =? expected then sanityCheck_from t (cp + 1) rest
      else Some (Some cp)
  end.

Definition sanityCheck (t : Trie) (values : list Z) : option (option Z) :=
  sanityCheck_from t 0 values.

(** ** The grapheme scan of the runtime *)

(** The text of a scan: the classification value [ucdLookup] returns for each
    code point, in order. *)
Definition Text : Type := list Z.

(** Modelled from the spec: the loop of [GraphemeNext] after its first code
    point, absent from the sources (section 4.4: "advances to the next
    boundary by repeatedly classifying adjacent code points and testing
    joins", the state "initialized to the default state at the start of each
    independent scan").  The result is the number of code points joined to
    [lead]. *)
Fixpoint joinForward (state lead : Z) (rest : Text) : option nat :=
  match rest with
  | [] => Some O
  | trail :: rest' =>
      st <- ucdGraphemeJoins state lead trail ;;
      if ucdGraphemeDone st then Some O
      else n <- joinForward st trail rest' ;; Some (S n)
  end.

(** Modelled from the spec: the mirrored loop of [GraphemePrev], absent from
    the sources; [before] holds the code points preceding [trail], nearest
    first, and every test passes the earlier code point as the lead. *)
Fixpoint joinBackward (state trail : Z) (before : Text) : option nat :=
  match before with
  | [] => Some O
  | lead :: before' =>
      st <- ucdGraphemeJoins state lead trail ;;
      if ucdGraphemeDone st then Some O
      else n <- joinBackward st lead before' ;; Some (S n)
  end.

(** Modelled from the spec: the width a cluster reports, absent from the
    sources (section 8: combining marks "contribute ZeroWidth", the joined
    consonants are "each contributing its own column"): the sum of the
    widths of its code points. *)
Definition clusterWidth (cluster : Text) : Z :=
  fold_right (fun val w => ucdToCharacterWidth val + w) 0 cluster.

(** Modelled from the spec: [GraphemeNext(text, beg, &width)], absent from
    the sources; it returns the offset of the next boundary after [beg] and
    the width of the cluster between them. *)
Definition GraphemeNext (text : Text) (beg : nat) : option (nat * Z) :=
  match skipn beg text with
  | [] => Some (beg, 0)
  | lead :: rest =>
      n <- joinForward 0 lead rest ;;
      Some ((beg + S n)%nat, clusterWidth (firstn (S n) (lead :: rest)))
  end.

(** Modelled from the spec: [GraphemePrev(text, end, &width)], absent from
    the sources; it returns the offset of the previous boundary before
    [end_] and the width of the cluster between them. *)
Definition GraphemePrev (text : Text) (end_ : nat) : option (nat * Z) :=
  match rev (firstn end_ text) with
  | [] => Some (O, 0)
  | trail :: before =>
      n <- joinBackward 0 trail before ;;
      Some ((length before - n)%nat, clusterWidth (firstn (S n) (trail :: before)))
  end.

(** The two loops of the [Graphemes] test: successive [GraphemeNext] calls
    from offset 0, and successive [GraphemePrev] calls from the end.  [fuel]
    bounds the number of calls; [None] is a read outside the join table or a
    loop still running when the fuel is spent. *)
Fixpoint scanForward (fuel : nat) (text : Text) (beg : nat) : option (list nat) :=
  if (beg <? length text)%nat then
    match fuel with
    | O => None
    | S fuel' =>
        r <- GraphemeNext text beg ;;
        ends <- scanForward fuel' text (fst r) ;;
        Some (fst r :: ends)
    end
  else Some [].

Fixpoint scanBackward (fuel : nat) (text : Text) (end_ : nat) : option (list nat) :=
  if (0 <? end_)%nat then
    match fuel with
    | O => None
    | S fuel' =>
        r <- GraphemePrev text end_ ;;
        begs <- scanBackward fuel' text (fst r) ;;
        Some (fst r :: begs)
    end
  else Some [].

(** The boundary offsets of a text in increasing order, from either scan. *)
Definition boundariesForward (text : Text) : option (list nat) :=
  ends <- scanForward (length text) text 0 ;;
  Some (O :: ends).

Definition boundariesBackward (text : Text) : option (list nat) :=
  begs <- scanBackward (length text) text (length text) ;;
  Some (rev (length text :: begs)).

(** The category of a classification value as [ucdGraphemeJoins] reads it. *)
Definition isRI (val : Z) : bool := Z.land val 15 =? ClusterBreak_int cbRI.

(** The number of Regional Indicators a text starts with. *)
Fixpoint riLen (text : Text) : nat :=
  match text with
  | a :: rest => if isRI a then S (riLen rest) else O
  | [] => O
  end.

(** A run of consecutive Regional Indicators of this length is not an odd
    run of three or more. *)
Definition runAgrees (run : nat) : bool := (run <? 3)%nat || Nat.even run.

(** No maximal run of consecutive Regional Indicators in the text has an odd
    length of three or more; [run] counts the Regional Indicators that
    immediately precede the text. *)
Fixpoint noOddRIRun_from (run : nat) (text : Text) : bool :=
  match text with
  | [] => runAgrees run
  | a :: rest =>
      if isRI a then noOddRIRun_from (S run) rest
      else runAgrees run && noOddRIRun_from O rest
  end.

Definition noOddRIRun (text : Text) : bool := noOddRIRun_from O text.

(** ** The rejection conditions of the extraction, in the words of its contract *)

Definition recognizedGCB : list string :=
  ["XX"; "CR"; "LF"; "CN"; "EX"; "SM"; "PP"; "ZWJ"; "RI"; "L"; "V"; "T"; "LV"; "LVT"]%string.
Definition recognizedInCB : list string :=
  ["None"; "Extend"; "Linker"; "Consonant"]%string.
Definition recognizedEA : list string :=
  ["N"; "Na"; "H"; "F"; "W"; "A"]%string.

(** The category a record has when its InCB value is examined: the one its
    GCB value names, recategorised to ExtendedPictographic by ExtPict = Y. *)
Definition categoryBeforeInCB (g : Group) (c : Char) : option ClusterBreak :=
  match gcbCategory (graphemeClusterBreak_of g c) with
  | Some cb => if String.eqb (extendedPictographic_of g c) "Y" then Some cbExtPic else Some cb
  | None => None
  end.

Definition rejected (g : Group) (c : Char) : Prop :=
  ~ In (graphemeClusterBreak_of g c) recognizedGCB
  \/ ~ In (indicConjunctBreak_of g c) recognizedInCB
  \/ ~ In (eastAsian_of g c) recognizedEA
  \/ (extendedPictographic_of g c = "Y"%string
      /\ gcbCategory (graphemeClusterBreak_of g c) <> Some cbOther)
  \/ (indicConjunctBreak_of g c = "Linker"%string
      /\ categoryBeforeInCB g c <> Some cbExtend)
  \/ (indicConjunctBreak_of g c = "Consonant"%string
      /\ categoryBeforeInCB g c <> Some cbOther).

(** What an error says of the record it is returned for: its kind is a
    condition the record meets, the value it prints is the attribute value
    at fault (the Grapheme_Cluster_Break value in the three "unexpected GCB"
    messages), and its range is the record's. *)
Definition errorNames (g : Group) (c : Char) (e : ExtractError) : Prop :=
  error_range e = (firstCp_of c, lastCp_of c)
  /\ match e with
     | UnrecognizedGCB v _ _ =>
         v = graphemeClusterBreak_of g c /\ ~ In v recognizedGCB
     | UnexpectedGCBWithExtPict v _ _ =>
         v = graphemeClusterBreak_of g c
         /\ extendedPictographic_of g c = "Y"%string
         /\ In v recognizedGCB
         /\ gcbCategory v <> Some cbOther
     | UnexpectedGCBWithLinker v _ _ =>
         v = graphemeClusterBreak_of g c
         /\ indicConjunctBreak_of g c = "Linker"%string
         /\ In v recognizedGCB
         /\ categoryBeforeInCB g c <> Some cbExtend
     | UnexpectedGCBWithConsonant v _ _ =>
         v = graphemeClusterBreak_of g c
         /\ indicConjunctBreak_of g c = "Consonant"%string
         /\ In v recognizedGCB
         /\ categoryBeforeInCB g c <> Some cbOther
     | UnrecognizedInCB v _ _ =>
         v = indicConjunctBreak_of g c /\ ~ In v recognizedInCB
     | UnrecognizedEA v _ _ =>
         v = eastAsian_of g c /\ ~ In v recognizedEA
     end.

(** The slice expression [values[firstCp:lastCp+1]] of a record is in bounds. *)
Definition inRange (c : Char) : Prop :=
  0 <= firstCp_of c /\ firstCp_of c <= lastCp_of c + 1 /\ lastCp_of c + 1 <= codepointCount.

(** Every record of the database, paired with its group. *)
Definition records (ucd : UCD) : list (Group * Char) :=
  flat_map (fun g => map (fun c => (g, c)) (Chars g)) (Repertoire ucd).

(** ** The input on which the trie loses a code point *)

(** Five chunks that overlap by three elements, so that they are stored at
    offsets 0 to 4 of the first compressed stage. *)
Definition overlappingChunk (j : Z) : list Z := [192 + j; 193 + j; 194 + j; 195 + j].

(** Pairwise different chunks that neither overlap nor occur inside one
    another; the one numbered [k] is stored at offset [4 * k]. *)
Definition distinctChunk (k : Z) : list Z :=
  [1 + k mod 13; (if k / 13 <? 14 then 64 + k / 13 else 114 + k / 13); 205; 204].

(** 1,114,112 classification bytes (every element is a [trieValue] of some
    category and width): 260 different chunks of four, then the chunks stored
    at offsets 256, 512, 768 and 1024 once more, then one chunk repeated. *)
Definition misalignedValues : list Z :=
  concat (map overlappingChunk [0; 1; 2; 3; 4]
          ++ map distinctChunk (map Z.of_nat (seq 2 255))
          ++ map distinctChunk [64; 128; 192; 256]
          ++ repeat (distinctChunk 256) (Z.to_nat (278528 - 264))).

(** ** Auxiliary definitions of the proofs *)

Definition range16 : list Z := [0; 1; 2; 3; 4; 5; 6; 7; 8; 9; 10; 11; 12; 13; 14; 15].

(** The verdict of the default state is a break. *)
Definition breaksBetween (lead trail : Z) : bool :=
  match ucdGraphemeJoins 0 lead trail with
  | Some st => ucdGraphemeDone st
  | None => true
  end.

Definition optZ_eqb (a b : option Z) : bool :=
  match a, b with
  | Some x, Some y => x =? y
  | None, None => true
  | _, _ => false
  end.

(** What the two packed tables hold at the masked indices [l] and [t]: they
    agree and hold 0 or [Ω], except at the Regional Indicator pair. *)
Definition joinFacts (l t : Z) : bool :=
  let v0 := s_joinRules_verdict 0 l t in
  let v1 := s_joinRules_verdict 1 l t in
  if (l =? 3) && (t =? 3) then optZ_eqb v0 (Some 1) && optZ_eqb v1 (Some Ω)
  else optZ_eqb v1 v0 && (optZ_eqb v0 (Some 0) || optZ_eqb v0 (Some Ω)).

(** The rows of the leads 14 and 15 are zero. *)
Definition spareLeadFacts (l t : Z) : bool :=
  if (l =? 14) || (l =? 15) then
    optZ_eqb (s_joinRules_verdict 0 l t) (Some 0)
    && optZ_eqb (s_joinRules_verdict 1 l t) (Some 0)
  else true.

Definition all_CharacterWidth : list CharacterWidth :=
  [cwZeroWidth; cwNarrow; cwWide; cwAmbiguous].

(** The classification bytes [trieValue] can return, one per category and
    width. *)
Definition classificationValues : list Z :=
  Eval vm_compute in
    flat_map (fun cb => map (trieValue cb) all_CharacterWidth) all_ClusterBreak.

Definition isClassification (v : Z) : bool :=
  existsb (Z.eqb v) classificationValues.

(** The two nested loops of the extraction over the flattened record list. *)
Fixpoint processRecords (values : list Z) (rs : list (Group * Char)) : outcome (list Z) :=
  match rs with
  | [] => Returned values
  | (g, c) :: rest =>
      match processChar g values c with
      | Returned values' => processRecords values' rest
      | Failed e => Failed e
      | Panicked => Panicked
      end
  end.

Definition recordsOf (groups : list Group) : list (Group * Char) :=
  flat_map (fun g => map (fun c => (g, c)) (Chars g)) groups.

(** ** Sample inputs of the witnesses *)

Definition sampleChar (cp : Z) (gc gcb incb ep ea : string) : Char :=
  {| Codepoint := cp; FirstCodepoint := 0; LastCodepoint := 0;
     Char_GeneralCategory := gc; Char_GraphemeClusterBreak := gcb;
     Char_IndicConjunctBreak := incb; Char_ExtendedPictographic := ep;
     Char_EastAsian := ea |}.

Definition sampleGroup (chars : list Char) : Group :=
  {| Group_GeneralCategory := "Lo"; Group_GraphemeClusterBreak := "XX";
     Group_IndicConjunctBreak := "None"; Group_ExtendedPictographic := "N";
     Group_EastAsian := "N"; Chars := chars |}.

(** A combining mark whose East_Asian_Width is "W". *)
Definition wideMark : Char := sampleChar 12330 "Mn" "EX" "" "" "W".

(** A synthetic format character at code point 3 whose East_Asian_Width
    is "F". *)
Definition wideFormat : Char := sampleChar 3 "Cf" "CN" "" "" "F".

(** A record with the unknown Grapheme_Cluster_Break value "ZZ". *)
Definition unknownGCB : Char := sampleChar 65 "" "ZZ" "" "" "".

Definition sampleUCD : UCD :=
  {| Description := "sample";
     Repertoire := [sampleGroup [wideMark; unknownGCB]] |}.

(** A stage holds at least one value and at most [bound]; after [setBits] its
    elements take one to four bytes. *)
Definition stageOK (bound : nat) (s : Stage) : Prop :=
  Values s <> [] /\ (length (Values s) <= bound)%nat.

Definition sizedOK (bound : nat) (s : Stage) : Prop :=
  stageOK bound s /\ 1 <= Z.quot (Bits s) 8 <= 4.

(** The tuples the search ranges over. *)
Definition shiftsInRange (minShift maxShift : Z) (shifts : list Z) : Prop :=
  Forall (fun s => minShift <= s <= maxShift) shifts.

(** Whether a scan breaks between [lead] and [trail]; [paired] says that the
    scan has just joined [lead] (forward) or [trail] (backward) to a
    Regional Indicator next to it, which is when it is in state 1. *)
Definition cutBetween (paired : bool) (lead trail : Z) : bool :=
  if isRI lead && isRI trail then paired else breaksBetween lead trail.

Definition pairedAfter (paired : bool) (lead trail : Z) : bool :=
  isRI lead && isRI trail && negb paired.

(** The number of code points joined to the first one, and the offsets at
    which the text breaks, read from the left and from the right. *)
Fixpoint runLength (paired : bool) (lead : Z) (rest : Text) : nat :=
  match rest with
  | [] => O
  | trail :: rest' =>
      if cutBetween paired lead trail then O
      else S (runLength (pairedAfter paired lead trail) trail rest')
  end.

Fixpoint runLengthBack (paired : bool) (trail : Z) (before : Text) : nat :=
  match before with
  | [] => O
  | lead :: before' =>
      if cutBetween paired lead trail then O
      else S (runLengthBack (pairedAfter paired lead trail) lead before')
  end.

Fixpoint cuts (paired : bool) (lead : Z) (rest : Text) (pos : nat) : list nat :=
  match rest with
  | [] => []
  | trail :: rest' =>
      (if cutBetween paired lead trail then [pos] else [])
        ++ cuts (pairedAfter paired lead trail) trail rest' (S pos)
  end.

Fixpoint cutsBack (paired : bool) (trail : Z) (before : Text) : list nat :=
  match before with
  | [] => []
  | lead :: before' =>
      (if cutBetween paired lead trail then [length before] else [])
        ++ cutsBack (pairedAfter paired lead trail) lead before'
  end.

(** The code point a backward pass ends on, and whether it is paired
    there. *)
Fixpoint farEnd (trail : Z) (before : Text) : Z :=
  match before with
  | [] => trail
  | lead :: before' => farEnd lead before'
  end.

Fixpoint pairedEnd (paired : bool) (trail : Z) (before : Text) : bool :=
  match before with
  | [] => paired
  | lead :: before' => pairedEnd (pairedAfter paired lead trail) lead before'
  end.

(** The offsets of the flags that are set, the first flag standing at
    [pos]. *)
Fixpoint posOf (flags : list bool) (pos : nat) : list nat :=
  match flags with
  | [] => []
  | f :: flags' => (if f then [pos] else []) ++ posOf flags' (S pos)
  end.

(** One flag per adjacent pair of the text, set where the forward scan
    breaks: between two Regional Indicators when an even number of them
    ends at the first; [run] counts those that end at [lead]. *)
Fixpoint flagsLeft (run : nat) (lead : Z) (rest : Text) : list bool :=
  match rest with
  | [] => []
  | trail :: rest' =>
      (if isRI lead && isRI trail then Nat.even run else breaksBetween lead trail)
        :: flagsLeft (if isRI trail then S run else O) trail rest'
  end.

(** The same for the backward scan: between two Regional Indicators when an
    even number of them starts at the second. *)
Fixpoint flagsRight (lead : Z) (rest : Text) : list bool :=
  match rest with
  | [] => []
  | trail :: rest' =>
      (if isRI lead && isRI trail then Nat.even (riLen rest)
       else breaksBetween lead trail)
        :: flagsRight trail rest'
  end.

(** ** Definitions for the further properties *)

(** The emitted lookup expression over any packed table. *)
Definition tableVerdict (packed : list (list Z)) (state l t : Z) : option Z :=
  if state <? 0 then None
  else
    table <- nth_error packed (Z.to_nat state) ;;
    row <- nth_error table (Z.to_nat l) ;;
    Some (Z.land (Z.shiftr row (t * bits_Len8 Ω)) Ω).

(** [rules[state][lead][trail]], and 0 where the source table has no entry. *)
Definition rulesEntry (rules : list (list (list Z))) (state lead trail : nat) : Z :=
  nth trail (nth lead (nth state rules []) []) 0.

(** The number whose base-4 digits are the entries of a row. *)
Definition rowValue (row : list Z) : Z :=
  fold_right (fun v acc => v + 4 * acc) 0 row.

(** The limits [prepareRulesTable] enforces by panicking. *)
Definition rowFits (row : list Z) : Prop :=
  (length row <= 16)%nat /\ Forall (fun v => v <= Ω) row.

Definition tableFits (table : list (list Z)) : Prop :=
  (length table <= 16)%nat /\ Forall rowFits table.

(** A value of type [TrieType]. *)
Definition isUint32 (w : Z) : Prop := 0 <= w < 2 ^ 32.

(** The sum of the shift counts. *)
Definition sumShifts (shifts : list Z) : Z := fold_right Z.add 0 shifts.

(** What [setBits] makes of a stage. *)
Definition sized (s s' : Stage) : Prop :=
  Values s' = Values s /\ Shift s' = Shift s /\ Mask s' = Mask s
  /\ exists m, slices_Max (Values s) = Some m /\ Bits s' = bitsFor m.

(** The shift and mask of every stage in build order: one pair per shift,
    then the root's. *)
Fixpoint stageParams (cumulativeShift : Z) (shifts : list Z) : list (Z * Z) :=
  match shifts with
  | [] => [(cumulativeShift, MaxInt32)]
  | shift :: rest =>
      (cumulativeShift, Z.shiftl 1 shift - 1)
        :: stageParams (cumulativeShift + shift) rest
  end.

Definition paramsOf (s : Stage) : Z * Z := (Shift s, Mask s).

(** [Bits] is the least of 8, 16 and 32 whose range holds every value. *)
Definition bitsMinimal (s : Stage) : Prop :=
  Forall (fun v => 0 <= v < 2 ^ Bits s) (Values s)
  /\ (Bits s = 8
      \/ (Bits s = 16 /\ Exists (fun v => 2 ^ 8 <= v) (Values s))
      \/ (Bits s = 32 /\ Exists (fun v => 2 ^ 16 <= v) (Values s))).

(** ** The emitted [ucdLookup] *)

(** The statements the generator emits after the first one:
    [s(i+1) = s_stage(i+1)[s(i) + ((cp >> shift) & mask)]].  [cp] is a
    [char32_t]: a shift count of 32 or more is undefined, and with a mask
    literal that is an [int] the index is computed in 32-bit unsigned
    arithmetic; a larger literal has a 64-bit type, where the sum does not
    wrap.  [None] stands for the undefined shift and for a read outside the
    array. *)
Fixpoint ucdLookup_from (stages : list Stage) (cp s : Z) : option Z :=
  match stages with
  | [] => Some s
  | st :: rest =>
      if 32 <=? Shift st then None
      else
        let index := s + Z.land (Z.shiftr cp (Shift st)) (Mask st) in
        s' <- slice_index (Values st)
                (if Mask st <=? MaxInt32 then to_uint32 index else index) ;;
        ucdLookup_from rest cp s'
  end.

(** [s1 = s_stage1[cp >> shift]], then the remaining stages.  The generator
    itself panics on a trie without stages. *)
Definition ucdLookup (t : Trie) (cp : Z) : option Z :=
  match Stages t with
  | [] => None
  | st :: rest =>
      if 32 <=? Shift st then None
      else
        s1 <- slice_index (Values st) (Z.shiftr cp (Shift st)) ;;
        ucdLookup_from rest cp s1
  end.

(** ** The dense array, code point by code point *)

(** Whether the range of a record holds a code point. *)
Definition covers (c : Char) (cp : Z) : bool :=
  (firstCp_of c <=? cp) && (cp <=? lastCp_of c).

(** The classification byte written for a record that is not rejected. *)
Definition recordValue (g : Group) (c : Char) : option Z :=
  match classifyChar g c with
  | inr (cb, width) => Some (trieValue cb width)
  | inl _ => None
  end.

(** The value the records leave at a code point that held [initial]: that
    of the last record whose range holds the code point. *)
Fixpoint valueOf (rs : list (Group * Char)) (cp : Z) (initial : Z) : Z :=
  match rs with
  | [] => initial
  | (g, c) :: rest =>
      valueOf rest cp
        (if covers c cp then
           match recordValue g c with Some v => v | None => initial end
         else initial)
  end.

(** The two fixed ranges take precedence over every record. *)
Definition extractedValue (ucd : UCD) (cp : Z) : Z :=
  if (9472 <=? cp) && (cp <=? 9631) then trieValue cbOther cwNarrow
  else if cp =? 65039 then trieValue cbExtend cwWide
  else valueOf (records ucd) cp (trieValue cbOther cwNarrow).

(** A record the loop passes: it is classified and its range lies inside
    the dense array. *)
Definition accepted (gc : Group * Char) : Prop :=
  inRange (snd gc) /\ exists p, classifyChar (fst gc) (snd gc) = inr p.

(** A record that is classified although its range is not inside the dense
    array. *)
Definition outOfRangeChar : Char :=
  {| Codepoint := 0; FirstCodepoint := 1114000; LastCodepoint := 1114112;
     Char_GeneralCategory := ""; Char_GraphemeClusterBreak := "";
     Char_IndicConjunctBreak := ""; Char_ExtendedPictographic := "";
     Char_EastAsian := "" |}.

(** A database whose second record is out of range and whose third is
    rejected. *)
Definition offenderGroup : Group := sampleGroup [wideMark; outOfRangeChar; unknownGCB].

Definition offenderUCD : UCD :=
  {| Description := "sample"; Repertoire := [offenderGroup] |}.

(** ** The search of [buildBestTrie] *)

(** [bestTrie] before any result has arrived. *)
Definition noTrie : Trie := {| Stages := []; TotalSize := MaxInt |}.

(** ** The single-table generator [CodepointWidthDetector_triegen.go] *)

Module Triegen.

Record Stage : Type := {
  Values : list Z;
  Shift : Z;
  Mask : Z;
  Bits : Z;
  Index : Z
}.

Definition MaxUint32 : Z := 4294967295.

(** The body of the chunk loop: a chunk whose bytes are not in the cache is
    appended whole, at the offset [TrieType(len(compressed))]. *)
Definition placeChunk (cache : Cache) (compressed chunk : list Z)
  : Cache * list Z * Z :=
  let key := rawBytes chunk in
  match cache_get key cache with
  | Some offset => (cache, compressed, offset)
  | None =>
      let offset := to_uint32 (Z.of_nat (length compressed)) in
      (cache_set key offset cache, compressed ++ chunk, offset)
  end.

Fixpoint compressChunks (chunks : list (list Z)) (cache : Cache) (compressed : list Z)
  : list Z * list Z :=
  match chunks with
  | [] => (compressed, [])
  | chunk :: rest =>
      let '(cache', compressed', offset) := placeChunk cache compressed chunk in
      let '(c, offsets) := compressChunks rest cache' compressed' in
      (c, offset :: offsets)
  end.

Definition compressStage (uncompressed : list Z) (shift : Z) : list Z * list Z :=
  compressChunks (chunksOf (Z.shiftl 1 shift) uncompressed) [] [].

(** The loop over [shifts], followed by the append of the root stage. *)
Fixpoint buildStages (shifts : list Z) (uncompressed : list Z)
    (cumulativeShift : Z) (stages : list Stage) : option (list Stage) :=
  match shifts with
  | [] =>
      Some (stages ++ [ {| Values := uncompressed; Shift := cumulativeShift;
                           Mask := MaxUint32; Bits := 0; Index := 0 |} ])
  | shift :: rest =>
      if validShift shift then
        let '(compressed, offsets) := compressStage uncompressed shift in
        buildStages rest offsets (cumulativeShift + shift)
          (stages ++ [ {| Values := compressed; Shift := cumulativeShift;
                          Mask := Z.shiftl 1 shift - 1; Bits := 0; Index := 0 |} ])
      else None
  end.

Definition bitSize (x : Z) : Z :=
  if x <=? 255 then 8 else if x <=? 65535 then 16 else 32.

(** [for i, s := range stages { s.Bits = bitSize(slices.Max(s.Values));
    s.Index = i + 1 }]. *)
Fixpoint setBits (i : Z) (stages : list Stage) : option (list Stage) :=
  match stages with
  | [] => Some []
  | s :: rest =>
      m <- slices_Max (Values s) ;;
      rest' <- setBits (i + 1) rest ;;
      Some ({| Values := Values s; Shift := Shift s; Mask := Mask s;
               Bits := bitSize m; Index := i + 1 |} :: rest')
  end.

Definition buildTrie (uncompressed : list Z) (shifts : list Z) : option (list Stage) :=
  stages <- buildStages shifts uncompressed 0 [] ;;
  setBits 0 (rev stages).

(** [for _, s := range stages { v = s.Values[int(v)+((cp>>s.Shift)&s.Mask)] }]. *)
Fixpoint lookup_from (stages : list Stage) (cp v : Z) : option Z :=
  match stages with
  | [] => Some v
  | s :: rest =>
      v' <- slice_index (Values s) (v + Z.land (Z.shiftr cp (Shift s)) (Mask s)) ;;
      lookup_from rest cp v'
  end.

Definition lookup (stages : list Stage) (cp : Z) : option Z :=
  lookup_from stages cp 0.

(** The shift, mask and values of a stage, which [setBits] keeps. *)
Definition shape (s : Stage) : list Z * Z * Z := (Values s, Shift s, Mask s).

(** *** [buildJoinRules] *)

Inductive ClusterBreak : Type :=
| CB_OTHER
| CB_CONTROL
| CB_EXTEND
| CB_PREPEND
| CB_ZERO_WIDTH_JOINER
| CB_REGIONAL_INDICATOR
| CB_HANGUL_L
| CB_HANGUL_V
| CB_HANGUL_T
| CB_HANGUL_LV
| CB_HANGUL_LVT
| CB_CONJUNCT_LINKER
| CB_EXTENDED_PICTOGRAPHIC.

Definition ClusterBreak_index (cb : ClusterBreak) : nat :=
  match cb with
  | CB_OTHER => 0
  | CB_CONTROL => 1
  | CB_EXTEND => 2
  | CB_PREPEND => 3
  | CB_ZERO_WIDTH_JOINER => 4
  | CB_REGIONAL_INDICATOR => 5
  | CB_HANGUL_L => 6
  | CB_HANGUL_V => 7
  | CB_HANGUL_T => 8
  | CB_HANGUL_LV => 9
  | CB_HANGUL_LVT => 10
  | CB_CONJUNCT_LINKER => 11
  | CB_EXTENDED_PICTOGRAPHIC => 12
  end.

Definition CB_COUNT : nat := 13.

(** A value of type [[CB_COUNT][CB_COUNT]bool]. *)
Definition Rules : Type := list (list bool).

Definition setAt {A : Type} (l : list A) (i : nat) (v : A) : list A :=
  firstn i l ++ v :: skipn (S i) l.

(** [rules[lead][trail] = v]. *)
Definition setEntry (rules : Rules) (lead trail : ClusterBreak) (v : bool) : Rules :=
  setAt rules (ClusterBreak_index lead)
    (setAt (nth (ClusterBreak_index lead) rules []) (ClusterBreak_index trail) v).

(** [fillRange(rules[lead][:], v)]: the slice shares the row's storage. *)
Definition fillRow (rules : Rules) (lead : ClusterBreak) (v : bool) : Rules :=
  setAt rules (ClusterBreak_index lead) (repeat v CB_COUNT).

(** [for _, lead := range rules { body }]: ranging over an array of arrays
    assigns each row to [lead] by value, so the body's assignments
    [lead[...] = v] change the copies and [rules] is what it was. *)
Definition rangeByValue (rules : Rules) (body : list bool -> list bool) : Rules :=
  let copies := map body rules in
  rules.

Definition buildJoinRules : Rules :=
  let rules := repeat (repeat false CB_COUNT) CB_COUNT in
  let rules := setEntry rules CB_REGIONAL_INDICATOR CB_REGIONAL_INDICATOR true in
  let rules := setEntry rules CB_ZERO_WIDTH_JOINER CB_EXTENDED_PICTOGRAPHIC true in
  let rules := fillRow rules CB_CONJUNCT_LINKER true in
  let rules :=
    rangeByValue rules
      (fun lead => setAt lead (ClusterBreak_index CB_CONJUNCT_LINKER) true) in
  let rules := fillRow rules CB_PREPEND true in
  let rules :=
    rangeByValue rules
      (fun lead =>
         setAt (setAt lead (ClusterBreak_index CB_EXTEND) true)
           (ClusterBreak_index CB_ZERO_WIDTH_JOINER) true) in
  let rules := setEntry rules CB_HANGUL_LVT CB_HANGUL_T true in
  let rules := setEntry rules CB_HANGUL_T CB_HANGUL_T true in
  let rules := setEntry rules CB_HANGUL_LV CB_HANGUL_T true in
  let rules := setEntry rules CB_HANGUL_LV CB_HANGUL_V true in
  let rules := setEntry rules CB_HANGUL_V CB_HANGUL_V true in
  let rules := setEntry rules CB_HANGUL_V CB_HANGUL_T true in
  let rules := setEntry rules CB_HANGUL_L CB_HANGUL_L true in
  let rules := setEntry rules CB_HANGUL_L CB_HANGUL_V true in
  let rules := setEntry rules CB_HANGUL_L CB_HANGUL_LV true in
  let rules := setEntry rules CB_HANGUL_L CB_HANGUL_LVT true in
  let rules :=
    rangeByValue rules
      (fun lead => setAt lead (ClusterBreak_index CB_CONTROL) false) in
  let rules := fillRow rules CB_CONTROL false in
  rules.

(** [rules[lead][trail]]. *)
Definition joins (rules : Rules) (lead trail : ClusterBreak) : bool :=
  nth (ClusterBreak_index trail) (nth (ClusterBreak_index lead) rules []) false.

(** The pairs of Hangul syllable types the table is given one by one. *)
Definition hangulPair (lead trail : ClusterBreak) : bool :=
  match lead, trail with
  | CB_HANGUL_LVT, CB_HANGUL_T | CB_HANGUL_T, CB_HANGUL_T
  | CB_HANGUL_LV, CB_HANGUL_T | CB_HANGUL_LV, CB_HANGUL_V
  | CB_HANGUL_V, CB_HANGUL_V | CB_HANGUL_V, CB_HANGUL_T
  | CB_HANGUL_L, CB_HANGUL_L | CB_HANGUL_L, CB_HANGUL_V
  | CB_HANGUL_L, CB_HANGUL_LV | CB_HANGUL_L, CB_HANGUL_LVT => true
  | _, _ => false
  end.

(** The leads whose whole row is filled. *)
Definition filledRow (lead : ClusterBreak) : bool :=
  match lead with
  | CB_PREPEND | CB_CONJUNCT_LINKER => true
  | _ => false
  end.

End Triegen.

(** [chunk] lies in [l] from element [offset] on. *)
Definition occursAt (chunk : list Z) (offset : Z) (l : list Z) : Prop :=
  exists pre post, l = pre ++ chunk ++ post /\ Z.of_nat (length pre) = offset.

(** Every cache entry is keyed by the bytes of a chunk of 32-bit values that
    lies in the compressed slice at the cached offset. *)
Definition cacheSound (cache : Cache) (compressed : list Z) : Prop :=
  forall key offset,
    In (key, offset) cache ->
    exists chunk,
      key = rawBytes chunk /\ Forall isUint32 chunk /\ occursAt chunk offset compressed.

(** * Proofs *)

(** ** The packed join table *)

Lemma prepareRulesTable_JoinRules : prepareRulesTable JoinRules = Some s_joinRules.
Proof. vm_compute. reflexivity. Qed.

Lemma land15_range (x : Z) : In (Z.land x 15) range16.
Proof.
  change 15 with (Z.ones 4). rewrite Z.land_ones by lia.
  pose proof (Z.mod_pos_bound x (2 ^ 4) ltac:(lia)) as H.
  change (2 ^ 4) with 16 in *. unfold range16. simpl. lia.
Qed.

(** A property of the masked indices checked on the sixteen values holds of
    every argument of [ucdGraphemeJoins]. *)
Lemma range16_forall2 (P : Z -> Z -> bool) :
  forallb (fun l => forallb (P l) range16) range16 = true ->
  forall lead trail, P (Z.land lead 15) (Z.land trail 15) = true.
Proof.
  intros H lead trail.
  rewrite forallb_forall in H.
  specialize (H _ (land15_range lead)).
  rewrite forallb_forall in H.
  exact (H _ (land15_range trail)).
Qed.

Lemma optZ_eqb_eq a b : optZ_eqb a b = true -> a = b.
Proof.
  destruct a, b; simpl; try discriminate; try reflexivity.
  intros H. apply Z.eqb_eq in H. congruence.
Qed.

Lemma joinFacts_all : forallb (fun l => forallb (joinFacts l) range16) range16 = true.
Proof. vm_compute. reflexivity. Qed.

Lemma spareLeadFacts_all :
  forallb (fun l => forallb (spareLeadFacts l) range16) range16 = true.
Proof. vm_compute. reflexivity. Qed.

(** The two states of [ucdGraphemeJoins] on arbitrary arguments. *)
Lemma ucdGraphemeJoins_cases (lead trail : Z) :
  (isRI lead && isRI trail = true
   /\ ucdGraphemeJoins 0 lead trail = Some 1
   /\ ucdGraphemeJoins 1 lead trail = Some Ω)
  \/ (isRI lead && isRI trail = false
      /\ ucdGraphemeJoins 1 lead trail = ucdGraphemeJoins 0 lead trail
      /\ (ucdGraphemeJoins 0 lead trail = Some 0
          \/ ucdGraphemeJoins 0 lead trail = Some Ω)).
Proof.
  pose proof (range16_forall2 joinFacts joinFacts_all lead trail) as H.
  unfold joinFacts in H. unfold ucdGraphemeJoins, isRI.
  change (ClusterBreak_int cbRI) with 3.
  destruct ((Z.land lead 15 =? 3) && (Z.land trail 15 =? 3)).
  - left. apply andb_true_iff in H as [H0 H1].
    auto using optZ_eqb_eq.
  - right. apply andb_true_iff in H as [H1 H0].
    apply orb_true_iff in H0.
    split; [reflexivity|]. split; [auto using optZ_eqb_eq|].
    destruct H0 as [H0|H0]; [left|right]; auto using optZ_eqb_eq.
Qed.

(** C5. [JoinRules] holds exactly two tables of 14 rows of 14 entries.  At
    the pair (RegionalIndicator, RegionalIndicator) the default table holds
    the join into state 1 and the second table holds the break; at every
    other pair the two tables hold the same entry, which is either the break
    or the join into state 0. *)
Theorem JoinRules_two_states_differ_at_RI_pair :
  length JoinRules = 2%nat
  /\ Forall (fun table =>
               Z.of_nat (length table) = cbCount
               /\ Forall (fun row => Z.of_nat (length row) = cbCount) table)
            JoinRules
  /\ forall lead trail : ClusterBreak,
       if ClusterBreak_eqb lead cbRI && ClusterBreak_eqb trail cbRI
       then JoinRules_at 0 lead trail = Some 1
            /\ JoinRules_at 1 lead trail = Some Ω
       else JoinRules_at 0 lead trail = JoinRules_at 1 lead trail
            /\ (JoinRules_at 0 lead trail = Some Ω
                \/ JoinRules_at 0 lead trail = Some 0).
Proof.
  split; [reflexivity|]. split.
  - repeat constructor.
  - intros lead trail.
    destruct lead, trail; vm_compute; auto.
Qed.

(** C8. In both states and for every category [c], the verdict with Control
    leading and [c] trailing is the break, and so is the verdict with [c]
    leading and Control trailing: in the source table, and in the packed
    table as [ucdGraphemeJoins] reads it from classification values of any
    width. *)
Theorem JoinRules_break_before_and_after_Control :
  forall (c : ClusterBreak) (w1 w2 : CharacterWidth),
    JoinRules_at 0 cbControl c = Some Ω
    /\ JoinRules_at 0 c cbControl = Some Ω
    /\ JoinRules_at 1 cbControl c = Some Ω
    /\ JoinRules_at 1 c cbControl = Some Ω
    /\ ucdGraphemeJoins 0 (trieValue cbControl w1) (trieValue c w2) = Some Ω
    /\ ucdGraphemeJoins 0 (trieValue c w1) (trieValue cbControl w2) = Some Ω
    /\ ucdGraphemeJoins 1 (trieValue cbControl w1) (trieValue c w2) = Some Ω
    /\ ucdGraphemeJoins 1 (trieValue c w1) (trieValue cbControl w2) = Some Ω.
Proof.
  intros c w1 w2.
  destruct c, w1, w2; vm_compute; repeat split; reflexivity.
Qed.

(** C10. The packed table has two rows of states, each of exactly 16 lead
    entries; for a state of 0 or 1 and any lead and trail, [ucdGraphemeJoins]
    reads inside the table, and for the leads 14 and 15 it returns 0. *)
Theorem ucdGraphemeJoins_in_bounds (state lead trail : Z) :
  state = 0 \/ state = 1 ->
  0 <= lead < 256 ->
  0 <= trail < 256 ->
  prepareRulesTable JoinRules = Some s_joinRules
  /\ length s_joinRules = 2%nat
  /\ Forall (fun row => length row = 16%nat) s_joinRules
  /\ 0 <= Z.land lead 15 < 16
  /\ 0 <= Z.land trail 15 * bits_Len8 Ω < 32
  /\ (exists v, ucdGraphemeJoins state lead trail = Some v)
  /\ (lead = 14 \/ lead = 15 -> ucdGraphemeJoins state lead trail = Some 0).
Proof.
  intros Hstate _ _.
  pose proof (land15_range lead) as Hl.
  pose proof (land15_range trail) as Ht.
  split; [exact prepareRulesTable_JoinRules|].
  split; [reflexivity|].
  split; [repeat constructor|].
  split; [unfold range16 in Hl; simpl in Hl; lia|].
  split; [change (bits_Len8 Ω) with 2; unfold range16 in Ht; simpl in Ht; lia|].
  split.
  - destruct (ucdGraphemeJoins_cases lead trail) as [(_ & H0 & H1)|(_ & H10 & H0)];
      destruct Hstate; subst state.
    + eauto.
    + eauto.
    + destruct H0 as [H0|H0]; eauto.
    + rewrite H10. destruct H0 as [H0|H0]; eauto.
  - intros H14.
    pose proof (range16_forall2 spareLeadFacts spareLeadFacts_all lead trail) as H.
    unfold spareLeadFacts in H.
    assert (Hm : (Z.land lead 15 =? 14) || (Z.land lead 15 =? 15) = true)
      by (destruct H14; subst lead; reflexivity).
    rewrite Hm in H. apply andb_true_iff in H as [H0 H1].
    unfold ucdGraphemeJoins.
    destruct Hstate; subst state; auto using optZ_eqb_eq.
Qed.

Lemma ucdGraphemeJoins_in_bounds_witness :
  prepareRulesTable JoinRules = Some s_joinRules
  /\ length s_joinRules = 2%nat
  /\ Forall (fun row => length row = 16%nat) s_joinRules
  /\ 0 <= Z.land 14 15 < 16
  /\ 0 <= Z.land 200 15 * bits_Len8 Ω < 32
  /\ (exists v, ucdGraphemeJoins 1 14 200 = Some v)
  /\ (14 = 14 \/ 14 = 15 -> ucdGraphemeJoins 1 14 200 = Some 0).
Proof.
  apply (ucdGraphemeJoins_in_bounds 1 14 200); [right; reflexivity | lia | lia].
Defined.

(** ** Literal scans *)

(** C9. With the classification values of U+0915, U+094D, U+094D, U+0924
    (IndicConjunctConsonant/Narrow, IndicConjunctLinker/ZeroWidth twice,
    IndicConjunctConsonant/Narrow), each of the three adjacent pairs joins in
    the default state and stays in it, and the scan from offset 0 ends at
    offset 4 with width 2. *)
Theorem GraphemeNext_Devanagari_conjunct :
  let ka := trieValue cbInCBConsonant cwNarrow in
  let virama := trieValue cbInCBLinker cwZeroWidth in
  let ta := trieValue cbInCBConsonant cwNarrow in
  JoinRules_at 0 cbInCBConsonant cbInCBLinker = Some 0
  /\ JoinRules_at 0 cbInCBLinker cbInCBLinker = Some 0
  /\ JoinRules_at 0 cbInCBLinker cbInCBConsonant = Some 0
  /\ ucdGraphemeJoins 0 ka virama = Some 0
  /\ ucdGraphemeJoins 0 virama virama = Some 0
  /\ ucdGraphemeJoins 0 virama ta = Some 0
  /\ GraphemeNext [ka; virama; virama; ta] 0 = Some (4%nat, 2).
Proof. vm_compute. repeat split; reflexivity. Qed.

(** C2, as stated, fails on three Regional Indicators: the forward scan
    finds the boundaries 0, 2, 3 and the backward scan 0, 1, 3. *)
Lemma scans_disagree_on_three_RI :
  let ri := trieValue cbRI cwNarrow in
  boundariesForward [ri; ri; ri] = Some [0; 2; 3]%nat
  /\ boundariesBackward [ri; ri; ri] = Some [0; 1; 3]%nat
  /\ boundariesForward [ri; ri; ri] <> boundariesBackward [ri; ri; ri].
Proof. vm_compute. repeat split; try reflexivity. discriminate. Qed.

(** ** [findExisting] *)

(** C3 fails on the code: the bytes of the needle [256] occur in the bytes
    of the haystack [0; 1] at byte offset 3 only, the second iteration of
    the loop searches from that offset, finds the match at relative offset 0
    and returns element index 0, where the haystack holds 0. *)
Theorem findExisting_misaligned_match :
  bytes_Index (rawBytes [0; 1]) (rawBytes [256]) = 3
  /\ findExisting [0; 1] [256] = 0
  /\ firstn 1 (skipn 0 [0; 1]) <> [256].
Proof. vm_compute. repeat split; try reflexivity. discriminate. Qed.

(** ** Classification extraction *)

Lemma ClusterBreak_eqb_eq (a b : ClusterBreak) : ClusterBreak_eqb a b = true <-> a = b.
Proof. destruct a, b; split; intros H; try reflexivity; discriminate H. Qed.

Ltac string_cases s :=
  repeat match goal with
    | |- context [String.eqb s ?lit] =>
        destruct (String.eqb_spec s lit) as [->|?]; simpl
    end.

Lemma gcbCategory_None (s : string) : gcbCategory s = None <-> ~ In s recognizedGCB.
Proof.
  unfold gcbCategory, recognizedGCB.
  string_cases s;
    try (split; [discriminate | intros H; exfalso; apply H; simpl; tauto]).
  split; [|reflexivity].
  intros _ H. simpl in H. intuition congruence.
Qed.

Lemma eaWidth_None (s : string) : eaWidth s = None <-> ~ In s recognizedEA.
Proof.
  unfold eaWidth, recognizedEA.
  string_cases s;
    try (split; [discriminate | intros H; exfalso; apply H; simpl; tauto]).
  split; [|reflexivity].
  intros _ H. simpl in H. intuition congruence.
Qed.

Lemma fillRange_slice_length s lo hi v s' :
  fillRange_slice s lo hi v = Some s' -> length s' = length s.
Proof.
  unfold fillRange_slice.
  destruct ((0 <=? lo) && (lo <=? hi) && (hi <=? Z.of_nat (length s))) eqn:Hb;
    [|discriminate].
  intros [= <-].
  apply andb_true_iff in Hb as [Hb H3]. apply andb_true_iff in Hb as [H1 H2].
  apply Z.leb_le in H1, H2, H3.
  rewrite !length_app, repeat_length, length_firstn, length_skipn. lia.
Qed.

Lemma fillRange_slice_inside s lo hi v s' d i :
  fillRange_slice s lo hi v = Some s' ->
  lo <= i < hi -> nth (Z.to_nat i) s' d = v.
Proof.
  unfold fillRange_slice.
  destruct ((0 <=? lo) && (lo <=? hi) && (hi <=? Z.of_nat (length s))) eqn:Hb;
    [|discriminate].
  intros [= <-] Hi.
  apply andb_true_iff in Hb as [Hb H3]. apply andb_true_iff in Hb as [H1 H2].
  apply Z.leb_le in H1, H2, H3.
  assert (Hl : length (firstn (Z.to_nat lo) s) = Z.to_nat lo)
    by (rewrite length_firstn; lia).
  rewrite app_nth2 by lia. rewrite Hl.
  rewrite app_nth1 by (rewrite repeat_length; lia).
  apply nth_repeat_lt. lia.
Qed.

Lemma fillRange_slice_outside s lo hi v s' d i :
  fillRange_slice s lo hi v = Some s' ->
  0 <= i < lo \/ hi <= i -> nth (Z.to_nat i) s' d = nth (Z.to_nat i) s d.
Proof.
  unfold fillRange_slice.
  destruct ((0 <=? lo) && (lo <=? hi) && (hi <=? Z.of_nat (length s))) eqn:Hb;
    [|discriminate].
  intros [= <-] Hi.
  apply andb_true_iff in Hb as [Hb H3]. apply andb_true_iff in Hb as [H1 H2].
  apply Z.leb_le in H1, H2, H3.
  assert (Hl : length (firstn (Z.to_nat lo) s) = Z.to_nat lo)
    by (rewrite length_firstn; lia).
  destruct Hi as [Hi|Hi].
  - rewrite app_nth1 by lia. rewrite nth_firstn. destruct (Nat.ltb_spec (Z.to_nat i) (Z.to_nat lo)); [reflexivity|lia].
  - rewrite app_nth2 by lia. rewrite Hl.
    rewrite app_nth2 by (rewrite repeat_length; lia).
    rewrite repeat_length, nth_skipn. f_equal. lia.
Qed.

Lemma fillRange_slice_Some s lo hi v :
  0 <= lo -> lo <= hi -> hi <= Z.of_nat (length s) ->
  exists s', fillRange_slice s lo hi v = Some s'.
Proof.
  intros H1 H2 H3. unfold fillRange_slice.
  apply Z.leb_le in H1, H2, H3. rewrite H1, H2, H3. simpl. eauto.
Qed.

Lemma gcbCategory_Some_In s cb : gcbCategory s = Some cb -> In s recognizedGCB.
Proof.
  intros H. destruct (in_dec string_dec s recognizedGCB) as [Hin|Hn]; [exact Hin|].
  apply gcbCategory_None in Hn. congruence.
Qed.

Lemma eaWidth_Some_In s w : eaWidth s = Some w -> In s recognizedEA.
Proof.
  intros H. destruct (in_dec string_dec s recognizedEA) as [Hin|Hn]; [exact Hin|].
  apply eaWidth_None in Hn. congruence.
Qed.

(** A record is turned into an error exactly when it is rejected. *)
Lemma classifyChar_inl_iff (g : Group) (c : Char) :
  (exists e, classifyChar g c = inl e) <-> rejected g c.
Proof.
  unfold classifyChar, rejected, categoryBeforeInCB, classifyRecord.
  generalize (generalCategory_of g c) (graphemeClusterBreak_of g c)
    (indicConjunctBreak_of g c) (extendedPictographic_of g c) (eastAsian_of g c)
    (firstCp_of c) (lastCp_of c).
  intros gc gcb incb ep ea f l.
  destruct (gcbCategory gcb) as [cb0|] eqn:Hg.
  2: { split; [intros _; left; apply gcbCategory_None; exact Hg
              | intros _; eexists; reflexivity]. }
  pose proof (gcbCategory_Some_In _ _ Hg) as HG.
  destruct (eaWidth ea) as [w0|] eqn:He.
  2: { split.
       - intros _. right; right; left. apply eaWidth_None; exact He.
       - intros _.
         destruct (String.eqb ep "Y"), (ClusterBreak_eqb cb0 cbOther),
           (String.eqb incb "None"), (String.eqb incb "Extend"),
           (String.eqb incb "Linker"), (String.eqb incb "Consonant"),
           (ClusterBreak_eqb cb0 cbExtend), (ClusterBreak_eqb cbExtPic cbExtend),
           (ClusterBreak_eqb cbExtPic cbOther);
           simpl; eexists; reflexivity. }
  pose proof (eaWidth_Some_In _ _ He) as HE.
  unfold recognizedInCB.
  destruct (String.eqb_spec ep "Y") as [->|Hep];
    destruct cb0; simpl;
    string_cases incb;
    (split;
     [ intros [e He']; try discriminate He'; simpl; intuition congruence
     | intros H; try (eexists; reflexivity); exfalso; simpl in H;
       intuition congruence ]).
Qed.

Lemma processGroups_records (groups : list Group) (values : list Z) :
  processGroups values groups = processRecords values (recordsOf groups).
Proof.
  revert values. induction groups as [|g groups IH]; intros values; [reflexivity|].
  simpl. unfold recordsOf in *. simpl.
  generalize (Chars g) as chars. intros chars. revert values.
  induction chars as [|c chars IHc]; intros values; simpl.
  - apply IH.
  - destruct (processChar g values c); auto.
Qed.

Lemma records_recordsOf (ucd : UCD) : records ucd = recordsOf (Repertoire ucd).
Proof. reflexivity. Qed.

Lemma processChar_in_range (g : Group) (c : Char) (values : list Z) :
  Z.of_nat (length values) = codepointCount ->
  inRange c ->
  match processChar g values c with
  | Returned values' =>
      Z.of_nat (length values') = codepointCount
      /\ exists p, classifyChar g c = inr p
  | Failed e => classifyChar g c = inl e
  | Panicked => False
  end.
Proof.
  intros Hlen (H1 & H2 & H3). unfold processChar.
  destruct (classifyChar g c) as [e|[cb width]]; [reflexivity|].
  destruct (fillRange_slice_Some values (firstCp_of c) (lastCp_of c + 1)
              (trieValue cb width)) as [v' Hv']; try lia.
  rewrite Hv'. split; [|eauto].
  apply fillRange_slice_length in Hv'. lia.
Qed.

(** The outcome of the record loop on records that are all in range. *)
Lemma processRecords_outcome (rs : list (Group * Char)) :
  forall values,
    Z.of_nat (length values) = codepointCount ->
    Forall (fun gc => inRange (snd gc)) rs ->
    match processRecords values rs with
    | Returned values' =>
        Z.of_nat (length values') = codepointCount
        /\ Forall (fun gc => exists p, classifyChar (fst gc) (snd gc) = inr p) rs
    | Failed e => Exists (fun gc => classifyChar (fst gc) (snd gc) = inl e) rs
    | Panicked => False
    end.
Proof.
  induction rs as [|[g c] rs IH]; intros values Hlen Hrange; simpl.
  - auto.
  - inversion Hrange as [|? ? Hc Hrs]; subst. simpl in Hc.
    pose proof (processChar_in_range g c values Hlen Hc) as Hstep.
    destruct (processChar g values c) as [values'|e|].
    + destruct Hstep as [Hlen' Hp].
      specialize (IH values' Hlen' Hrs).
      destruct (processRecords values' rs); auto.
      destruct IH. split; auto.
    + left. exact Hstep.
    + exact Hstep.
Qed.

Lemma postPass_Some (values : list Z) :
  Z.of_nat (length values) = codepointCount ->
  exists values', postPass values = Some values'
                  /\ Z.of_nat (length values') = codepointCount.
Proof.
  intros Hlen. unfold postPass. unfold codepointCount in Hlen.
  destruct (fillRange_slice_Some values 9472 (9631 + 1) (trieValue cbOther cwNarrow))
    as [v1 Hv1]; try lia.
  rewrite Hv1. simpl.
  pose proof (fillRange_slice_length _ _ _ _ _ Hv1) as Hl1.
  destruct (fillRange_slice_Some v1 65039 (65039 + 1) (trieValue cbExtend cwWide))
    as [v2 Hv2]; try lia.
  exists v2. split; [exact Hv2|].
  apply fillRange_slice_length in Hv2. unfold codepointCount. lia.
Qed.

Lemma initial_length (v : Z) :
  Z.of_nat (length (repeat v (Z.to_nat codepointCount))) = codepointCount.
Proof. rewrite repeat_length. unfold codepointCount. lia. Qed.

(** The error of a rejected record names the condition it meets and the
    attribute value at fault. *)
Lemma classifyChar_names (g : Group) (c : Char) (e : ExtractError) :
  classifyChar g c = inl e -> errorNames g c e.
Proof.
  unfold classifyChar, errorNames, categoryBeforeInCB, classifyRecord.
  generalize (generalCategory_of g c) (graphemeClusterBreak_of g c)
    (indicConjunctBreak_of g c) (extendedPictographic_of g c) (eastAsian_of g c)
    (firstCp_of c) (lastCp_of c).
  intros gc gcb incb ep ea f l.
  destruct (gcbCategory gcb) as [cb0|] eqn:Hg.
  2: { intros [= <-]. cbn. split; [reflexivity|]. split; [reflexivity|].
       apply gcbCategory_None. exact Hg. }
  pose proof (gcbCategory_Some_In _ _ Hg) as HG.
  destruct (eaWidth ea) as [w0|] eqn:He;
    [|pose proof (proj1 (eaWidth_None ea) He) as HE];
    unfold recognizedInCB;
    (destruct (String.eqb_spec ep "Y") as [->|Hep]);
    destruct cb0; cbn; string_cases incb;
    intros H; try discriminate H; injection H as <-; cbn;
    (split; [reflexivity|]); repeat split; try reflexivity; try assumption;
    try discriminate; cbn; intuition congruence.
Qed.

(** The error the record loop returns is that of the first record that is
    not classified. *)
Lemma processRecords_failed_first (rs : list (Group * Char)) :
  forall values e,
    processRecords values rs = Failed e ->
    exists pre g c post,
      rs = pre ++ (g, c) :: post
      /\ Forall (fun gc => exists p, classifyChar (fst gc) (snd gc) = inr p) pre
      /\ classifyChar g c = inl e.
Proof.
  induction rs as [|[g c] rs IH]; intros values e H; cbn [processRecords] in H.
  - discriminate H.
  - destruct (processChar g values c) as [values'|e'|] eqn:Hstep; try discriminate H.
    + destruct (IH _ _ H) as (pre & g' & c' & post & -> & Hpre & Hcls).
      exists ((g, c) :: pre), g', c', post. split; [reflexivity|]. split; [|exact Hcls].
      constructor; [|exact Hpre]. cbn [fst snd].
      unfold processChar in Hstep.
      destruct (classifyChar g c) as [?|p]; [discriminate Hstep|eauto].
    + injection H as ->. exists [], g, c, rs. split; [reflexivity|].
      split; [constructor|].
      unfold processChar in Hstep.
      destruct (classifyChar g c) as [e0|[cb w]]; [congruence|].
      destruct (fillRange_slice _ _ _ _); discriminate Hstep.
Qed.

(** C4. For a database whose records all name a range inside the dense
    array, the extraction returns an error exactly when some record is
    rejected (an unrecognised GCB, InCB or East_Asian_Width value, ExtPict=Y
    on a category other than Other, InCB=Linker on a category other than
    Extend, InCB=Consonant on a category other than Other); the error is
    that of the first rejected record in document order: its range is that
    record's, its kind is a rejection condition the record meets, and the
    value it prints is the record's attribute value at fault; and when no
    record is rejected the dense array of 1,114,112 values is returned. *)
Theorem extractValuesFromUCD_error_iff_rejected (ucd : UCD) :
  Forall (fun gc => inRange (snd gc)) (records ucd) ->
  ((exists e, extractValuesFromUCD ucd = Failed e)
   <-> Exists (fun gc => rejected (fst gc) (snd gc)) (records ucd))
  /\ (forall e, extractValuesFromUCD ucd = Failed e ->
        exists pre g c post,
          records ucd = pre ++ (g, c) :: post
          /\ Forall (fun gc => ~ rejected (fst gc) (snd gc)) pre
          /\ rejected g c
          /\ errorNames g c e)
  /\ (~ Exists (fun gc => rejected (fst gc) (snd gc)) (records ucd) ->
        exists values, extractValuesFromUCD ucd = Returned values
          /\ Z.of_nat (length values) = codepointCount).
Proof.
  intros Hrange.
  rewrite records_recordsOf in *.
  pose proof (processRecords_outcome (recordsOf (Repertoire ucd)) _
                (initial_length (trieValue cbOther cwNarrow)) Hrange) as Hout.
  pose proof (processRecords_failed_first (recordsOf (Repertoire ucd))
                (repeat (trieValue cbOther cwNarrow) (Z.to_nat codepointCount)))
    as Hfirst.
  unfold extractValuesFromUCD. rewrite processGroups_records.
  destruct (processRecords _ (recordsOf (Repertoire ucd))) as [values'|e|].
  - destruct Hout as [Hlen Hall].
    destruct (postPass_Some values' Hlen) as (values'' & Hpost & Hlen'').
    rewrite Hpost.
    assert (Hno : ~ Exists (fun gc => rejected (fst gc) (snd gc))
                    (recordsOf (Repertoire ucd))).
    { intros Hex. apply Exists_exists in Hex as ([g c] & Hin & Hrej).
      rewrite Forall_forall in Hall. destruct (Hall _ Hin) as [p Hp].
      simpl in *. apply classifyChar_inl_iff in Hrej as [e He]. congruence. }
    split; [|split].
    + split; [intros [e He]; discriminate He | intros Hex; contradiction].
    + intros e He. discriminate He.
    + intros _. eauto.
  - destruct (Hfirst e eq_refl) as (pre & g & c & post & Hrs & Hpre & Hcls).
    assert (Hrej : rejected g c) by (apply classifyChar_inl_iff; eauto).
    assert (Hex : Exists (fun gc => rejected (fst gc) (snd gc))
                    (recordsOf (Repertoire ucd))).
    { rewrite Hrs. apply Exists_app. right. left. exact Hrej. }
    split; [|split].
    + split; [intros _; exact Hex|eauto].
    + intros e' [= <-]. exists pre, g, c, post.
      split; [exact Hrs|]. split; [|split; [exact Hrej|]].
      * eapply Forall_impl; [|exact Hpre].
        intros [g0 c0] [p Hp] Hr. cbn [fst snd] in *.
        apply classifyChar_inl_iff in Hr as [e0 He0]. congruence.
      * apply classifyChar_names. exact Hcls.
    + intros Hno. contradiction.
  - contradiction.
Qed.

Lemma extractValuesFromUCD_error_iff_rejected_witness :
  Forall (fun gc => inRange (snd gc)) (records sampleUCD)
  /\ exists e, extractValuesFromUCD sampleUCD = Failed e.
Proof.
  assert (H : Forall (fun gc => inRange (snd gc)) (records sampleUCD))
    by (repeat constructor; vm_compute; intuition discriminate).
  split; [exact H|].
  apply (proj1 (extractValuesFromUCD_error_iff_rejected sampleUCD H)).
  apply Exists_cons_tl. apply Exists_cons_hd.
  left. vm_compute. intuition discriminate.
Defined.

(** C6. When a record whose coalesced General_Category starts with "M" or
    equals "Cf" is processed without error, the value written over its
    code-point range has width ZeroWidth, whatever its East_Asian_Width. *)
Theorem processChar_mark_is_zero_width
    (g : Group) (c : Char) (values values' : list Z) :
  String.prefix "M" (generalCategory_of g c) = true
  \/ generalCategory_of g c = "Cf"%string ->
  processChar g values c = Returned values' ->
  exists cb,
    classifyChar g c = inr (cb, cwZeroWidth)
    /\ ucdToCharacterWidth (trieValue cb cwZeroWidth) = CharacterWidth_int cwZeroWidth
    /\ forall cp, firstCp_of c <= cp <= lastCp_of c ->
         nth (Z.to_nat cp) values' 0 = trieValue cb cwZeroWidth.
Proof.
  intros Hgc. unfold processChar.
  destruct (classifyChar g c) as [e|[cb width]] eqn:Hcls; [discriminate|].
  destruct (fillRange_slice values (firstCp_of c) (lastCp_of c + 1) (trieValue cb width))
    as [v'|] eqn:Hfill; [|discriminate].
  intros [= <-].
  assert (Hw : width = cwZeroWidth).
  { unfold classifyChar, classifyRecord in Hcls.
    assert (Hb : String.prefix "M" (generalCategory_of g c)
                 || String.eqb (generalCategory_of g c) "Cf" = true).
    { destruct Hgc as [Hm|Hcf]; [rewrite Hm; reflexivity|].
      rewrite Hcf. apply orb_true_r. }
    rewrite Hb in Hcls.
    repeat match type of Hcls with
           | context [match ?x with _ => _ end] => destruct x; try discriminate Hcls
           end;
      injection Hcls as _ <-; reflexivity. }
  subst width. exists cb. split; [reflexivity|]. split.
  - destruct cb; reflexivity.
  - intros cp Hcp. eapply fillRange_slice_inside; [exact Hfill|lia].
Qed.

Lemma processChar_mark_is_zero_width_witness :
  (String.prefix "M" (generalCategory_of (sampleGroup []) wideFormat) = true
   \/ generalCategory_of (sampleGroup []) wideFormat = "Cf"%string)
  /\ eastAsian_of (sampleGroup []) wideFormat = "F"%string
  /\ processChar (sampleGroup []) [65; 65; 65; 65; 65] wideFormat
     = Returned [65; 65; 65; 1; 65]
  /\ exists cb,
       classifyChar (sampleGroup []) wideFormat = inr (cb, cwZeroWidth)
       /\ ucdToCharacterWidth (trieValue cb cwZeroWidth)
          = CharacterWidth_int cwZeroWidth
       /\ forall cp, firstCp_of wideFormat <= cp <= lastCp_of wideFormat ->
            nth (Z.to_nat cp) [65; 65; 65; 1; 65] 0 = trieValue cb cwZeroWidth.
Proof.
  split; [right; reflexivity|]. split; [reflexivity|].
  split; [vm_compute; reflexivity|].
  apply (processChar_mark_is_zero_width (sampleGroup []) wideFormat [65; 65; 65; 65; 65]);
    [right; reflexivity | vm_compute; reflexivity].
Defined.

(** ** The chunk loop keeps its slices in shape *)

Lemma chunksOf_fuel_spec (chunkSize : Z) :
  1 <= chunkSize ->
  forall fuel l,
    (length l <= fuel)%nat ->
    concat (chunksOf_fuel fuel chunkSize l) = l
    /\ Forall (fun chunk => chunk <> []) (chunksOf_fuel fuel chunkSize l).
Proof.
  intros Hcs. induction fuel as [|fuel IH]; intros l Hl.
  - destruct l; [simpl; auto | simpl in Hl; lia].
  - destruct l as [|x l]; [simpl; auto|].
    cbn [chunksOf_fuel].
    destruct (Z.to_nat chunkSize) as [|k] eqn:Hk; [lia|].
    destruct (IH (skipn (S k) (x :: l))) as [Hc Hne].
    { rewrite length_skipn. simpl in *. lia. }
    split.
    + cbn [concat]. rewrite Hc. apply firstn_skipn.
    + constructor; [simpl; discriminate | exact Hne].
Qed.

Lemma chunksOf_spec (chunkSize : Z) (l : list Z) :
  1 <= chunkSize ->
  concat (chunksOf chunkSize l) = l
  /\ Forall (fun chunk => chunk <> []) (chunksOf chunkSize l).
Proof. intros H. apply chunksOf_fuel_spec; [exact H|lia]. Qed.

Lemma concat_nonempty_length (chunks : list (list Z)) :
  Forall (fun chunk => chunk <> []) chunks ->
  (length chunks <= length (concat chunks))%nat.
Proof.
  induction 1 as [|chunk chunks Hne _ IH]; simpl; [lia|].
  rewrite length_app. destruct chunk; [contradiction|simpl; lia].
Qed.

Lemma placeChunk_length (cache : Cache) (compressed chunk : list Z) :
  let '(_, compressed', _) := placeChunk cache compressed chunk in
  (length compressed <= length compressed'
   /\ length compressed' <= length compressed + length chunk)%nat.
Proof.
  unfold placeChunk.
  destruct (cache_get (rawBytes chunk) cache); [lia|].
  destruct (negb (findExisting compressed chunk =? -1)); [lia|].
  rewrite length_app, length_skipn. lia.
Qed.

Lemma placeChunk_first (chunk : list Z) :
  placeChunk [] [] chunk
  = (cache_set (rawBytes chunk) 0 [], chunk, 0).
Proof.
  unfold placeChunk. simpl.
  replace (measureOverlap [] chunk) with 0%nat.
  2: { unfold measureOverlap. simpl. destruct chunk; reflexivity. }
  simpl. rewrite Z.sub_diag. reflexivity.
Qed.

Lemma compressChunks_length (chunks : list (list Z)) :
  forall cache compressed,
    let '(c, offsets) := compressChunks chunks cache compressed in
    length offsets = length chunks
    /\ (length compressed <= length c
        /\ length c <= length compressed + length (concat chunks))%nat.
Proof.
  induction chunks as [|chunk chunks IH]; intros cache compressed; simpl.
  - lia.
  - pose proof (placeChunk_length cache compressed chunk) as Hp.
    destruct (placeChunk cache compressed chunk) as [[cache' compressed'] offset].
    specialize (IH cache' compressed').
    destruct (compressChunks chunks cache' compressed') as [c offsets].
    simpl. rewrite length_app. lia.
Qed.

(** A stage built from a non-empty slice is non-empty and no longer than
    its input, and so is the slice of offsets it hands to the next stage. *)
Lemma compressStage_shape (uncompressed : list Z) (shift : Z) :
  validShift shift = true ->
  uncompressed <> [] ->
  let '(compressed, offsets) := compressStage uncompressed shift in
  compressed <> [] /\ offsets <> []
  /\ (length compressed <= length uncompressed)%nat
  /\ (length offsets <= length uncompressed)%nat.
Proof.
  intros Hv Hne. unfold compressStage.
  unfold validShift in Hv. apply andb_true_iff in Hv as [H0 H63].
  apply Z.leb_le in H0. apply Z.ltb_lt in H63.
  assert (Hcs : 1 <= Z.shiftl 1 shift).
  { rewrite Z.shiftl_1_l. pose proof (Z.pow_pos_nonneg 2 shift). lia. }
  destruct (chunksOf_spec (Z.shiftl 1 shift) uncompressed Hcs) as [Hcat Hall].
  pose proof (concat_nonempty_length _ Hall) as Hcount.
  destruct (chunksOf (Z.shiftl 1 shift) uncompressed) as [|chunk chunks] eqn:Hchunks.
  { simpl in Hcat. congruence. }
  cbn [compressChunks]. rewrite placeChunk_first.
  pose proof (compressChunks_length chunks (cache_set (rawBytes chunk) 0 []) chunk) as Hl.
  destruct (compressChunks chunks (cache_set (rawBytes chunk) 0 []) chunk) as [c offsets].
  assert (Hchunk : chunk <> []) by (inversion Hall; assumption).
  rewrite <- Hcat. simpl in *. rewrite length_app in *.
  destruct chunk as [|x chunk]; [contradiction|].
  destruct c as [|y c]; [simpl in Hl; lia|].
  repeat split; try discriminate; simpl in *; lia.
Qed.

(** ** [buildTrie] returns, and its size is bounded *)

Lemma buildStages_shape (bound : nat) (shifts : list Z) :
  forall uncompressed cumulativeShift stages,
    forallb validShift shifts = true ->
    uncompressed <> [] ->
    (length uncompressed <= bound)%nat ->
    Forall (stageOK bound) stages ->
    exists result,
      buildStages shifts uncompressed cumulativeShift stages = Some result
      /\ Forall (stageOK bound) result
      /\ length result = (length stages + length shifts + 1)%nat.
Proof.
  induction shifts as [|shift shifts IH];
    intros uncompressed cumulativeShift stages Hv Hne Hlen Hst; simpl.
  - eexists. split; [reflexivity|]. split.
    + apply Forall_app. split; [exact Hst|].
      constructor; [split; simpl; auto|constructor].
    + rewrite length_app. simpl. lia.
  - simpl in Hv. apply andb_true_iff in Hv as [Hv Hvs]. rewrite Hv.
    pose proof (compressStage_shape uncompressed shift Hv Hne) as Hshape.
    destruct (compressStage uncompressed shift) as [compressed offsets].
    destruct Hshape as (Hc & Ho & Hcl & Hol).
    destruct (IH offsets (cumulativeShift + shift)
                (stages ++ [ {| Values := compressed; Shift := cumulativeShift;
                                Mask := Z.shiftl 1 shift - 1; Bits := 0 |} ]))
      as (result & Hres & Hok & Hn); auto; try lia.
    { apply Forall_app. split; [exact Hst|].
      constructor; [split; simpl; auto; lia|constructor]. }
    exists result. split; [exact Hres|]. split; [exact Hok|].
    rewrite length_app in Hn. simpl in Hn. lia.
Qed.

Lemma bitsFor_bytes (m : Z) : 1 <= Z.quot (bitsFor m) 8 <= 4.
Proof.
  unfold bitsFor. destruct (m <=? 255); [vm_compute; split; discriminate|].
  destruct (m <=? 65535); vm_compute; split; discriminate.
Qed.

Lemma mapM_setBits_shape (bound : nat) (stages : list Stage) :
  Forall (stageOK bound) stages ->
  exists stages',
    mapM setBits stages = Some stages'
    /\ Forall (sizedOK bound) stages'
    /\ length stages' = length stages.
Proof.
  induction 1 as [|s stages [Hne Hlen] _ (stages' & Hm & Hok & Hn)]; simpl.
  - exists []. repeat split; constructor.
  - unfold setBits at 1. destruct (Values s) as [|x rest] eqn:Hvals; [contradiction|].
    simpl. rewrite Hm. simpl. eexists. split; [reflexivity|]. split.
    + constructor; [|exact Hok].
      split; [split; simpl; rewrite ?Hvals; [discriminate|exact Hlen]|].
      simpl. apply bitsFor_bytes.
    + simpl. lia.
Qed.

Lemma totalSizeOf_bound (bound : nat) (stages : list Stage) :
  Forall (sizedOK bound) stages ->
  Z.of_nat (length stages) <= totalSizeOf stages
  <= 4 * Z.of_nat bound * Z.of_nat (length stages).
Proof.
  unfold totalSizeOf.
  assert (Hgen : forall acc, Forall (sizedOK bound) stages ->
            acc + Z.of_nat (length stages)
            <= fold_left (fun totalSize s =>
                            totalSize + Z.quot (Bits s) 8 * Z.of_nat (length (Values s)))
                 stages acc
            <= acc + 4 * Z.of_nat bound * Z.of_nat (length stages)).
  { induction stages as [|s stages IH]; intros acc Hall; [simpl; lia|].
    inversion Hall as [|? ? [[Hne Hlen] Hb] Hrest]; subst.
    specialize (IH (acc + Z.quot (Bits s) 8 * Z.of_nat (length (Values s))) Hrest).
    assert (1 <= Z.of_nat (length (Values s)))
      by (destruct (Values s); [contradiction|simpl; lia]).
    assert (Z.quot (Bits s) 8 * Z.of_nat (length (Values s)) <= 4 * Z.of_nat bound) by nia.
    assert (1 <= Z.quot (Bits s) 8 * Z.of_nat (length (Values s))) by nia.
    cbn [fold_left length]. lia. }
  intros Hall. specialize (Hgen 0 Hall). lia.
Qed.

(** [buildTrie] returns on a non-empty slice and shift counts in [0, 62];
    the size it reports is the sum over its stages of element bytes times
    entry count, it is positive and at most four bytes per input element
    and stage. *)
Lemma buildTrie_returns (uncompressed : list Z) (shifts : list Z) :
  uncompressed <> [] ->
  forallb validShift shifts = true ->
  exists t,
    buildTrie uncompressed shifts = Some t
    /\ TotalSize t = totalSizeOf (Stages t)
    /\ length (Stages t) = (length shifts + 1)%nat
    /\ 0 < TotalSize t
       <= 4 * Z.of_nat (length uncompressed) * Z.of_nat (length shifts + 1).
Proof.
  intros Hne Hv. unfold buildTrie.
  destruct (buildStages_shape (length uncompressed) shifts uncompressed 0 [] Hv Hne
              (le_n _) (Forall_nil _)) as (stages & Hst & Hok & Hn).
  rewrite Hst. cbn [bind].
  destruct (mapM_setBits_shape (length uncompressed) (rev stages))
    as (stages' & Hm & Hsized & Hn').
  { apply Forall_rev. exact Hok. }
  rewrite Hm. cbn [bind]. eexists. split; [reflexivity|]. cbn [Stages TotalSize].
  rewrite length_rev in Hn'. simpl in Hn.
  pose proof (totalSizeOf_bound _ _ Hsized) as [Hpos Hle].
  rewrite Hn', Hn in Hpos, Hle.
  split; [reflexivity|]. split; [lia|]. lia.
Qed.

(** ** The search of [buildBestTrie] *)

Lemma wrap64_small (x : Z) : - 2 ^ 63 <= x < 2 ^ 63 -> wrap64 x = x.
Proof.
  intros H. unfold wrap64.
  rewrite Z.mod_small by lia. lia.
Qed.

Lemma itersLoop_pow (delta : Z) (n : nat) :
  1 <= delta ->
  forall iters,
    0 <= iters ->
    iters * delta ^ Z.of_nat n <= MaxInt ->
    itersLoop n delta iters = iters * delta ^ Z.of_nat n.
Proof.
  intros Hd. induction n as [|n IH]; intros iters H0 Hmax.
  - simpl. lia.
  - cbn [itersLoop].
    rewrite Nat2Z.inj_succ, Z.pow_succ_r in * by lia.
    assert (Hp : 1 <= delta ^ Z.of_nat n) by (apply Z.pow_le_mono_r with (b := 0); lia).
    unfold MaxInt in *.
    rewrite wrap64_small by nia.
    rewrite IH by nia. ring.
Qed.

Lemma shiftsFor_length (n : nat) (minShift delta i : Z) :
  length (shiftsFor n minShift delta i) = n.
Proof. revert i. induction n; intros i; simpl; auto. Qed.

Lemma shiftsFor_range (minShift maxShift : Z) (n : nat) :
  0 <= minShift -> minShift <= maxShift -> maxShift < 63 ->
  forall i, 0 <= i ->
    Forall (fun s => minShift <= s <= maxShift)
      (shiftsFor n minShift (maxShift - minShift + 1) i).
Proof.
  intros H0 Hle H63. induction n as [|n IH]; intros i Hi; simpl; constructor.
  - pose proof (Z.rem_bound_pos i (maxShift - minShift + 1) Hi ltac:(lia)).
    rewrite wrap64_small by lia. lia.
  - apply IH. apply Z.quot_pos; lia.
Qed.

(** Every tuple of shifts in range is the digit string of some index below
    [delta ^ n]. *)
Lemma shiftsFor_onto (minShift maxShift : Z) (shifts : list Z) :
  0 <= minShift -> minShift <= maxShift -> maxShift < 63 ->
  Forall (fun s => minShift <= s <= maxShift) shifts ->
  exists i,
    0 <= i < (maxShift - minShift + 1) ^ Z.of_nat (length shifts)
    /\ shiftsFor (length shifts) minShift (maxShift - minShift + 1) i = shifts.
Proof.
  intros H0 Hle H63. set (delta := maxShift - minShift + 1).
  induction 1 as [|s shifts Hs _ (i & Hi & IH)].
  - exists 0. simpl. split; [lia|reflexivity].
  - exists ((s - minShift) + i * delta). split.
    + cbn [length]. rewrite Nat2Z.inj_succ, Z.pow_succ_r by lia.
      subst delta. nia.
    + cbn [length shiftsFor].
      assert (Hnn : 0 <= s - minShift + i * delta) by (subst delta; nia).
      rewrite Z.rem_mod_nonneg by (subst delta; lia).
      rewrite Z.quot_div_nonneg by (subst delta; lia).
      rewrite Z.mod_add by (subst delta; lia).
      rewrite Z.div_add by (subst delta; lia).
      rewrite Z.mod_small by (subst delta; lia).
      rewrite Z.div_small by (subst delta; lia).
      rewrite wrap64_small by lia.
      f_equal; [lia|]. rewrite Z.add_0_l. exact IH.
Qed.

Lemma mapM_Some {A B : Type} (f : A -> option B) (l : list A) :
  (forall x, In x l -> exists y, f x = Some y) ->
  exists l', mapM f l = Some l'
             /\ (forall y, In y l' <-> exists x, In x l /\ f x = Some y).
Proof.
  induction l as [|a l IH]; intros Hall.
  - exists []. split; [reflexivity|]. intros y. simpl. split; [tauto|].
    intros (x & [] & _).
  - destruct (Hall a (or_introl eq_refl)) as [b Hb].
    destruct IH as (l' & Hm & Hin).
    { intros x Hx. apply Hall. right. exact Hx. }
    exists (b :: l'). split.
    + simpl. rewrite Hb. simpl. rewrite Hm. reflexivity.
    + intros y. simpl. rewrite Hin. split.
      * intros [<-|(x & Hx & Hfx)]; eauto.
      * intros (x & [<-|Hx] & Hfx); [left; congruence|right; eauto].
Qed.

Lemma fold_pickBest (tries : list Trie) :
  forall bestTrie,
    let r := fold_left pickBest tries bestTrie in
    (r = bestTrie \/ In r tries)
    /\ TotalSize r <= TotalSize bestTrie
    /\ forall t, In t tries -> TotalSize r <= TotalSize t.
Proof.
  induction tries as [|t tries IH]; intros bestTrie; simpl.
  - split; [auto|]. split; [lia|]. intros t [].
  - destruct (IH (pickBest bestTrie t)) as (Hin & Hle & Hall).
    assert (Hp : (pickBest bestTrie t = bestTrie \/ pickBest bestTrie t = t)
                 /\ TotalSize (pickBest bestTrie t) <= TotalSize bestTrie
                 /\ TotalSize (pickBest bestTrie t) <= TotalSize t).
    { unfold pickBest. destruct (Z.gtb_spec (TotalSize bestTrie) (TotalSize t));
        split; auto; lia. }
    destruct Hp as (Hcase & Hb & Ht).
    split; [|split].
    + destruct Hin as [Hin|Hin]; [|auto].
      rewrite Hin. destruct Hcase as [->| ->]; auto.
    + lia.
    + intros t' [<-|Hin']; [lia|auto].
Qed.

Lemma launched_In (minShift maxShift stages i : Z) :
  In i (launched minShift maxShift stages)
  <-> 0 <= i < itersFor (wrap64 (maxShift - minShift + 1)) stages.
Proof.
  unfold launched. rewrite in_map_iff. split.
  - intros (k & <- & Hk). apply in_seq in Hk. lia.
  - intros Hi. exists (Z.to_nat i). split; [lia|]. apply in_seq. lia.
Qed.

(** C7. For a non-empty slice, shift bounds [0 <= minShift <= maxShift <= 62]
    and a stage count of at least one, small enough for the number of
    candidates and the table sizes to fit in an [int], [buildBestTrie]
    returns, in whatever order the candidates arrive, the trie [buildTrie]
    makes of one of the tuples of [stages - 1] shifts from the range, and its
    total size (the sum over its stages of element bytes times entry count)
    is no larger than that of [buildTrie] on any such tuple. *)
Theorem buildBestTrie_minimal
    (arrival : list Z) (uncompressed : list Z) (minShift maxShift stages : Z) :
  uncompressed <> [] ->
  0 <= minShift -> minShift <= maxShift -> maxShift < 63 ->
  1 <= stages ->
  (maxShift - minShift + 1) ^ (stages - 1) <= MaxInt ->
  4 * Z.of_nat (length uncompressed) * stages < MaxInt ->
  Permutation arrival (launched minShift maxShift stages) ->
  exists best,
    buildBestTrie_arrival arrival uncompressed minShift maxShift stages = Some best
    /\ TotalSize best = totalSizeOf (Stages best)
    /\ (exists shifts,
          Z.of_nat (length shifts) = stages - 1
          /\ Forall (fun s => minShift <= s <= maxShift) shifts
          /\ buildTrie uncompressed shifts = Some best)
    /\ (forall shifts,
          Z.of_nat (length shifts) = stages - 1 ->
          Forall (fun s => minShift <= s <= maxShift) shifts ->
          exists t, buildTrie uncompressed shifts = Some t
                    /\ TotalSize best <= TotalSize t).
Proof.
  intros Hne H0 Hle H63 Hst Hiters Hsize Hperm.
  set (delta := maxShift - minShift + 1) in *.
  assert (Hd : 1 <= delta < 2 ^ 63) by (subst delta; lia).
  assert (Hw : wrap64 delta = delta) by (apply wrap64_small; lia).
  set (n := Z.to_nat (stages - 1)).
  assert (Hn : Z.of_nat n = stages - 1) by (subst n; lia).
  assert (Hit : itersFor delta stages = delta ^ (stages - 1)).
  { unfold itersFor. fold n. rewrite itersLoop_pow; rewrite ?Hn; lia. }
  assert (Hlaunched : forall i, In i arrival <-> 0 <= i < delta ^ (stages - 1)).
  { intros i.
    pose proof (launched_In minShift maxShift stages i) as HL.
    fold delta in HL. rewrite Hw, Hit in HL.
    split; intros Hin.
    - apply HL. eapply Permutation_in; eauto.
    - eapply Permutation_in; [apply Permutation_sym; exact Hperm|].
      apply HL. exact Hin. }
  assert (Hvalid : forall shifts,
             Forall (fun s => minShift <= s <= maxShift) shifts ->
             forallb validShift shifts = true).
  { intros shifts Hall. apply forallb_forall. intros s Hs.
    rewrite Forall_forall in Hall. specialize (Hall s Hs).
    unfold validShift. apply andb_true_iff. split; [apply Z.leb_le|apply Z.ltb_lt]; lia. }
  assert (Hcand : forall i, 0 <= i ->
             exists t, candidate uncompressed minShift delta stages i = Some t
                       /\ buildTrie uncompressed (shiftsFor n minShift delta i) = Some t
                       /\ TotalSize t = totalSizeOf (Stages t)
                       /\ TotalSize t < MaxInt).
  { intros i Hi. unfold candidate.
    destruct (Z.ltb_spec (stages - 1) 0) as [Hneg|_]; [lia|]. fold n.
    pose proof (shiftsFor_range minShift maxShift n H0 Hle H63 i Hi) as Hr.
    fold delta in Hr.
    destruct (buildTrie_returns uncompressed _ Hne (Hvalid _ Hr))
      as (t & Ht & Hsum & _ & Hb).
    rewrite shiftsFor_length in Hb.
    exists t. repeat split; auto.
    replace (Z.of_nat (n + 1)) with stages in Hb by lia. lia. }
  unfold buildBestTrie_arrival. fold delta. rewrite Hw.
  destruct (mapM_Some (candidate uncompressed minShift delta stages) arrival)
    as (tries & Hm & Htries).
  { intros i Hi. apply Hlaunched in Hi.
    destruct (Hcand i ltac:(lia)) as (t & Ht & _). eauto. }
  rewrite Hm. cbn [bind]. eexists. split; [reflexivity|].
  pose proof (fold_pickBest tries {| Stages := []; TotalSize := MaxInt |}) as Hfold.
  cbv zeta in Hfold.
  set (best := fold_left pickBest tries {| Stages := []; TotalSize := MaxInt |}) in *.
  destruct Hfold as (Hin & _ & Hmin).
  assert (H0in : In 0 arrival).
  { apply Hlaunched. split; [lia|]. apply Z.pow_pos_nonneg; lia. }
  assert (Hbest : In best tries).
  { destruct Hin as [Heq|Hin]; [|exact Hin].
    exfalso.
    destruct (Hcand 0 ltac:(lia)) as (t0 & Ht0 & _ & _ & Hlt).
    assert (Hin0 : In t0 tries) by (apply Htries; eauto).
    specialize (Hmin t0 Hin0). rewrite Heq in Hmin. simpl in Hmin. lia. }
  apply Htries in Hbest as (i & Hi & Hci).
  apply Hlaunched in Hi.
  destruct (Hcand i ltac:(lia)) as (t & Ht & Hbt & Hsum & _).
  assert (t = best) by congruence. subst t.
  split; [exact Hsum|]. split.
  - exists (shiftsFor n minShift delta i).
    rewrite shiftsFor_length. split; [exact Hn|]. split; [|exact Hbt].
    apply shiftsFor_range; lia.
  - intros shifts Hlen Hall.
    destruct (shiftsFor_onto minShift maxShift shifts H0 Hle H63 Hall) as (j & Hj & Hsj).
    fold delta in Hj, Hsj.
    assert (Hnl : length shifts = n) by lia.
    rewrite Hnl in Hsj. rewrite Hlen in Hj.
    destruct (Hcand j ltac:(lia)) as (t & Hcj & Hbt' & _).
    rewrite Hsj in Hbt'.
    exists t. split; [exact Hbt'|].
    apply Hmin. apply Htries. exists j. split; [|exact Hcj].
    apply Hlaunched. lia.
Qed.

(** ** Forward and backward scans *)

(** One test of a scan: state 1 is the state after a joined pair of
    Regional Indicators, and only a second pair is judged differently in
    it. *)
Lemma cutBetween_cases (paired : bool) (lead trail : Z) :
  exists st,
    ucdGraphemeJoins (if paired then 1 else 0) lead trail = Some st
    /\ ucdGraphemeDone st = cutBetween paired lead trail
    /\ (cutBetween paired lead trail = false ->
        st = if pairedAfter paired lead trail then 1 else 0).
Proof.
  unfold cutBetween, pairedAfter, breaksBetween.
  destruct (ucdGraphemeJoins_cases lead trail)
    as [(Hri & H0 & H1)|(Hri & H10 & H0)]; rewrite Hri.
  - destruct paired; [rewrite H1|rewrite H0]; eexists;
      (split; [reflexivity|]); (split; [reflexivity|]); intros H;
      [discriminate H|reflexivity].
  - assert (Hv : ucdGraphemeJoins (if paired then 1 else 0) lead trail
                 = ucdGraphemeJoins 0 lead trail) by (destruct paired; auto).
    rewrite Hv.
    destruct H0 as [H0|H0]; rewrite H0; eexists; (split; [reflexivity|]);
      (split; [reflexivity|]); intros Hb; [reflexivity|discriminate Hb].
Qed.

(** After a break the next cluster starts unpaired. *)
Lemma pairedAfter_cut (paired : bool) (lead trail : Z) :
  cutBetween paired lead trail = true -> pairedAfter paired lead trail = false.
Proof.
  unfold cutBetween, pairedAfter.
  destruct (isRI lead && isRI trail); [intros H; rewrite H|intros _]; reflexivity.
Qed.

Lemma joinForward_runLength (rest : Text) :
  forall (paired : bool) (lead : Z),
    joinForward (if paired then 1 else 0) lead rest
    = Some (runLength paired lead rest).
Proof.
  induction rest as [|trail rest IH]; intros paired lead; [reflexivity|].
  destruct (cutBetween_cases paired lead trail) as (st & Hj & Hdone & Hnext).
  cbn [joinForward runLength]. rewrite Hj. cbn [bind]. rewrite Hdone.
  destruct (cutBetween paired lead trail); [reflexivity|].
  rewrite (Hnext eq_refl), IH. reflexivity.
Qed.

Lemma joinBackward_runLengthBack (before : Text) :
  forall (paired : bool) (trail : Z),
    joinBackward (if paired then 1 else 0) trail before
    = Some (runLengthBack paired trail before).
Proof.
  induction before as [|lead before IH]; intros paired trail; [reflexivity|].
  destruct (cutBetween_cases paired lead trail) as (st & Hj & Hdone & Hnext).
  cbn [joinBackward runLengthBack]. rewrite Hj. cbn [bind]. rewrite Hdone.
  destruct (cutBetween paired lead trail); [reflexivity|].
  rewrite (Hnext eq_refl), IH. reflexivity.
Qed.

Lemma runLength_le (rest : Text) :
  forall (paired : bool) (lead : Z), (runLength paired lead rest <= length rest)%nat.
Proof.
  induction rest as [|t rest IH]; intros paired lead; simpl; [lia|].
  destruct (cutBetween paired lead t); [lia|].
  specialize (IH (pairedAfter paired lead t) t). lia.
Qed.

Lemma runLengthBack_le (before : Text) :
  forall (paired : bool) (trail : Z),
    (runLengthBack paired trail before <= length before)%nat.
Proof.
  induction before as [|l before IH]; intros paired trail; simpl; [lia|].
  destruct (cutBetween paired l trail); [lia|].
  specialize (IH (pairedAfter paired l trail) l). lia.
Qed.

(** The first break after [lead] is where its cluster ends, and the scan of
    the next cluster starts unpaired. *)
Lemma cuts_runLength (rest : Text) :
  forall (paired : bool) (lead : Z) (pos : nat),
    match skipn (runLength paired lead rest) rest with
    | [] => cuts paired lead rest pos = []
    | lead' :: rest' =>
        cuts paired lead rest pos
        = (pos + runLength paired lead rest)%nat
            :: cuts false lead' rest' (S (pos + runLength paired lead rest))
    end.
Proof.
  induction rest as [|t rest IH]; intros paired lead pos; [reflexivity|].
  cbn [runLength cuts].
  destruct (cutBetween paired lead t) eqn:Hcut.
  - cbn [skipn app]. rewrite Nat.add_0_r, (pairedAfter_cut _ _ _ Hcut). reflexivity.
  - cbn [skipn app]. specialize (IH (pairedAfter paired lead t) t (S pos)).
    destruct (skipn (runLength (pairedAfter paired lead t) t rest) rest)
      as [|lead' rest'].
    + exact IH.
    + rewrite IH.
      replace (pos + S (runLength (pairedAfter paired lead t) t rest))%nat
        with (S pos + runLength (pairedAfter paired lead t) t rest)%nat by lia.
      reflexivity.
Qed.

Lemma cutsBack_runLengthBack (before : Text) :
  forall (paired : bool) (trail : Z),
    match skipn (runLengthBack paired trail before) before with
    | [] => cutsBack paired trail before = []
    | trail' :: before' =>
        cutsBack paired trail before
        = S (length before') :: cutsBack false trail' before'
    end.
Proof.
  induction before as [|l before IH]; intros paired trail; [reflexivity|].
  cbn [runLengthBack cutsBack].
  destruct (cutBetween paired l trail) eqn:Hcut.
  - cbn [skipn app]. rewrite (pairedAfter_cut _ _ _ Hcut). reflexivity.
  - cbn [skipn app]. apply IH.
Qed.

Lemma scanForward_cuts (text : Text) (fuel : nat) :
  forall beg lead rest,
    skipn beg text = lead :: rest ->
    (length rest < fuel)%nat ->
    scanForward fuel text beg = Some (cuts false lead rest (S beg) ++ [length text]).
Proof.
  induction fuel as [|fuel IH]; intros beg lead rest Hskip Hfuel; [lia|].
  assert (Hlen : length text = (beg + S (length rest))%nat).
  { rewrite <- (firstn_skipn beg text) at 1. rewrite length_app, Hskip.
    assert (beg < length text)%nat.
    { destruct (Nat.lt_ge_cases beg (length text)) as [|Hge]; [assumption|].
      rewrite skipn_all2 in Hskip by exact Hge. discriminate. }
    rewrite length_firstn. simpl. lia. }
  cbn [scanForward].
  destruct (Nat.ltb_spec beg (length text)) as [_|Hge]; [|lia].
  unfold GraphemeNext. rewrite Hskip.
  rewrite (joinForward_runLength rest false lead).
  cbn [bind fst].
  pose proof (cuts_runLength rest false lead (S beg)) as Hcuts.
  pose proof (runLength_le rest false lead) as Hle.
  set (n := runLength false lead rest) in *.
  assert (Hnext : skipn (beg + S n) text = skipn n rest).
  { rewrite Nat.add_comm, <- skipn_skipn, Hskip. reflexivity. }
  destruct (skipn n rest) as [|lead' rest'] eqn:Hrest.
  - assert (n = length rest).
    { apply (f_equal (@length Z)) in Hrest. rewrite length_skipn in Hrest.
      simpl in Hrest. lia. }
    rewrite Hcuts. cbn [app].
    replace (beg + S n)%nat with (length text) by lia.
    destruct fuel; cbn [scanForward]; rewrite Nat.ltb_irrefl; reflexivity.
  - assert (Hl' : (length rest' < fuel)%nat).
    { apply (f_equal (@length Z)) in Hrest. rewrite length_skipn in Hrest.
      simpl in Hrest. lia. }
    rewrite (IH (beg + S n)%nat lead' rest' Hnext Hl').
    cbn [bind]. rewrite Hcuts.
    replace (S beg + n)%nat with (beg + S n)%nat by lia. reflexivity.
Qed.

Lemma rev_firstn_shorter (text : Text) (end_ k : nat) (p : Text) :
  rev (firstn end_ text) = p ->
  (k <= length p)%nat ->
  rev (firstn (length p - k) text) = skipn k p.
Proof.
  intros Hp Hk. subst p. rewrite length_rev in *.
  rewrite skipn_rev, length_firstn.
  rewrite firstn_firstn. f_equal. f_equal. rewrite length_firstn in Hk. lia.
Qed.

Lemma scanBackward_cutsBack (text : Text) (fuel : nat) :
  forall end_ trail before,
    rev (firstn end_ text) = trail :: before ->
    (length before < fuel)%nat ->
    scanBackward fuel text end_ = Some (cutsBack false trail before ++ [O]).
Proof.
  induction fuel as [|fuel IH]; intros end_ trail before Hrev Hfuel; [lia|].
  assert (Hpos : (0 < end_)%nat).
  { destruct end_; [simpl in Hrev; discriminate|lia]. }
  cbn [scanBackward].
  destruct (Nat.ltb_spec 0 end_) as [_|Hge]; [|lia].
  unfold GraphemePrev. rewrite Hrev.
  rewrite (joinBackward_runLengthBack before false trail).
  cbn [bind fst].
  pose proof (cutsBack_runLengthBack before false trail) as Hcuts.
  pose proof (runLengthBack_le before false trail) as Hle.
  set (n := runLengthBack false trail before) in *.
  assert (Hnext : rev (firstn (length before - n) text) = skipn n before).
  { pose proof (rev_firstn_shorter text end_ (S n) (trail :: before) Hrev) as H.
    cbn [length skipn] in H. rewrite <- H by lia. do 2 f_equal. }
  destruct (skipn n before) as [|trail' before'] eqn:Hrest.
  - assert (n = length before).
    { apply (f_equal (@length Z)) in Hrest. rewrite length_skipn in Hrest.
      simpl in Hrest. lia. }
    rewrite Hcuts. cbn [app].
    replace (length before - n)%nat with O by lia.
    destruct fuel; reflexivity.
  - assert (Hl' : (length before' < fuel)%nat).
    { apply (f_equal (@length Z)) in Hrest. rewrite length_skipn in Hrest.
      simpl in Hrest. lia. }
    assert (Hend : (length before - n)%nat = S (length before')).
    { apply (f_equal (@length Z)) in Hrest. rewrite length_skipn in Hrest.
      simpl in Hrest. lia. }
    rewrite (IH (length before - n)%nat trail' before' Hnext Hl').
    cbn [bind]. rewrite Hcuts, Hend. reflexivity.
Qed.

(** *** Breaks as flags *)

Lemma posOf_app (l1 l2 : list bool) :
  forall pos, posOf (l1 ++ l2) pos = posOf l1 pos ++ posOf l2 (pos + length l1)%nat.
Proof.
  induction l1 as [|f l1 IH]; intros pos; cbn [app posOf length].
  - rewrite Nat.add_0_r. reflexivity.
  - rewrite IH, <- app_assoc. do 3 f_equal. lia.
Qed.

Lemma posOf_S (l : list bool) : forall pos, map S (posOf l pos) = posOf l (S pos).
Proof.
  induction l as [|f l IH]; intros pos; [reflexivity|].
  cbn [posOf]. rewrite map_app, IH. destruct f; reflexivity.
Qed.

Lemma posOf_ge (l : list bool) : forall pos, Forall (fun p => (pos <= p)%nat) (posOf l pos).
Proof.
  induction l as [|f l IH]; intros pos; cbn [posOf]; [constructor|].
  apply Forall_app. split.
  - destruct f; repeat constructor.
  - eapply Forall_impl; [|apply IH]. cbn. intros. lia.
Qed.

Lemma posOf_inj (l1 : list bool) :
  forall l2 pos, length l1 = length l2 -> posOf l1 pos = posOf l2 pos -> l1 = l2.
Proof.
  induction l1 as [|f1 l1 IH]; intros [|f2 l2] pos Hlen H; try discriminate Hlen;
    [reflexivity|].
  cbn [posOf] in H. injection Hlen as Hlen.
  pose proof (posOf_ge l1 (S pos)) as H1.
  pose proof (posOf_ge l2 (S pos)) as H2.
  destruct f1, f2; cbn [app] in H.
  - injection H as H. f_equal. eapply IH; eauto.
  - exfalso. rewrite <- H in H2. inversion H2; lia.
  - exfalso. rewrite H in H1. inversion H1; lia.
  - f_equal. eapply IH; eauto.
Qed.

Lemma flagsLeft_length (rest : Text) :
  forall run lead, length (flagsLeft run lead rest) = length rest.
Proof. induction rest; intros; cbn [flagsLeft length]; [|rewrite IHrest]; reflexivity. Qed.

Lemma flagsRight_length (rest : Text) :
  forall lead, length (flagsRight lead rest) = length rest.
Proof. induction rest; intros; cbn [flagsRight length]; [|rewrite IHrest]; reflexivity. Qed.

(** The forward scan is paired at a Regional Indicator exactly when an even
    number of them ends there. *)
Lemma cuts_flagsLeft (rest : Text) :
  forall (paired : bool) (run : nat) (lead : Z) (pos : nat),
    paired = isRI lead && Nat.even run ->
    (isRI lead = false -> run = O) ->
    cuts paired lead rest pos = posOf (flagsLeft run lead rest) pos.
Proof.
  induction rest as [|trail rest IH]; intros paired run lead pos Hp Hrun; [reflexivity|].
  cbn [cuts flagsLeft posOf].
  assert (Hflag : cutBetween paired lead trail
                  = if isRI lead && isRI trail then Nat.even run
                    else breaksBetween lead trail).
  { unfold cutBetween. rewrite Hp.
    destruct (isRI lead), (isRI trail); reflexivity. }
  rewrite Hflag. f_equal. apply IH.
  - unfold pairedAfter. rewrite Hp.
    destruct (isRI lead) eqn:Hl; destruct (isRI trail); cbn [andb negb];
      try reflexivity.
    + rewrite Nat.even_succ, <- Nat.negb_even. reflexivity.
    + rewrite (Hrun eq_refl). reflexivity.
  - intros Ht. rewrite Ht. reflexivity.
Qed.

Lemma farEnd_snoc (before : Text) :
  forall trail x, farEnd trail (before ++ [x]) = x.
Proof. induction before as [|l before IH]; intros trail x; [reflexivity|apply IH]. Qed.

Lemma pairedEnd_snoc (before : Text) :
  forall (paired : bool) (trail x : Z),
    pairedEnd paired trail (before ++ [x])
    = pairedAfter (pairedEnd paired trail before) x (farEnd trail before).
Proof.
  induction before as [|l before IH]; intros paired trail x; [reflexivity|].
  cbn [app pairedEnd farEnd]. apply IH.
Qed.

Lemma cutsBack_snoc (before : Text) :
  forall (paired : bool) (trail x : Z),
    cutsBack paired trail (before ++ [x])
    = map S (cutsBack paired trail before)
      ++ (if cutBetween (pairedEnd paired trail before) x (farEnd trail before)
          then [1%nat] else []).
Proof.
  induction before as [|l before IH]; intros paired trail x.
  - cbn. rewrite app_nil_r. reflexivity.
  - cbn [app cutsBack pairedEnd farEnd]. rewrite IH, map_app, <- app_assoc.
    f_equal.
    destruct (cutBetween paired l trail); cbn [map]; [|reflexivity].
    cbn [length]. rewrite length_app. cbn [length].
    do 2 f_equal. lia.
Qed.

Lemma rev_cons_cases (h : Z) (rest : Text) (trail : Z) (before : Text) :
  rev (h :: rest) = trail :: before ->
  (rest = [] /\ trail = h /\ before = [])
  \/ (exists h' rest' before',
        rest = h' :: rest' /\ rev rest = trail :: before' /\ before = before' ++ [h]).
Proof.
  destruct rest as [|h' rest'].
  - cbn. intros [= <- <-]. left. auto.
  - intros H. right.
    change (rev (h :: h' :: rest')) with (rev (h' :: rest') ++ [h]) in H.
    destruct (rev (h' :: rest')) as [|t b'] eqn:Hr.
    + apply (f_equal (@length Z)) in Hr. rewrite length_rev in Hr. discriminate Hr.
    + cbn [app] in H. injection H as <- <-.
      exists h', rest', b'. auto.
Qed.

Lemma farEnd_rev (rest : Text) :
  forall h trail before, rev (h :: rest) = trail :: before -> farEnd trail before = h.
Proof.
  intros h trail before H.
  destruct (rev_cons_cases _ _ _ _ H) as [(_ & -> & ->)|(h' & rest' & b' & _ & _ & ->)].
  - reflexivity.
  - apply farEnd_snoc.
Qed.

(** The backward scan is paired at a Regional Indicator exactly when an
    even number of them starts there. *)
Lemma pairedEnd_riLen (rest : Text) :
  forall h trail before,
    rev (h :: rest) = trail :: before ->
    pairedEnd false trail before = isRI h && Nat.even (riLen (h :: rest)).
Proof.
  induction rest as [|h' rest IH]; intros h trail before H.
  - cbn in H. injection H as <- <-. cbn. destruct (isRI h); reflexivity.
  - destruct (rev_cons_cases _ _ _ _ H) as [(Hn & _)|(h2 & r2 & b' & Heq & Hr & ->)];
      [discriminate Hn|].
    injection Heq as <- <-.
    rewrite pairedEnd_snoc, (farEnd_rev _ _ _ _ Hr), (IH _ _ _ Hr).
    unfold pairedAfter. cbn [riLen].
    destruct (isRI h); [|reflexivity]. destruct (isRI h'); [|reflexivity].
    cbn [andb]. rewrite (Nat.even_succ (S (riLen rest))), <- Nat.negb_even.
    reflexivity.
Qed.

Lemma cutsBack_flagsRight (rest : Text) :
  forall lead trail before,
    rev (lead :: rest) = trail :: before ->
    rev (cutsBack false trail before) = posOf (flagsRight lead rest) 1.
Proof.
  induction rest as [|h rest IH]; intros lead trail before H.
  - cbn in H. injection H as <- <-. reflexivity.
  - destruct (rev_cons_cases _ _ _ _ H) as [(Hn & _)|(h2 & r2 & b' & Heq & Hr & ->)];
      [discriminate Hn|].
    injection Heq as <- <-.
    rewrite cutsBack_snoc, rev_app_distr, <- map_rev, (IH _ _ _ Hr), posOf_S.
    rewrite (farEnd_rev _ _ _ _ Hr), (pairedEnd_riLen _ _ _ _ Hr).
    cbn [flagsRight posOf]. f_equal.
    unfold cutBetween.
    destruct (isRI lead); destruct (isRI h) eqn:Hh; cbn [andb];
      try (destruct (breaksBetween lead h); reflexivity).
    destruct (Nat.even (riLen (h :: rest))); reflexivity.
Qed.

(** *** Where the two scans agree *)

Lemma noOddRIRun_from_run (text : Text) :
  forall run,
    runAgrees (run + riLen text) = false -> noOddRIRun_from run text = false.
Proof.
  induction text as [|a text IH]; intros run H; cbn [noOddRIRun_from riLen] in *.
  - rewrite Nat.add_0_r in H. exact H.
  - destruct (isRI a).
    + apply IH. rewrite <- H. f_equal. lia.
    + rewrite Nat.add_0_r in H. rewrite H. reflexivity.
Qed.

Lemma flags_agree_iff (rest : Text) :
  forall (run : nat) (lead : Z),
    (isRI lead = true -> (1 <= run)%nat) ->
    (isRI lead = false -> run = O) ->
    (run <= 1)%nat \/ Nat.even (run + riLen rest) = true ->
    (flagsLeft run lead rest = flagsRight lead rest
     <-> noOddRIRun_from run rest = true).
Proof.
  induction rest as [|trail rest IH]; intros run lead Hri Hnri Hrun.
  - cbn. unfold runAgrees. rewrite Nat.add_0_r in Hrun. split; [intros _|reflexivity].
    destruct Hrun as [Hle|Hev].
    + destruct (Nat.ltb_spec run 3); [reflexivity|lia].
    + rewrite Hev. apply orb_true_r.
  - cbn [flagsLeft flagsRight noOddRIRun_from riLen] in *.
    destruct (isRI trail) eqn:Ht.
    + destruct (isRI lead) eqn:Hl; cbn [andb].
      * specialize (Hri eq_refl).
        destruct (Bool.eqb (Nat.even run) (Nat.even (S (riLen rest)))) eqn:Hpar.
        -- apply eqb_prop in Hpar. rewrite <- Hpar.
           assert (Hev : Nat.even (S run + riLen rest) = true).
           { replace (S run + riLen rest)%nat with (run + S (riLen rest))%nat by lia.
             rewrite Nat.even_add, Hpar. apply eqb_reflx. }
           rewrite <- (IH (S run) trail); [| intros _; lia | congruence | right; exact Hev].
           split; [intros [= H]; exact H|intros ->; reflexivity].
        -- assert (Hodd : Nat.even (S run + riLen rest) = false).
           { replace (S run + riLen rest)%nat with (run + S (riLen rest))%nat by lia.
             rewrite Nat.even_add. exact Hpar. }
           rewrite (noOddRIRun_from_run rest (S run)).
           2:{ unfold runAgrees. rewrite Hodd.
               destruct (Nat.ltb_spec (S run + riLen rest) 3) as [Hlt|]; [|reflexivity].
               exfalso. assert (run = 1%nat /\ riLen rest = O) as [-> Hz] by lia.
               rewrite Hz in Hodd. discriminate Hodd. }
           split; [|discriminate]. intros [= H _]. rewrite H in Hpar.
           rewrite eqb_reflx in Hpar. discriminate Hpar.
      * rewrite (Hnri eq_refl).
        rewrite <- (IH 1%nat trail); [| intros _; lia | congruence | left; lia].
        split; [intros [= H]; exact H|intros ->; reflexivity].
    + rewrite andb_false_r.
      assert (Hok : runAgrees run = true).
      { unfold runAgrees. rewrite Nat.add_0_r in Hrun. destruct Hrun as [Hle|Hev].
        - destruct (Nat.ltb_spec run 3); [reflexivity|lia].
        - rewrite Hev. apply orb_true_r. }
      rewrite Hok. cbn [andb].
      rewrite <- (IH O trail); [| congruence | reflexivity | left; lia].
      split; [intros [= H]; exact H|intros ->; reflexivity].
Qed.

(** C2, amended. Both scans return on every text, and the boundary offsets
    the successive [GraphemeNext] calls find are those the successive
    [GraphemePrev] calls find, reversed, exactly when no maximal run of
    consecutive Regional Indicators in the text has an odd length of three
    or more. *)
Theorem scans_agree_iff_no_odd_RI_run (text : Text) :
  exists forward backward,
    boundariesForward text = Some forward
    /\ boundariesBackward text = Some backward
    /\ (forward = backward <-> noOddRIRun text = true).
Proof.
  unfold boundariesForward, boundariesBackward.
  destruct text as [|lead rest] eqn:Htext.
  - exists [O], [O]. split; [reflexivity|]. split; [reflexivity|].
    split; reflexivity.
  - rewrite <- Htext in *.
    destruct (rev text) as [|trail before] eqn:Hrev.
    { apply (f_equal (@length Z)) in Hrev. rewrite length_rev, Htext in Hrev.
      discriminate. }
    rewrite (scanForward_cuts text (length text) O lead rest).
    2: { rewrite Htext. reflexivity. }
    2: { rewrite Htext. simpl. lia. }
    rewrite (scanBackward_cutsBack text (length text) (length text) trail before).
    2: { rewrite firstn_all. exact Hrev. }
    2: { apply (f_equal (@length Z)) in Hrev. rewrite length_rev in Hrev.
         simpl in Hrev. lia. }
    cbn [bind]. eexists. eexists. split; [reflexivity|]. split; [reflexivity|].
    cbn [rev]. rewrite rev_app_distr. cbn [rev app].
    rewrite Htext in Hrev.
    rewrite (cutsBack_flagsRight rest lead trail before Hrev).
    rewrite (cuts_flagsLeft rest false (if isRI lead then 1%nat else O) lead 1).
    2: { destruct (isRI lead); reflexivity. }
    2: { intros ->. reflexivity. }
    assert (Hcrit : noOddRIRun text
                    = noOddRIRun_from (if isRI lead then 1%nat else O) rest).
    { rewrite Htext. unfold noOddRIRun. cbn [noOddRIRun_from].
      destruct (isRI lead); reflexivity. }
    rewrite Hcrit.
    rewrite <- (flags_agree_iff rest (if isRI lead then 1%nat else O) lead).
    2: { intros ->. lia. }
    2: { intros ->. reflexivity. }
    2: { left. destruct (isRI lead); lia. }
    split.
    + intros H. injection H as H. apply app_inv_tail in H.
      eapply posOf_inj; [|exact H].
      rewrite flagsLeft_length, flagsRight_length. reflexivity.
    + intros ->. reflexivity.
Qed.

Lemma buildBestTrie_minimal_witness :
  let uncompressed := [1; 2; 3; 4; 1; 2; 3; 4] in
  Permutation [1; 0; 2; 3] (launched 1 2 3)
  /\ exists best,
       buildBestTrie_arrival [1; 0; 2; 3] uncompressed 1 2 3 = Some best
       /\ TotalSize best = totalSizeOf (Stages best)
       /\ (exists shifts,
             Z.of_nat (length shifts) = 3 - 1
             /\ Forall (fun s => 1 <= s <= 2) shifts
             /\ buildTrie uncompressed shifts = Some best)
       /\ (forall shifts,
             Z.of_nat (length shifts) = 3 - 1 ->
             Forall (fun s => 1 <= s <= 2) shifts ->
             exists t, buildTrie uncompressed shifts = Some t
                       /\ TotalSize best <= TotalSize t).
Proof.
  assert (Hperm : Permutation [1; 0; 2; 3] (launched 1 2 3))
    by (change (launched 1 2 3) with [0; 1; 2; 3]; apply perm_swap).
  split; [exact Hperm|].
  apply (buildBestTrie_minimal [1; 0; 2; 3] [1; 2; 3; 4; 1; 2; 3; 4] 1 2 3);
    try discriminate; try exact Hperm; try lia;
    vm_compute; first [reflexivity | discriminate].
Defined.

(** C1 fails on the code.  On 1,114,112 classification bytes and the shifts
    2, 2, 2 the second stage looks for the chunk of offsets 256, 512, 768,
    1024 among the offsets 0, 1, 2, 3, 4, ... it has stored; their bytes
    match at byte offset 3, [findExisting] returns 0, and the trie sends code
    point 1040 to the value 192 where the dense array holds 13.  The sanity
    check of [run] stops at that code point. *)
Theorem buildTrie_loses_code_point :
  Z.of_nat (length misalignedValues) = codepointCount
  /\ forallb isClassification misalignedValues = true
  /\ nth 1040 misalignedValues 0 = 13
  /\ (t <- buildTrie misalignedValues [2; 2; 2] ;;
      Some (trieLookup t 1040, sanityCheck t misalignedValues))
     = Some (Some 192, Some (Some 1040)).
Proof. vm_compute. repeat split; reflexivity. Qed.

(** ** Further properties: classification bytes and the packed table *)

(** X1. The classification byte of a category and a width fits in a byte,
    its two top bits are the width as [ucdToCharacterWidth] extracts it, and
    its low four bits are the category as [ucdGraphemeJoins] masks it. *)
Theorem trieValue_fields (cb : ClusterBreak) (width : CharacterWidth) :
  0 <= trieValue cb width < 256
  /\ ucdToCharacterWidth (trieValue cb width) = CharacterWidth_int width
  /\ Z.land (trieValue cb width) 15 = ClusterBreak_int cb.
Proof. destruct cb, width; vm_compute; repeat split; congruence. Qed.

(** X2. Through the masks and the packed rows, [ucdGraphemeJoins] returns
    for the classification bytes of two categories, whatever their widths,
    the entry [JoinRules] holds for those categories in either state. *)
Theorem ucdGraphemeJoins_reads_JoinRules
    (lead trail : ClusterBreak) (w1 w2 : CharacterWidth) :
  ucdGraphemeJoins 0 (trieValue lead w1) (trieValue trail w2) = JoinRules_at 0 lead trail
  /\ ucdGraphemeJoins 1 (trieValue lead w1) (trieValue trail w2) = JoinRules_at 1 lead trail.
Proof. destruct lead, trail, w1, w2; vm_compute; split; reflexivity. Qed.

Lemma lor_disjoint (acc b n : Z) :
  0 <= n -> 0 <= acc < 2 ^ n -> Z.lor acc (b * 2 ^ n) = acc + b * 2 ^ n.
Proof.
  intros Hn Hacc.
  assert (Hland : Z.land acc (b * 2 ^ n) = 0).
  { apply Z.bits_inj'. intros m Hm.
    rewrite Z.land_spec, Z.bits_0.
    destruct (Z.lt_ge_cases m n) as [Hlt|Hge].
    - rewrite (Z.mul_pow2_bits_low b n m Hlt). apply andb_false_r.
    - rewrite <- (Z.mod_small acc (2 ^ n)) by lia.
      rewrite Z.mod_pow2_bits_high by lia. reflexivity. }
  rewrite <- Z.lxor_lor by exact Hland.
  symmetry. apply Z.add_nocarry_lxor. exact Hland.
Qed.

Lemma pow4 (t : Z) : 0 <= t -> 2 ^ (t * 2) = 4 ^ t.
Proof. intros Ht. rewrite Z.mul_comm, Z.pow_mul_r by lia. reflexivity. Qed.

Lemma rowValue_bound (row : list Z) :
  Forall (fun v => 0 <= v <= Ω) row ->
  0 <= rowValue row < 4 ^ Z.of_nat (length row).
Proof.
  unfold Ω. induction 1 as [|v row Hv _ IH]; [simpl; lia|].
  cbn [rowValue fold_right length]. fold (rowValue row).
  rewrite Nat2Z.inj_succ, Z.pow_succ_r by lia. lia.
Qed.

Lemma packRow_spec (row : list Z) :
  forall trail nextIndices,
    Forall (fun v => 0 <= v <= Ω) row ->
    0 <= trail -> trail + Z.of_nat (length row) <= 16 ->
    0 <= nextIndices < 4 ^ trail ->
    packRow row trail nextIndices = Some (nextIndices + 4 ^ trail * rowValue row).
Proof.
  induction row as [|v row IH]; intros trail acc Hall Ht Hlen Hacc.
  - simpl. f_equal. lia.
  - inversion Hall as [|? ? Hv Hrow]; subst. unfold Ω in Hv.
    cbn [packRow rowValue fold_right length] in *. fold (rowValue row).
    destruct (Z.ltb_spec Ω v) as [Hbad|_]; [unfold Ω in Hbad; lia|].
    assert (Hp : 0 < 4 ^ trail) by (apply Z.pow_pos_nonneg; lia).
    assert (Hp15 : 4 ^ trail <= 4 ^ 15) by (apply Z.pow_le_mono_r; lia).
    assert (Hu : to_uint32 v = v) by (unfold to_uint32; apply Z.mod_small; lia).
    rewrite Hu, Z.shiftl_mul_pow2, pow4 by lia.
    assert (Hs : to_uint32 (v * 4 ^ trail) = v * 4 ^ trail).
    { unfold to_uint32. apply Z.mod_small. change (2 ^ 32) with (4 * 4 ^ 15). nia. }
    rewrite Hs. rewrite <- (pow4 trail) at 1 by lia.
    rewrite lor_disjoint by (rewrite ?pow4; lia).
    rewrite pow4 by lia.
    assert (Hsucc : 4 ^ (trail + 1) = 4 * 4 ^ trail)
      by (rewrite Z.pow_add_r by lia; lia).
    rewrite IH; try assumption; try lia.
    + f_equal. rewrite Hsucc. ring.
    + rewrite Hsucc. nia.
Qed.

Lemma packRow_Some_fits (row : list Z) :
  forall trail nextIndices packed,
    packRow row trail nextIndices = Some packed -> Forall (fun v => v <= Ω) row.
Proof.
  induction row as [|v row IH]; intros trail acc packed H; [constructor|].
  cbn [packRow] in H. destruct (Z.ltb_spec Ω v) as [|Hle]; [discriminate|].
  constructor; [exact Hle|]. eapply IH. exact H.
Qed.

Lemma rowValue_digit (t : nat) :
  forall row,
    Forall (fun v => 0 <= v <= Ω) row ->
    Z.land (Z.shiftr (rowValue row) (Z.of_nat t * bits_Len8 Ω)) Ω = nth t row 0.
Proof.
  change (bits_Len8 Ω) with 2. change Ω with (Z.ones 2).
  induction t as [|t IH]; intros row Hall.
  - rewrite Z.land_ones by lia. simpl (Z.of_nat 0 * 2). rewrite Z.shiftr_0_r.
    destruct row as [|v row]; [reflexivity|].
    inversion Hall as [|? ? Hv _]; subst. change (Z.ones 2) with 3 in Hv.
    cbn [rowValue fold_right nth]. fold (rowValue row).
    change (2 ^ 2) with 4.
    replace (v + 4 * rowValue row) with (v + rowValue row * 4) by lia.
    rewrite Z.mod_add by lia. apply Z.mod_small. lia.
  - destruct row as [|v row].
    + cbn [rowValue fold_right nth]. rewrite Z.shiftr_0_l. reflexivity.
    + inversion Hall as [|? ? Hv Hrow]; subst. change (Z.ones 2) with 3 in Hv.
      cbn [rowValue fold_right nth]. fold (rowValue row).
      rewrite <- (IH row Hrow).
      rewrite !Z.shiftr_div_pow2 by lia.
      replace (Z.of_nat (S t) * 2) with (2 + Z.of_nat t * 2) by lia.
      rewrite Z.pow_add_r by lia. rewrite <- Z.div_div by lia.
      change (2 ^ 2) with 4.
      replace ((v + 4 * rowValue row) / 4) with (rowValue row); [reflexivity|].
      replace (v + 4 * rowValue row) with (v + rowValue row * 4) by lia.
      rewrite Z.div_add by lia. rewrite (Z.div_small v 4) by lia. lia.
Qed.

Lemma slice_set_spec {A : Type} (s : list A) :
  forall i v,
    (i < length s)%nat ->
    exists s', slice_set s i v = Some s'
               /\ length s' = length s
               /\ forall j d, nth j s' d = if (j =? i)%nat then v else nth j s d.
Proof.
  induction s as [|x s IH]; intros i v Hi; [simpl in Hi; lia|].
  destruct i as [|i].
  - exists (v :: s). split; [reflexivity|]. split; [reflexivity|].
    intros [|j] d; reflexivity.
  - destruct (IH i v) as (s' & Hs & Hl & Hn); [simpl in Hi; lia|].
    exists (x :: s'). cbn [slice_set]. rewrite Hs. split; [reflexivity|].
    split; [simpl; lia|].
    intros [|j] d; [reflexivity|]. cbn [nth]. rewrite Hn. reflexivity.
Qed.

Lemma slice_set_None {A : Type} (s : list A) :
  forall i v, slice_set s i v = None -> (length s <= i)%nat.
Proof.
  induction s as [|x s IH]; intros i v H; [simpl; lia|].
  destruct i as [|i]; [discriminate|].
  cbn [slice_set] in H. destruct (slice_set s i v) eqn:Hs; [discriminate|].
  apply IH in Hs. simpl. lia.
Qed.

Lemma packTable_spec (table : list (list Z)) :
  forall lead packed,
    length packed = 16%nat ->
    (lead + length table <= 16)%nat ->
    Forall (fun row => (length row <= 16)%nat /\ Forall (fun v => 0 <= v <= Ω) row) table ->
    exists packed',
      packTable table lead packed = Some packed'
      /\ length packed' = 16%nat
      /\ forall i,
           nth i packed' 0
           = if ((lead <=? i) && (i <? lead + length table))%nat
             then rowValue (nth (i - lead) table [])
             else nth i packed 0.
Proof.
  induction table as [|row table IH]; intros lead packed Hlen Hfit Hall.
  - exists packed. split; [reflexivity|]. split; [exact Hlen|].
    intros i. simpl. rewrite Nat.add_0_r.
    destruct (Nat.leb_spec lead i), (Nat.ltb_spec i lead); try lia; reflexivity.
  - inversion Hall as [|? ? [Hrl Hrow] Htable]; subst.
    cbn [packTable length] in *.
    destruct (Nat.ltb_spec 16 (length row)) as [|_]; [lia|].
    rewrite (packRow_spec row 0 0 Hrow) by lia.
    cbn [bind]. rewrite Z.pow_0_r, Z.add_0_l, Z.mul_1_l.
    destruct (slice_set_spec packed lead (rowValue row)) as (p1 & Hset & Hl1 & Hn1);
      [lia|].
    rewrite Hset. cbn [bind].
    destruct (IH (S lead) p1) as (p2 & Hp2 & Hl2 & Hn2); try lia; try assumption.
    exists p2. split; [exact Hp2|]. split; [exact Hl2|].
    intros i. rewrite Hn2, Hn1.
    destruct (Nat.leb_spec (S lead) i), (Nat.ltb_spec i (S lead + length table)),
      (Nat.leb_spec lead i), (Nat.ltb_spec i (lead + S (length table))),
      (Nat.eqb_spec i lead); cbn [andb]; try lia; try reflexivity.
    + replace (i - lead)%nat with (S (i - S lead)) by lia. reflexivity.
    + subst i. rewrite Nat.sub_diag. reflexivity.
Qed.

Lemma slice_set_Some_lt {A : Type} (s : list A) (i : nat) (v : A) (s' : list A) :
  slice_set s i v = Some s' -> (i < length s)%nat /\ length s' = length s.
Proof.
  intros H.
  destruct (Nat.lt_ge_cases i (length s)) as [Hlt|Hge].
  - destruct (slice_set_spec s i v Hlt) as (s'' & Hs & Hl & _).
    rewrite H in Hs. injection Hs as <-. auto.
  - exfalso. revert i s' H Hge. induction s as [|x s IH]; intros i s' H Hge.
    + destruct i; discriminate H.
    + destruct i as [|i]; [simpl in Hge; lia|].
      cbn [slice_set] in H. destruct (slice_set s i v) eqn:Hs; [|discriminate].
      eapply IH; [exact Hs|]. simpl in Hge. lia.
Qed.

Lemma packTable_Some_fits (table : list (list Z)) :
  forall lead packed packed',
    length packed = 16%nat ->
    packTable table lead packed = Some packed' ->
    (table = [] \/ (lead + length table <= 16)%nat) /\ Forall rowFits table.
Proof.
  induction table as [|row table IH]; intros lead packed packed' Hlen H.
  - split; [left; reflexivity|constructor].
  - cbn [packTable] in H.
    destruct (Nat.ltb_spec 16 (length row)) as [|Hrow]; [discriminate|].
    destruct (packRow row 0 0) as [nextIndices|] eqn:Hpack; [|discriminate].
    cbn [bind] in H.
    destruct (slice_set packed lead nextIndices) as [p1|] eqn:Hset; [|discriminate].
    cbn [bind] in H.
    apply slice_set_Some_lt in Hset as [Hlt Hl1].
    destruct (IH (S lead) p1 packed' ltac:(lia) H) as [Hcount Hfits].
    split.
    + right. cbn [length]. destruct Hcount as [->|Hc]; simpl; lia.
    + constructor; [|exact Hfits].
      split; [exact Hrow|]. eapply packRow_Some_fits. exact Hpack.
Qed.

Lemma mapM_Forall2 {A B : Type} (f : A -> option B) (l : list A) :
  forall l', mapM f l = Some l' -> Forall2 (fun x y => f x = Some y) l l'.
Proof.
  induction l as [|a l IH]; intros l' H.
  - injection H as <-. constructor.
  - cbn [mapM] in H. destruct (f a) as [b|] eqn:Hb; [|discriminate].
    cbn [bind] in H. destruct (mapM f l) as [bs|] eqn:Hm; [|discriminate].
    injection H as <-. constructor; auto.
Qed.

Lemma tableVerdict_s_joinRules (state l t : Z) :
  s_joinRules_verdict state l t = tableVerdict s_joinRules state l t.
Proof. reflexivity. Qed.

(** X3. [prepareRulesTable] returns exactly when every table has at most 16
    rows, every row at most 16 entries and no entry exceeds [Ω]; it then
    gives each state 16 packed rows, from which the emitted lookup
    expression reads back every entry of the source table, and 0 where the
    source table has no entry. *)
Theorem prepareRulesTable_roundtrip (rules : list (list (list Z))) :
  Forall (Forall (Forall (fun v => 0 <= v))) rules ->
  ((exists packed, prepareRulesTable rules = Some packed) <-> Forall tableFits rules)
  /\ forall packed,
       prepareRulesTable rules = Some packed ->
       length packed = length rules
       /\ Forall (fun rows => length rows = 16%nat) packed
       /\ forall state lead trail : nat,
            (state < length rules)%nat -> (lead < 16)%nat -> (trail < 16)%nat ->
            tableVerdict packed (Z.of_nat state) (Z.of_nat lead) (Z.of_nat trail)
            = Some (rulesEntry rules state lead trail).
Proof.
  intros Hnonneg.
  assert (Hone : forall table,
             Forall (Forall (fun v => 0 <= v)) table ->
             tableFits table ->
             exists rows,
               packTable table 0 (repeat 0 16) = Some rows
               /\ length rows = 16%nat
               /\ forall lead trail : nat,
                    (lead < 16)%nat -> (trail < 16)%nat ->
                    Z.land (Z.shiftr (nth lead rows 0) (Z.of_nat trail * bits_Len8 Ω)) Ω
                    = nth trail (nth lead table []) 0).
  { intros table Hnn [Hcount Hfits].
    assert (Hall : Forall (fun row => (length row <= 16)%nat
                                      /\ Forall (fun v => 0 <= v <= Ω) row) table).
    { rewrite Forall_forall in *. intros row Hin.
      destruct (Hfits row Hin) as [Hl Hle]. split; [exact Hl|].
      specialize (Hnn row Hin). rewrite Forall_forall in *.
      intros v Hv. split; auto. }
    destruct (packTable_spec table 0 (repeat 0 16) eq_refl ltac:(simpl; lia) Hall)
      as (rows & Hp & Hl & Hn).
    exists rows. split; [exact Hp|]. split; [exact Hl|].
    intros lead trail Hlead Htrail. rewrite Hn.
    cbn [Nat.leb andb]. rewrite Nat.sub_0_r, Nat.add_0_l.
    destruct (Nat.ltb_spec lead (length table)) as [Hin|Hout].
    - apply rowValue_digit.
      rewrite Forall_forall in Hall. apply Hall. apply nth_In. exact Hin.
    - rewrite (nth_overflow table) by lia.
      rewrite nth_repeat.
      rewrite Z.shiftr_0_l, Z.land_0_l. destruct trail; reflexivity. }
  split.
  - split.
    + intros [packed Hp]. unfold prepareRulesTable in Hp.
      apply mapM_Forall2 in Hp.
      induction Hp as [|table rows rules' packed' Hrow _ IH]; [constructor|].
      inversion Hnonneg; subst.
      constructor; [|apply IH; assumption].
      destruct (packTable_Some_fits table 0 (repeat 0 16) rows eq_refl Hrow)
        as [[->|Hc] Hf]; split; simpl in *; auto; lia.
    + intros Hfit. unfold prepareRulesTable.
      induction Hfit as [|table rules' Ht _ IH]; [exists []; reflexivity|].
      inversion Hnonneg as [|? ? Hnn Hrest]; subst.
      destruct (Hone table Hnn Ht) as (rows & Hp & _).
      destruct (IH Hrest) as [packed' Hp'].
      exists (rows :: packed'). cbn [mapM]. rewrite Hp. cbn [bind].
      rewrite Hp'. reflexivity.
  - intros packed Hp.
    assert (Hfit : Forall tableFits rules).
    { unfold prepareRulesTable in Hp. apply mapM_Forall2 in Hp.
      clear Hone. induction Hp as [|table rows rules' packed' Hrow _ IH]; [constructor|].
      inversion Hnonneg; subst.
      constructor; [|apply IH; assumption].
      destruct (packTable_Some_fits table 0 (repeat 0 16) rows eq_refl Hrow)
        as [[->|Hc] Hf]; split; simpl in *; auto; lia. }
    unfold prepareRulesTable in Hp. apply mapM_Forall2 in Hp.
    assert (Hrows : forall state table rows,
               nth_error rules state = Some table ->
               nth_error packed state = Some rows ->
               packTable table 0 (repeat 0 16) = Some rows).
    { clear Hone Hfit Hnonneg.
      induction Hp as [|table rows rules' packed' Hrow _ IH];
        intros state t r Ht Hr; [destruct state; discriminate|].
      destruct state as [|state]; simpl in Ht, Hr.
      - injection Ht as <-. injection Hr as <-. exact Hrow.
      - eapply IH; eauto. }
    assert (Hlen : length packed = length rules)
      by (symmetry; eapply Forall2_length; exact Hp).
    split; [exact Hlen|]. split.
    + apply Forall_forall. intros rows Hin.
      apply In_nth_error in Hin as [state Hstate].
      assert (Hlt : (state < length rules)%nat).
      { rewrite <- Hlen. apply nth_error_Some. congruence. }
      destruct (nth_error rules state) as [table|] eqn:Htable.
      2: { apply nth_error_None in Htable. lia. }
      specialize (Hrows state table rows Htable Hstate).
      rewrite Forall_forall in Hfit, Hnonneg.
      pose proof (nth_error_In _ _ Htable) as HinT.
      destruct (Hone table (Hnonneg _ HinT) (Hfit _ HinT)) as (rows' & Hp' & Hl' & _).
      congruence.
    + intros state lead trail Hstate Hlead Htrail.
      destruct (nth_error rules state) as [table|] eqn:Htable.
      2: { apply nth_error_None in Htable. lia. }
      destruct (nth_error packed state) as [rows|] eqn:Hpacked.
      2: { apply nth_error_None in Hpacked. lia. }
      specialize (Hrows state table rows Htable Hpacked).
      rewrite Forall_forall in Hfit, Hnonneg.
      pose proof (nth_error_In _ _ Htable) as HinT.
      destruct (Hone table (Hnonneg _ HinT) (Hfit _ HinT))
        as (rows' & Hp' & Hl' & Hdigits).
      assert (rows' = rows) by congruence. subst rows'.
      unfold tableVerdict.
      destruct (Z.ltb_spec (Z.of_nat state) 0) as [|_]; [lia|].
      rewrite !Nat2Z.id, Hpacked. cbn [bind].
      destruct (nth_error rows lead) as [row|] eqn:Hrow.
      2: { apply nth_error_None in Hrow. lia. }
      cbn [bind]. f_equal.
      rewrite <- (nth_error_nth _ _ 0 Hrow). rewrite Hdigits by assumption.
      unfold rulesEntry. rewrite (nth_error_nth _ _ [] Htable). reflexivity.
Qed.

Lemma prepareRulesTable_roundtrip_witness :
  Forall (Forall (Forall (fun v => 0 <= v))) JoinRules
  /\ ((exists packed, prepareRulesTable JoinRules = Some packed)
      <-> Forall tableFits JoinRules).
Proof.
  assert (H : Forall (Forall (Forall (fun v => 0 <= v))) JoinRules)
    by (repeat constructor; vm_compute; discriminate).
  split; [exact H|].
  exact (proj1 (prepareRulesTable_roundtrip JoinRules H)).
Defined.

(** ** Further properties: the two chunk searches *)

Lemma slices_Equal_eq (a b : list Z) : slices_Equal a b = true <-> a = b.
Proof.
  revert b. induction a as [|x a IH]; intros [|y b]; simpl;
    try (split; [discriminate|discriminate]); [split; reflexivity|].
  rewrite andb_true_iff, Z.eqb_eq, IH. split.
  - intros [-> ->]. reflexivity.
  - intros [= -> ->]. auto.
Qed.

Lemma measureOverlap_from_spec (lenPrev : nat) (prev next : list Z) (overlap : nat) :
  let r := measureOverlap_from overlap lenPrev prev next in
  lenPrev = length prev ->
  (r <= overlap)%nat
  /\ skipn (lenPrev - r) prev = firstn r next
  /\ forall j, (r < j <= overlap)%nat -> skipn (lenPrev - j) prev <> firstn j next.
Proof.
  intros r Hlen. subst r.
  induction overlap as [|overlap IH]; cbn [measureOverlap_from].
  - assert (H0 : skipn (lenPrev - 0) prev = firstn 0 next).
    { rewrite Nat.sub_0_r, Hlen, skipn_all. reflexivity. }
    destruct (slices_Equal _ _); (split; [lia|]); (split; [exact H0|]); intros j Hj; lia.
  - destruct (slices_Equal (skipn (lenPrev - S overlap) prev) (firstn (S overlap) next))
      eqn:Heq.
    + apply slices_Equal_eq in Heq. split; [lia|]. split; [exact Heq|].
      intros j Hj. lia.
    + destruct IH as (Hle & Hov & Hmax). split; [lia|]. split; [exact Hov|].
      intros j Hj. destruct (Nat.eq_dec j (S overlap)) as [->|Hne].
      * intros Habs. apply slices_Equal_eq in Habs. congruence.
      * apply Hmax. lia.
Qed.

Lemma measureOverlap_correct (prev next : list Z) :
  (measureOverlap prev next <= length prev)%nat
  /\ (measureOverlap prev next <= length next)%nat
  /\ skipn (length prev - measureOverlap prev next) prev
     = firstn (measureOverlap prev next) next
  /\ forall j,
       (measureOverlap prev next < j)%nat ->
       (j <= length prev)%nat -> (j <= length next)%nat ->
       skipn (length prev - j) prev <> firstn j next.
Proof.
  unfold measureOverlap.
  destruct (measureOverlap_from_spec (length prev) prev next
              (Nat.min (length prev) (length next)) eq_refl) as (Hle & Hov & Hmax).
  split; [lia|]. split; [lia|]. split; [exact Hov|].
  intros j Hj Hp Hn. apply Hmax. lia.
Qed.

(** X4. [measureOverlap] returns a length [k] no larger than either slice
    such that the last [k] elements of [prev] are the first [k] elements of
    [next], and no larger common length within the two slices has that
    property. *)
Theorem measureOverlap_spec (prev next : list Z) :
  (measureOverlap prev next <= length prev)%nat
  /\ (measureOverlap prev next <= length next)%nat
  /\ skipn (length prev - measureOverlap prev next) prev
     = firstn (measureOverlap prev next) next
  /\ forall j,
       (measureOverlap prev next < j)%nat ->
       (j <= length prev)%nat -> (j <= length next)%nat ->
       skipn (length prev - j) prev <> firstn j next.
Proof. exact (measureOverlap_correct prev next). Qed.

(** *** [bytes.Index] *)

Lemma bytes_HasPrefix_spec (prefix : list Z) :
  forall s, bytes_HasPrefix s prefix = true <-> firstn (length prefix) s = prefix.
Proof.
  induction prefix as [|b prefix IH]; intros s; [destruct s; simpl; split; reflexivity|].
  destruct s as [|a s]; cbn [bytes_HasPrefix length firstn].
  - split; discriminate.
  - rewrite andb_true_iff, Z.eqb_eq, IH. split.
    + intros [-> ->]. reflexivity.
    + intros [= -> ->]. auto.
Qed.

Lemma bytes_Index_spec (sep : list Z) :
  forall s,
    (bytes_Index s sep = -1
     /\ forall i : nat, bytes_HasPrefix (skipn i s) sep = false)
    \/ (0 <= bytes_Index s sep <= Z.of_nat (length s)
        /\ bytes_HasPrefix (skipn (Z.to_nat (bytes_Index s sep)) s) sep = true
        /\ forall i : nat, Z.of_nat i < bytes_Index s sep ->
             bytes_HasPrefix (skipn i s) sep = false).
Proof.
  induction s as [|a s IH]; cbn [bytes_Index].
  - destruct (bytes_HasPrefix [] sep) eqn:H0.
    + right. simpl. split; [lia|]. split; [exact H0|]. intros i Hi. lia.
    + left. split; [reflexivity|]. intros i. rewrite skipn_nil. exact H0.
  - destruct (bytes_HasPrefix (a :: s) sep) eqn:H0.
    + right. cbn [length]. split; [lia|]. split; [exact H0|]. intros i Hi. lia.
    + destruct IH as [[Hm Hall]|(Hr & Hp & Hmin)].
      * left. rewrite Hm. split; [reflexivity|].
        intros [|i]; [exact H0|]. apply Hall.
      * right. destruct (Z.ltb_spec (bytes_Index s sep) 0) as [|_]; [lia|].
        cbn [length]. split; [lia|]. split.
        -- replace (Z.to_nat (bytes_Index s sep + 1))
             with (S (Z.to_nat (bytes_Index s sep))) by lia.
           exact Hp.
        -- intros [|i] Hi; [exact H0|]. apply Hmin. lia.
Qed.

Lemma findExisting_loop_fuel (fuel : nat) (h n : list Z) :
  findExisting_loop (2 + fuel) h n 0
  = Some (if bytes_Index h n =? -1 then -1
          else if Z.rem (bytes_Index h n) 4 =? 0 then Z.quot (bytes_Index h n) 4
          else 0).
Proof.
  cbn [Nat.add findExisting_loop]. change (Z.to_nat 0) with O. cbn [skipn].
  destruct (Z.eqb_spec (bytes_Index h n) (-1)) as [|Hne]; [reflexivity|].
  destruct (Z.rem (bytes_Index h n) 4 =? 0); [reflexivity|].
  destruct (bytes_Index_spec n h) as [[Hm _]|(_ & Hp & _)]; [contradiction|].
  assert (H0 : bytes_Index (skipn (Z.to_nat (bytes_Index h n)) h) n = 0).
  { destruct (skipn (Z.to_nat (bytes_Index h n)) h); cbn [bytes_Index]; rewrite Hp;
      reflexivity. }
  rewrite H0. reflexivity.
Qed.

(** X5. The loop of [findExisting] ends within two iterations whatever the
    slices are, and its result has a closed form: -1 when the needle's bytes
    do not occur in the haystack's bytes, the element index of the first
    byte match when that match starts on a 4-byte boundary, and 0 when it
    does not. *)
Theorem findExisting_loop_closed_form (fuel : nat) (h n : list Z) :
  findExisting_loop (2 + fuel) h n 0
  = Some (if bytes_Index h n =? -1 then -1
          else if Z.rem (bytes_Index h n) 4 =? 0 then Z.quot (bytes_Index h n) 4
          else 0).
Proof. exact (findExisting_loop_fuel fuel h n). Qed.

Lemma findExisting_closed_form (haystack needle : list Z) :
  haystack <> [] -> needle <> [] ->
  findExisting haystack needle
  = let p := bytes_Index (rawBytes haystack) (rawBytes needle) in
    if p =? -1 then -1 else if Z.rem p 4 =? 0 then Z.quot p 4 else 0.
Proof.
  intros Hh Hn. unfold findExisting.
  destruct haystack as [|x haystack]; [contradiction|].
  destruct needle as [|y needle]; [contradiction|].
  rewrite (findExisting_loop_fuel 0). reflexivity.
Qed.

(** *** Words and their bytes *)

Lemma cons_eq_inv {A : Type} (a b : A) (l l' : list A) :
  a :: l = b :: l' -> a = b /\ l = l'.
Proof. intros H. injection H as -> ->. split; reflexivity. Qed.

Lemma wordBytes_inj (w w' : Z) :
  isUint32 w -> isUint32 w' -> wordBytes w = wordBytes w' -> w = w'.
Proof.
  unfold isUint32, wordBytes. intros Hw Hw' H.
  apply cons_eq_inv in H as [H0 H]. apply cons_eq_inv in H as [H1 H].
  apply cons_eq_inv in H as [H2 H]. apply cons_eq_inv in H as [H3 _].
  change 255 with (Z.ones 8) in *.
  rewrite !Z.land_ones in * by lia.
  rewrite !Z.shiftr_div_pow2 in * by lia.
  change (2 ^ 32) with 4294967296 in *.
  change (2 ^ 8) with 256 in *. change (2 ^ 16) with 65536 in *.
  change (2 ^ 24) with 16777216 in *.
  Z.div_mod_to_equations. lia.
Qed.

Lemma rawBytes_length (s : list Z) : length (rawBytes s) = (4 * length s)%nat.
Proof. induction s as [|w s IH]; simpl; [reflexivity|]. rewrite IH. lia. Qed.

Lemma rawBytes_skipn (i : nat) :
  forall s, skipn (4 * i) (rawBytes s) = rawBytes (skipn i s).
Proof.
  induction i as [|i IH]; intros s; [reflexivity|].
  destruct s as [|w s]; [reflexivity|].
  replace (4 * S i)%nat with (4 + 4 * i)%nat by lia.
  cbn [skipn rawBytes flat_map wordBytes app Nat.add]. apply IH.
Qed.

Lemma rawBytes_prefix (needle : list Z) :
  forall s,
    Forall isUint32 needle -> Forall isUint32 s ->
    (bytes_HasPrefix (rawBytes s) (rawBytes needle) = true
     <-> firstn (length needle) s = needle).
Proof.
  induction needle as [|y needle IH]; intros s Hn Hs;
    [destruct s as [|x s]; simpl; split; reflexivity|].
  destruct s as [|x s].
  - simpl. split; discriminate.
  - inversion Hn as [|? ? Hy Hn']; subst. inversion Hs as [|? ? Hx Hs']; subst.
    cbn [rawBytes flat_map length firstn]. fold (rawBytes s). fold (rawBytes needle).
    split.
    + intros H. apply bytes_HasPrefix_spec in H.
      rewrite length_app in H. change (length (wordBytes y)) with 4%nat in H.
      change (wordBytes x ++ rawBytes s)
        with (Z.land x 255 :: Z.land (Z.shiftr x 8) 255 :: Z.land (Z.shiftr x 16) 255
                :: Z.land (Z.shiftr x 24) 255 :: rawBytes s) in H.
      cbn [Nat.add firstn] in H.
      change (wordBytes y ++ rawBytes needle)
        with (Z.land y 255 :: Z.land (Z.shiftr y 8) 255 :: Z.land (Z.shiftr y 16) 255
                :: Z.land (Z.shiftr y 24) 255 :: rawBytes needle) in H.
      apply cons_eq_inv in H as [H0 H]. apply cons_eq_inv in H as [H1 H].
      apply cons_eq_inv in H as [H2 H]. apply cons_eq_inv in H as [H3 Hrest].
      assert (x = y).
      { apply wordBytes_inj; auto. unfold wordBytes. congruence. }
      subst y. f_equal. apply IH; auto.
      apply bytes_HasPrefix_spec. exact Hrest.
    + intros [= -> Hrest]. apply IH in Hrest; auto.
      apply bytes_HasPrefix_spec. apply bytes_HasPrefix_spec in Hrest.
      rewrite length_app. change (length (wordBytes y)) with 4%nat.
      change (wordBytes y ++ rawBytes s)
        with (Z.land y 255 :: Z.land (Z.shiftr y 8) 255 :: Z.land (Z.shiftr y 16) 255
                :: Z.land (Z.shiftr y 24) 255 :: rawBytes s).
      cbn [Nat.add firstn]. rewrite Hrest. reflexivity.
Qed.

Lemma Forall_skipn {A : Type} (P : A -> Prop) (n : nat) (l : list A) :
  Forall P l -> Forall P (skipn n l).
Proof.
  intros H. rewrite <- (firstn_skipn n l) in H. apply Forall_app in H. tauto.
Qed.

(** X6. On slices of 32-bit values, a positive result of [findExisting] is
    the index of a genuine occurrence of the needle, the first one; the
    result -1 means the needle occurs nowhere; and the result is never
    below -1 nor beyond the haystack. *)
Theorem findExisting_sound_when_positive (haystack needle : list Z) :
  Forall isUint32 haystack -> Forall isUint32 needle ->
  needle <> [] ->
  -1 <= findExisting haystack needle <= Z.of_nat (length haystack)
  /\ (0 < findExisting haystack needle ->
        firstn (length needle) (skipn (Z.to_nat (findExisting haystack needle)) haystack)
        = needle
        /\ forall i : nat,
             Z.of_nat i < findExisting haystack needle ->
             firstn (length needle) (skipn i haystack) <> needle)
  /\ (findExisting haystack needle = -1 ->
        forall i : nat, firstn (length needle) (skipn i haystack) <> needle).
Proof.
  intros Hh Hn Hne.
  destruct haystack as [|x hs] eqn:Hhs.
  { unfold findExisting. split; [simpl; lia|]. split; [lia|].
    intros _ i. rewrite skipn_nil.
    destruct needle; [contradiction|]. rewrite firstn_nil. discriminate. }
  rewrite <- Hhs in *. assert (Hnil : haystack <> []) by (rewrite Hhs; discriminate).
  clear Hhs x hs.
  rewrite (findExisting_closed_form haystack needle Hnil Hne). cbv zeta.
  set (p := bytes_Index (rawBytes haystack) (rawBytes needle)).
  assert (Hocc : forall i : nat,
             bytes_HasPrefix (skipn (4 * i) (rawBytes haystack)) (rawBytes needle) = true
             <-> firstn (length needle) (skipn i haystack) = needle).
  { intros i. rewrite rawBytes_skipn. apply rawBytes_prefix; auto.
    apply Forall_skipn. exact Hh. }
  destruct (bytes_Index_spec (rawBytes needle) (rawBytes haystack))
    as [[Hm Hall]|(Hr & Hp & Hmin)]; fold p in Hm || fold p in Hr, Hp, Hmin.
  - rewrite Hm. rewrite Z.eqb_refl. split; [lia|]. split; [lia|].
    intros _ i Habs. apply Hocc in Habs. rewrite Hall in Habs. discriminate.
  - rewrite rawBytes_length in Hr.
    destruct (Z.eqb_spec p (-1)) as [|_]; [lia|].
    destruct (Z.eqb_spec (Z.rem p 4) 0) as [Hal|Hmis].
    + rewrite Z.rem_mod_nonneg in Hal by lia.
      rewrite Z.quot_div_nonneg by lia.
      assert (Hp4 : p = 4 * (p / 4)) by (Z.div_mod_to_equations; lia).
      assert (Hq : 0 <= p / 4 <= Z.of_nat (length haystack)).
      { rewrite Nat2Z.inj_mul in Hr. change (Z.of_nat 4) with 4 in Hr.
        clear Hal Hp Hmin Hocc. Z.div_mod_to_equations. lia. }
      split; [lia|]. split; [|lia].
      intros Hpos. split.
      * apply Hocc. replace (4 * Z.to_nat (p / 4))%nat with (Z.to_nat p) by lia.
        exact Hp.
      * intros i Hi Habs. apply Hocc in Habs.
        rewrite Hmin in Habs by lia. discriminate.
    + split; [lia|]. split; [lia|]. intros Habs. discriminate.
Qed.

Lemma findExisting_sound_when_positive_witness :
  Forall isUint32 [5; 6; 7; 8] /\ Forall isUint32 [7; 8] /\ [7; 8] <> []
  /\ findExisting [5; 6; 7; 8] [7; 8] = 2
  /\ -1 <= findExisting [5; 6; 7; 8] [7; 8] <= Z.of_nat (length [5; 6; 7; 8])
  /\ (0 < findExisting [5; 6; 7; 8] [7; 8] ->
        firstn (length [7; 8])
          (skipn (Z.to_nat (findExisting [5; 6; 7; 8] [7; 8])) [5; 6; 7; 8])
        = [7; 8]
        /\ forall i : nat,
             Z.of_nat i < findExisting [5; 6; 7; 8] [7; 8] ->
             firstn (length [7; 8]) (skipn i [5; 6; 7; 8]) <> [7; 8])
  /\ (findExisting [5; 6; 7; 8] [7; 8] = -1 ->
        forall i : nat, firstn (length [7; 8]) (skipn i [5; 6; 7; 8]) <> [7; 8]).
Proof.
  assert (H1 : Forall isUint32 [5; 6; 7; 8])
    by (repeat (apply Forall_cons; [split; [lia|reflexivity]|]); apply Forall_nil).
  assert (H2 : Forall isUint32 [7; 8])
    by (repeat (apply Forall_cons; [split; [lia|reflexivity]|]); apply Forall_nil).
  assert (H3 : [7; 8] <> []) by discriminate.
  split; [exact H1|]. split; [exact H2|]. split; [exact H3|].
  split; [reflexivity|].
  exact (findExisting_sound_when_positive [5; 6; 7; 8] [7; 8] H1 H2 H3).
Defined.

(** ** Further properties: the shape of a built trie *)

Lemma buildStages_valid (shifts : list Z) :
  forall uncompressed cumulativeShift stages result,
    buildStages shifts uncompressed cumulativeShift stages = Some result ->
    forallb validShift shifts = true.
Proof.
  induction shifts as [|shift shifts IH]; intros u cum stages r H; [reflexivity|].
  cbn [buildStages forallb] in *.
  destruct (validShift shift); [|discriminate].
  destruct (compressStage u shift) as [compressed offsets].
  cbn [andb]. eapply IH. exact H.
Qed.

Lemma compressStage_nil (shift : Z) : compressStage [] shift = ([], []).
Proof. reflexivity. Qed.

(** The stages [buildStages] returns: those it was given, one per shift,
    and the root, which holds what the last stage left uncompressed. *)
Lemma buildStages_result (shifts : list Z) :
  forall uncompressed cumulativeShift stages result,
    buildStages shifts uncompressed cumulativeShift stages = Some result ->
    exists built root,
      result = stages ++ built ++ [root]
      /\ length built = length shifts
      /\ Mask root = MaxInt32
      /\ Shift root = cumulativeShift + sumShifts shifts
      /\ (uncompressed = [] -> Values root = [])
      /\ (length (Values root) <= length uncompressed)%nat
      /\ Forall (fun s => (length (Values s) <= length uncompressed)%nat) built.
Proof.
  induction shifts as [|shift shifts IH]; intros u cum stages r H.
  - cbn [buildStages] in H. injection H as <-.
    exists [], {| Values := u; Shift := cum; Mask := MaxInt32; Bits := 0 |}.
    cbn [app length Mask Shift Values sumShifts fold_right].
    repeat split; auto; try lia.
  - cbn [buildStages] in H.
    destruct (validShift shift) eqn:Hv; [|discriminate].
    pose proof (compressStage_shape u shift Hv) as Hshape.
    destruct (compressStage u shift) as [compressed offsets] eqn:Hcs.
    destruct (IH _ _ _ _ H) as (built & root & Hr & Hlen & Hmask & Hshift & Hnil & Hrl & Hbl).
    assert (Hsz : (length compressed <= length u)%nat /\ (length offsets <= length u)%nat
                  /\ (u = [] -> offsets = [])).
    { destruct u as [|x u'].
      - rewrite compressStage_nil in Hcs. injection Hcs as <- <-. simpl. auto.
      - destruct (Hshape ltac:(discriminate)) as (_ & _ & H1 & H2).
        repeat split; auto. discriminate. }
    destruct Hsz as (Hc & Ho & Hon).
    exists ({| Values := compressed; Shift := cum; Mask := Z.shiftl 1 shift - 1;
               Bits := 0 |} :: built), root.
    split; [rewrite Hr, <- app_assoc; reflexivity|].
    split; [simpl; lia|]. split; [exact Hmask|].
    split; [rewrite Hshift; cbn [sumShifts fold_right]; fold (sumShifts shifts); lia|].
    split; [auto|]. split; [lia|].
    constructor; [exact Hc|].
    eapply Forall_impl; [|exact Hbl]. cbv beta. intros s Hs. lia.
Qed.

Lemma mapM_setBits_sized (stages : list Stage) :
  forall stages', mapM setBits stages = Some stages' -> Forall2 sized stages stages'.
Proof.
  intros stages' H. apply mapM_Forall2 in H.
  induction H as [|s s' l l' Hs _ IH]; constructor; [|exact IH].
  unfold setBits in Hs. destruct (slices_Max (Values s)) as [m|] eqn:Hm; [|discriminate].
  cbn [bind] in Hs. injection Hs as <-. unfold sized. cbn. eauto 10.
Qed.

Lemma buildTrie_Some_iff (uncompressed : list Z) (shifts : list Z) :
  (exists t, buildTrie uncompressed shifts = Some t)
  <-> uncompressed <> [] /\ forallb validShift shifts = true.
Proof.
  split.
  - intros [t Ht]. unfold buildTrie in Ht.
    destruct (buildStages shifts uncompressed 0 []) as [stages|] eqn:Hst; [|discriminate].
    cbn [bind] in Ht.
    destruct (mapM setBits (rev stages)) as [stages'|] eqn:Hm; [|discriminate].
    split; [|eapply buildStages_valid; exact Hst].
    intros ->.
    destruct (buildStages_result _ _ _ _ _ Hst) as (built & root & Hr & _ & _ & _ & Hnil & _).
    specialize (Hnil eq_refl).
    apply mapM_setBits_sized in Hm.
    rewrite Hr in Hm. cbn [app] in Hm. rewrite rev_app_distr in Hm. cbn [rev app] in Hm.
    inversion Hm as [|? ? ? ? (_ & _ & _ & m & Hmax & _) _]; subst.
    rewrite Hnil in Hmax. discriminate.
  - intros [Hne Hv].
    destruct (buildTrie_returns uncompressed shifts Hne Hv) as (t & Ht & _). eauto.
Qed.

(** X7. [buildTrie] returns exactly when the slice is non-empty and every
    shift count lies in [0, 62]: an empty slice makes [slices.Max] panic,
    a shift count outside the range makes the chunk loop panic. *)
Theorem buildTrie_returns_iff (uncompressed : list Z) (shifts : list Z) :
  (exists t, buildTrie uncompressed shifts = Some t)
  <-> uncompressed <> [] /\ forallb validShift shifts = true.
Proof. exact (buildTrie_Some_iff uncompressed shifts). Qed.

Lemma buildStages_params (shifts : list Z) :
  forall uncompressed cumulativeShift stages result,
    buildStages shifts uncompressed cumulativeShift stages = Some result ->
    map paramsOf result = map paramsOf stages ++ stageParams cumulativeShift shifts.
Proof.
  induction shifts as [|shift shifts IH]; intros u cum stages r H.
  - cbn [buildStages] in H. injection H as <-. rewrite map_app. reflexivity.
  - cbn [buildStages] in H.
    destruct (validShift shift); [|discriminate].
    destruct (compressStage u shift) as [compressed offsets].
    rewrite (IH _ _ _ _ H), map_app, <- app_assoc. reflexivity.
Qed.

Lemma sized_params (l l' : list Stage) :
  Forall2 sized l l' -> map paramsOf l' = map paramsOf l.
Proof.
  induction 1 as [|s s' l l' (_ & Hs & Hm & _) _ IH]; [reflexivity|].
  cbn [map]. unfold paramsOf at 1 3. rewrite Hs, Hm, IH. reflexivity.
Qed.

Lemma sized_values (l l' : list Stage) (P : list Z -> Prop) :
  Forall2 sized l l' -> Forall (fun s => P (Values s)) l ->
  Forall (fun s => P (Values s)) l'.
Proof.
  induction 1 as [|s s' l l' (Hv & _) _ IH]; intros Hall; [constructor|].
  inversion Hall; subst. constructor; [rewrite Hv; assumption|auto].
Qed.

Lemma buildTrie_shape (uncompressed : list Z) (shifts : list Z) :
  match buildTrie uncompressed shifts with
  | None => True
  | Some t =>
      map paramsOf (Stages t) = rev (stageParams 0 shifts)
      /\ length (Stages t) = S (length shifts)
      /\ Forall (fun s => (1 <= length (Values s) <= length uncompressed)%nat)
           (Stages t)
      /\ TotalSize t = totalSizeOf (Stages t)
      /\ 0 < TotalSize t
         <= 4 * Z.of_nat (length uncompressed) * Z.of_nat (S (length shifts))
  end.
Proof.
  destruct (buildTrie uncompressed shifts) as [t|] eqn:Ht; [|exact I].
  assert (Hex : exists t', buildTrie uncompressed shifts = Some t') by eauto.
  apply buildTrie_Some_iff in Hex as [Hne Hv].
  destruct (buildTrie_returns uncompressed shifts Hne Hv) as (t' & Ht' & Hsum & Hlen & Hb).
  assert (t' = t) by congruence. subst t'.
  unfold buildTrie in Ht.
  destruct (buildStages shifts uncompressed 0 []) as [stages|] eqn:Hst; [|discriminate].
  cbn [bind] in Ht.
  destruct (mapM setBits (rev stages)) as [stages'|] eqn:Hm; [|discriminate].
  injection Ht as <-. cbn [Stages TotalSize] in *.
  pose proof (mapM_setBits_sized _ _ Hm) as Hsized.
  split.
  { rewrite (sized_params _ _ Hsized), map_rev.
    rewrite (buildStages_params _ _ _ _ _ Hst). reflexivity. }
  split; [lia|]. split.
  { destruct (buildStages_shape (length uncompressed) shifts uncompressed 0 []
                Hv Hne (le_n _) (Forall_nil _)) as (r & Hr & Hok & _).
    assert (r = stages) by congruence. subst r.
    apply (sized_values (rev stages) stages'
             (fun vs => (1 <= length vs <= length uncompressed)%nat) Hsized).
    apply Forall_rev. eapply Forall_impl; [|exact Hok].
    intros s [Hn Hl]. destruct (Values s); [contradiction|simpl in *; lia]. }
  split; [reflexivity|].
  replace (Z.of_nat (S (length shifts))) with (Z.of_nat (length shifts + 1)) by lia.
  exact Hb.
Qed.

(** X8. A trie [buildTrie] returns has one stage per shift and the root in
    front; read from the leaf, the stages carry the running sum of the
    shifts and the mask [1 << shift - 1], the root the mask [MaxInt32]; no
    stage is empty or longer than the slice that was compressed; and the
    total size is the sum of element bytes times entry count, at most four
    bytes per element and stage. *)
Theorem buildTrie_structure (uncompressed : list Z) (shifts : list Z) :
  match buildTrie uncompressed shifts with
  | None => True
  | Some t =>
      map paramsOf (Stages t) = rev (stageParams 0 shifts)
      /\ length (Stages t) = S (length shifts)
      /\ Forall (fun s => (1 <= length (Values s) <= length uncompressed)%nat)
           (Stages t)
      /\ TotalSize t = totalSizeOf (Stages t)
      /\ 0 < TotalSize t
         <= 4 * Z.of_nat (length uncompressed) * Z.of_nat (S (length shifts))
  end.
Proof. exact (buildTrie_shape uncompressed shifts). Qed.

(** *** Values stay 32-bit *)

Lemma to_uint32_range (x : Z) : isUint32 (to_uint32 x).
Proof. unfold isUint32, to_uint32. apply Z.mod_pos_bound. lia. Qed.

Lemma cache_get_uint32 (key : list Z) (cache : Cache) (v : Z) :
  Forall (fun kv => isUint32 (snd kv)) cache ->
  cache_get key cache = Some v -> isUint32 v.
Proof.
  induction 1 as [|[k w] cache Hw _ IH]; simpl; [discriminate|].
  destruct (slices_Equal k key); [intros [= <-]; exact Hw|exact IH].
Qed.

Lemma placeChunk_uint32 (cache : Cache) (compressed chunk : list Z) :
  Forall (fun kv => isUint32 (snd kv)) cache ->
  Forall isUint32 compressed -> Forall isUint32 chunk ->
  let '(cache', compressed', offset) := placeChunk cache compressed chunk in
  Forall (fun kv => isUint32 (snd kv)) cache'
  /\ Forall isUint32 compressed' /\ isUint32 offset.
Proof.
  intros Hc Hcomp Hchunk. unfold placeChunk.
  destruct (cache_get (rawBytes chunk) cache) as [offset|] eqn:Hget.
  - split; [exact Hc|]. split; [exact Hcomp|]. eapply cache_get_uint32; eauto.
  - destruct (negb (findExisting compressed chunk =? -1)).
    + split; [constructor; [apply to_uint32_range|exact Hc]|].
      split; [exact Hcomp|apply to_uint32_range].
    + split; [constructor; [apply to_uint32_range|exact Hc]|].
      split; [|apply to_uint32_range].
      apply Forall_app. split; [exact Hcomp|]. apply Forall_skipn. exact Hchunk.
Qed.

Lemma compressChunks_uint32 (chunks : list (list Z)) :
  forall cache compressed,
    Forall (fun kv => isUint32 (snd kv)) cache ->
    Forall isUint32 compressed -> Forall (Forall isUint32) chunks ->
    let '(c, offsets) := compressChunks chunks cache compressed in
    Forall isUint32 c /\ Forall isUint32 offsets.
Proof.
  induction chunks as [|chunk chunks IH]; intros cache compressed Hc Hcomp Hall.
  - simpl. auto.
  - inversion Hall as [|? ? Hchunk Hrest]; subst. cbn [compressChunks].
    pose proof (placeChunk_uint32 cache compressed chunk Hc Hcomp Hchunk) as Hp.
    destruct (placeChunk cache compressed chunk) as [[cache' compressed'] offset].
    destruct Hp as (Hc' & Hcomp' & Ho).
    specialize (IH cache' compressed' Hc' Hcomp' Hrest).
    destruct (compressChunks chunks cache' compressed') as [c offsets].
    destruct IH. split; [assumption|]. constructor; assumption.
Qed.

Lemma chunksOf_fuel_Forall (P : Z -> Prop) (chunkSize : Z) (fuel : nat) :
  forall l, Forall P l -> Forall (Forall P) (chunksOf_fuel fuel chunkSize l).
Proof.
  induction fuel as [|fuel IH]; intros l Hl; [constructor|].
  destruct l as [|x l]; [constructor|].
  cbn [chunksOf_fuel]. constructor.
  - rewrite <- (firstn_skipn (Z.to_nat chunkSize) (x :: l)) in Hl.
    apply Forall_app in Hl. tauto.
  - apply IH. apply Forall_skipn. exact Hl.
Qed.

Lemma buildStages_uint32 (shifts : list Z) :
  forall uncompressed cumulativeShift stages result,
    Forall isUint32 uncompressed ->
    Forall (fun s => Forall isUint32 (Values s)) stages ->
    buildStages shifts uncompressed cumulativeShift stages = Some result ->
    Forall (fun s => Forall isUint32 (Values s)) result.
Proof.
  induction shifts as [|shift shifts IH]; intros u cum stages r Hu Hst H.
  - cbn [buildStages] in H. injection H as <-.
    apply Forall_app. split; [exact Hst|]. constructor; [exact Hu|constructor].
  - cbn [buildStages] in H.
    destruct (validShift shift); [|discriminate].
    pose proof (compressChunks_uint32 (chunksOf (Z.shiftl 1 shift) u) [] []
                  (Forall_nil _) (Forall_nil _)
                  (chunksOf_fuel_Forall isUint32 _ _ u Hu)) as Hcs.
    fold (compressStage u shift) in Hcs.
    destruct (compressStage u shift) as [compressed offsets].
    destruct Hcs as [Hc Ho].
    eapply IH; [exact Ho| |exact H].
    apply Forall_app. split; [exact Hst|]. constructor; [exact Hc|constructor].
Qed.

Lemma fold_left_max_spec (l : list Z) :
  forall x,
    x <= fold_left Z.max l x
    /\ Forall (fun v => v <= fold_left Z.max l x) l
    /\ (fold_left Z.max l x = x \/ In (fold_left Z.max l x) l).
Proof.
  induction l as [|y l IH]; intros x; simpl.
  - split; [lia|]. split; [constructor|auto].
  - destruct (IH (Z.max x y)) as (Hle & Hall & Hin).
    split; [lia|]. split; [constructor; [lia|exact Hall]|].
    destruct Hin as [Heq|Hin]; [|auto].
    rewrite Heq. destruct (Z.max_spec x y) as [[_ ->]|[_ ->]]; auto.
Qed.

Lemma slices_Max_spec (l : list Z) (m : Z) :
  slices_Max l = Some m -> In m l /\ Forall (fun v => v <= m) l.
Proof.
  destruct l as [|x l]; [discriminate|]. intros [= <-].
  destruct (fold_left_max_spec l x) as (Hle & Hall & Hin).
  split.
  - destruct Hin as [->|Hin]; [left; reflexivity|right; exact Hin].
  - constructor; assumption.
Qed.

Lemma sized_bitsMinimal (s s' : Stage) :
  sized s s' -> Forall isUint32 (Values s) -> bitsMinimal s'.
Proof.
  intros (Hv & _ & _ & m & Hmax & Hbits) Hu.
  apply slices_Max_spec in Hmax as [Hin Hle].
  unfold bitsMinimal. rewrite Hv, Hbits.
  assert (Hm : isUint32 m) by (rewrite Forall_forall in Hu; auto).
  unfold isUint32 in *. unfold bitsFor.
  destruct (Z.leb_spec m 255) as [H8|H8].
  - split; [|left; reflexivity].
    rewrite Forall_forall in *. intros v Hv'.
    specialize (Hu v Hv'). specialize (Hle v Hv'). change (2 ^ 8) with 256. lia.
  - destruct (Z.leb_spec m 65535) as [H16|H16].
    + split.
      * rewrite Forall_forall in *. intros v Hv'.
        specialize (Hu v Hv'). specialize (Hle v Hv'). change (2 ^ 16) with 65536. lia.
      * right. left. split; [reflexivity|].
        apply Exists_exists. exists m. change (2 ^ 8) with 256. split; [exact Hin|lia].
    + split.
      * rewrite Forall_forall in *. intros v Hv'. apply Hu. exact Hv'.
      * right. right. split; [reflexivity|].
        apply Exists_exists. exists m. change (2 ^ 16) with 65536. split; [exact Hin|lia].
Qed.

(** X9. When [buildTrie] returns on 32-bit values, the element width it
    records for each stage is the least of 8, 16 and 32 bits that can hold
    every value of that stage. *)
Theorem buildTrie_bits_minimal (uncompressed : list Z) (shifts : list Z) :
  Forall isUint32 uncompressed ->
  match buildTrie uncompressed shifts with
  | None => True
  | Some t => Forall bitsMinimal (Stages t)
  end.
Proof.
  intros Hu. unfold buildTrie.
  destruct (buildStages shifts uncompressed 0 []) as [stages|] eqn:Hst; [|exact I].
  cbn [bind].
  destruct (mapM setBits (rev stages)) as [stages'|] eqn:Hm; [|exact I].
  cbn [bind Stages].
  pose proof (buildStages_uint32 _ _ _ _ _ Hu (Forall_nil _) Hst) as Hall.
  apply Forall_rev in Hall.
  pose proof (mapM_setBits_sized _ _ Hm) as Hsized. clear Hm.
  revert Hall. induction Hsized as [|s s' l l' Hs _ IH]; intros Hall; [constructor|].
  inversion Hall as [|? ? Hhead Htail]; subst.
  constructor; [exact (sized_bitsMinimal s s' Hs Hhead)|exact (IH Htail)].
Qed.

Lemma buildTrie_bits_minimal_witness :
  Forall isUint32 [1; 300; 70000; 1]
  /\ match buildTrie [1; 300; 70000; 1] [1] with
     | None => True
     | Some t => Forall bitsMinimal (Stages t)
     end.
Proof.
  assert (H : Forall isUint32 [1; 300; 70000; 1])
    by (repeat (apply Forall_cons; [split; [lia|reflexivity]|]); apply Forall_nil).
  split; [exact H|].
  exact (buildTrie_bits_minimal [1; 300; 70000; 1] [1] H).
Defined.

(** ** Further properties: storing a chunk, checking a trie *)

Lemma cache_get_set (key : list Z) (v : Z) (cache : Cache) :
  cache_get key (cache_set key v cache) = Some v.
Proof.
  unfold cache_set. cbn [cache_get].
  replace (slices_Equal key key) with true; [reflexivity|].
  symmetry. apply slices_Equal_eq. reflexivity.
Qed.

(** X10. A chunk that is neither cached nor found is appended after its
    overlap with the end of the compressed slice: what was stored stays in
    place, the slice grows by the chunk's length less the overlap, the chunk
    occupies the last positions, which begin at the offset returned, and
    the cache maps the chunk's bytes to that offset. *)
Theorem placeChunk_appended (cache : Cache) (compressed chunk : list Z) :
  cache_get (rawBytes chunk) cache = None ->
  findExisting compressed chunk = -1 ->
  Z.of_nat (length compressed + length chunk) < 2 ^ 32 ->
  let '(cache', compressed', offset) := placeChunk cache compressed chunk in
  firstn (length compressed) compressed' = compressed
  /\ length compressed'
     = (length compressed + length chunk - measureOverlap compressed chunk)%nat
  /\ Z.of_nat (length compressed') = offset + Z.of_nat (length chunk)
  /\ skipn (Z.to_nat offset) compressed' = chunk
  /\ cache_get (rawBytes chunk) cache' = Some offset.
Proof.
  intros Hmiss Hfind Hsmall. unfold placeChunk. rewrite Hmiss, Hfind.
  cbn [Z.eqb negb].
  destruct (measureOverlap_correct compressed chunk) as (Hp & Hn & Hov & _).
  set (overlap := measureOverlap compressed chunk) in *.
  assert (Hlen : length (compressed ++ skipn overlap chunk)
                 = (length compressed + length chunk - overlap)%nat).
  { rewrite length_app, length_skipn. lia. }
  assert (Hoff : to_uint32 (Z.of_nat (length (compressed ++ skipn overlap chunk))
                            - Z.of_nat (length chunk))
                 = Z.of_nat (length compressed - overlap)).
  { unfold to_uint32. rewrite Hlen. rewrite Z.mod_small; lia. }
  rewrite Hoff.
  split; [rewrite firstn_app, Nat.sub_diag, firstn_all; cbn [firstn]; apply app_nil_r|].
  split; [exact Hlen|]. split; [rewrite Hlen; lia|]. split.
  - rewrite Nat2Z.id, skipn_app.
    replace (length compressed - overlap - length compressed)%nat with O by lia.
    cbn [skipn]. rewrite Hov. apply firstn_skipn.
  - apply cache_get_set.
Qed.

Lemma placeChunk_appended_witness :
  cache_get (rawBytes [2; 3; 4; 5]) [] = None
  /\ findExisting [0; 1; 2; 3; 4] [2; 3; 4; 5] = -1
  /\ Z.of_nat (length [0; 1; 2; 3; 4] + length [2; 3; 4; 5]) < 2 ^ 32
  /\ measureOverlap [0; 1; 2; 3; 4] [2; 3; 4; 5] = 3%nat
  /\ let '(cache', compressed', offset) :=
       placeChunk [] [0; 1; 2; 3; 4] [2; 3; 4; 5] in
     firstn (length [0; 1; 2; 3; 4]) compressed' = [0; 1; 2; 3; 4]
     /\ length compressed'
        = (length [0; 1; 2; 3; 4]%Z + length [2; 3; 4; 5]%Z
           - measureOverlap [0; 1; 2; 3; 4]%Z [2; 3; 4; 5]%Z)%nat
     /\ Z.of_nat (length compressed') = offset + Z.of_nat (length [2; 3; 4; 5])
     /\ skipn (Z.to_nat offset) compressed' = [2; 3; 4; 5]
     /\ cache_get (rawBytes [2; 3; 4; 5]) cache' = Some offset.
Proof.
  split; [reflexivity|]. split; [reflexivity|]. split; [reflexivity|].
  split; [reflexivity|].
  apply (placeChunk_appended [] [0; 1; 2; 3; 4] [2; 3; 4; 5]); reflexivity.
Defined.

Lemma sanityCheck_from_spec (t : Trie) (values : list Z) :
  forall cp,
    match sanityCheck_from t cp values with
    | None =>
        exists i, (i < length values)%nat
                  /\ trieLookup t (cp + Z.of_nat i) = None
                  /\ forall j, (j < i)%nat ->
                       trieLookup t (cp + Z.of_nat j) = Some (nth j values 0)
    | Some None =>
        forall i, (i < length values)%nat ->
                  trieLookup t (cp + Z.of_nat i) = Some (nth i values 0)
    | Some (Some bad) =>
        exists i v, (i < length values)%nat /\ bad = cp + Z.of_nat i
                    /\ trieLookup t bad = Some v /\ v <> nth i values 0
                    /\ forall j, (j < i)%nat ->
                         trieLookup t (cp + Z.of_nat j) = Some (nth j values 0)
    end.
Proof.
  induction values as [|expected values IH]; intros cp.
  - simpl. intros i Hi. lia.
  - cbn [sanityCheck_from].
    destruct (trieLookup t cp) as [v|] eqn:Hv; cbn [bind].
    + destruct (Z.eqb_spec v expected) as [->|Hne].
      * specialize (IH (cp + 1)).
        destruct (sanityCheck_from t (cp + 1) values) as [[bad|]|].
        -- destruct IH as (i & v & Hi & Hbad & Hl & Hneq & Hbefore).
           exists (S i), v. cbn [length nth]. split; [lia|].
           split; [lia|]. split; [exact Hl|]. split; [exact Hneq|].
           intros [|j] Hj; [rewrite Z.add_0_r; exact Hv|].
           replace (cp + Z.of_nat (S j)) with (cp + 1 + Z.of_nat j) by lia.
           apply Hbefore. lia.
        -- intros [|i] Hi; [rewrite Z.add_0_r; exact Hv|].
           replace (cp + Z.of_nat (S i)) with (cp + 1 + Z.of_nat i) by lia.
           apply IH. simpl in Hi. lia.
        -- destruct IH as (i & Hi & Hl & Hbefore).
           exists (S i). cbn [length nth]. split; [lia|]. split.
           ++ replace (cp + Z.of_nat (S i)) with (cp + 1 + Z.of_nat i) by lia. exact Hl.
           ++ intros [|j] Hj; [rewrite Z.add_0_r; exact Hv|].
              replace (cp + Z.of_nat (S j)) with (cp + 1 + Z.of_nat j) by lia.
              apply Hbefore. lia.
      * exists O, v. cbn [length nth]. rewrite Z.add_0_r.
        split; [lia|]. split; [reflexivity|]. split; [exact Hv|].
        split; [exact Hne|]. intros j Hj. lia.
    + exists O. cbn [length]. rewrite Z.add_0_r. split; [lia|].
      split; [exact Hv|]. intros j Hj. lia.
Qed.

(** X11. The check [run] makes before it prints anything passes exactly
    when the trie returns the dense array's value at every index; when it
    fails, the code point it reports is the first one whose lookup differs
    from the array. *)
Theorem sanityCheck_sound_and_complete (t : Trie) (values : list Z) :
  (sanityCheck t values = Some None
   <-> forall i, (i < length values)%nat ->
         trieLookup t (Z.of_nat i) = Some (nth i values 0))
  /\ forall bad,
       sanityCheck t values = Some (Some bad) ->
       0 <= bad < Z.of_nat (length values)
       /\ trieLookup t bad <> Some (nth (Z.to_nat bad) values 0)
       /\ forall j, (Z.of_nat j < bad) ->
            trieLookup t (Z.of_nat j) = Some (nth j values 0).
Proof.
  unfold sanityCheck.
  pose proof (sanityCheck_from_spec t values 0) as H.
  destruct (sanityCheck_from t 0 values) as [[bad|]|].
  - destruct H as (i & v & Hi & Hbad & Hl & Hne & Hbefore). rewrite Z.add_0_l in Hbad.
    split.
    + split; [discriminate|]. intros Hall. exfalso.
      specialize (Hall i Hi). rewrite <- Hbad, Hl in Hall. congruence.
    + intros b [= <-]. subst bad. split; [lia|]. split.
      * rewrite Hl, Nat2Z.id. congruence.
      * intros j Hj. specialize (Hbefore j ltac:(lia)). exact Hbefore.
  - split; [|discriminate]. split; [|reflexivity]. intros _ i Hi. exact (H i Hi).
  - destruct H as (i & Hi & Hl & _). split; [|discriminate].
    split; [discriminate|]. intros Hall. specialize (Hall i Hi).
    rewrite Z.add_0_l in Hl. congruence.
Qed.

(** ** Further properties: the emitted lookup *)

Lemma slice_index_Some (s : list Z) (i v : Z) :
  slice_index s i = Some v -> 0 <= i < Z.of_nat (length s).
Proof.
  unfold slice_index. destruct (Z.ltb_spec i 0) as [|Hi]; [discriminate|].
  intros H. assert (Hn : nth_error s (Z.to_nat i) <> None) by congruence.
  apply nth_error_Some in Hn. lia.
Qed.

Lemma sumShifts_nonneg (shifts : list Z) :
  forallb validShift shifts = true -> 0 <= sumShifts shifts.
Proof.
  induction shifts as [|a l IH]; cbn [forallb sumShifts fold_right]; [lia|].
  intros H. apply andb_true_iff in H as [Ha Hl]. specialize (IH Hl).
  unfold validShift in Ha. unfold sumShifts in IH. lia.
Qed.

Lemma stageParams_last (shifts : list Z) :
  forall cum,
    forallb validShift shifts = true ->
    exists front,
      stageParams cum shifts = front ++ [(cum + sumShifts shifts, MaxInt32)]
      /\ Forall (fun p => fst p <= cum + sumShifts shifts) front.
Proof.
  induction shifts as [|a l IH]; intros cum Hv.
  - exists []. cbn. rewrite Z.add_0_r. split; [reflexivity|constructor].
  - cbn [forallb] in Hv. apply andb_true_iff in Hv as [Ha Hl].
    destruct (IH (cum + a) Hl) as (front & Hf & Hall).
    pose proof (sumShifts_nonneg l Hl) as Hnn.
    assert (Ha' : 0 <= a) by (unfold validShift in Ha; lia).
    exists ((cum, Z.shiftl 1 a - 1) :: front).
    cbn [stageParams app]. rewrite Hf.
    replace (cum + sumShifts (a :: l)) with (cum + a + sumShifts l)
      by (unfold sumShifts; cbn [fold_right]; lia).
    split; [reflexivity|]. constructor; [cbn [fst]; lia|exact Hall].
Qed.

Lemma ucdLookup_from_agrees (stages : list Stage) (cp : Z) :
  Forall (fun s => Shift s < 32 /\ Z.of_nat (length (Values s)) <= 2 ^ 32) stages ->
  forall v r,
    trieLookup_from stages cp v = Some r -> ucdLookup_from stages cp v = Some r.
Proof.
  induction 1 as [|s rest [Hs Hl] _ IH]; intros v r H; [exact H|].
  cbn [trieLookup_from ucdLookup_from] in *.
  destruct (Z.leb_spec 32 (Shift s)) as [|_]; [lia|].
  destruct (slice_index (Values s) (v + Z.land (Z.shiftr cp (Shift s)) (Mask s)))
    as [v'|] eqn:Hv; [|discriminate].
  pose proof (slice_index_Some _ _ _ Hv) as Hrange.
  assert (Hw : to_uint32 (v + Z.land (Z.shiftr cp (Shift s)) (Mask s))
               = v + Z.land (Z.shiftr cp (Shift s)) (Mask s)).
  { unfold to_uint32. apply Z.mod_small. lia. }
  rewrite Hw. destruct (Mask s <=? MaxInt32); rewrite Hv; cbn [bind] in *;
    apply IH; exact H.
Qed.

Lemma land_MaxInt32 (x : Z) : 0 <= x < 2 ^ 31 -> Z.land x MaxInt32 = x.
Proof.
  intros Hx. change MaxInt32 with (Z.ones 31).
  rewrite Z.land_ones by lia. apply Z.mod_small. exact Hx.
Qed.

Lemma buildTrie_emitted_agrees (uncompressed shifts : list Z) (t : Trie) (cp v : Z) :
  buildTrie uncompressed shifts = Some t ->
  sumShifts shifts < 32 ->
  Z.of_nat (length uncompressed) <= 2 ^ 32 ->
  0 <= cp < 2 ^ 31 ->
  trieLookup t cp = Some v -> ucdLookup t cp = Some v.
Proof.
  intros Ht Hsum Hlen Hcp Hlook.
  assert (Hex : exists t', buildTrie uncompressed shifts = Some t') by eauto.
  apply buildTrie_Some_iff in Hex as [_ Hvalid].
  pose proof (buildTrie_shape uncompressed shifts) as Hshape. rewrite Ht in Hshape.
  destruct Hshape as (Hparams & _ & Hvalues & _).
  destruct (stageParams_last shifts 0 Hvalid) as (front & Hfront & Hle).
  rewrite Hfront, rev_app_distr in Hparams. cbn [rev app] in Hparams.
  rewrite Z.add_0_l in *.
  pose proof (sumShifts_nonneg shifts Hvalid) as Hnn.
  unfold trieLookup in Hlook. unfold ucdLookup.
  destruct (Stages t) as [|root rest]; [discriminate|].
  cbn [map] in Hparams. unfold paramsOf at 1 in Hparams.
  injection Hparams as Hshift Hmask Hrest.
  destruct (Z.leb_spec 32 (Shift root)) as [|_]; [lia|].
  cbn [trieLookup_from] in Hlook. rewrite Hmask, Z.add_0_l in Hlook.
  rewrite land_MaxInt32 in Hlook.
  2:{ rewrite Z.shiftr_div_pow2 by lia.
      assert (0 < 2 ^ Shift root) by (apply Z.pow_pos_nonneg; lia).
      split; [apply Z.div_pos; lia|].
      apply Z.le_lt_trans with cp; [|lia].
      apply Z.div_le_upper_bound; [lia|]. nia. }
  destruct (slice_index (Values root) (Z.shiftr cp (Shift root))) as [s1|];
    [|discriminate].
  cbn [bind] in *. apply ucdLookup_from_agrees; [|exact Hlook].
  inversion Hvalues as [|? ? _ Hrestvalues]; subst.
  assert (Hshifts : Forall (fun s => Shift s <= sumShifts shifts) rest).
  { apply Forall_rev in Hle. rewrite <- Hrest in Hle.
    rewrite Forall_forall in *. intros s Hs.
    apply (Hle (paramsOf s)). apply in_map. exact Hs. }
  rewrite Forall_forall in *. intros s Hs.
  specialize (Hshifts s Hs). specialize (Hrestvalues s Hs). cbn in *. lia.
Qed.

(** X12. For a trie [buildTrie] returns with shift counts that sum to less
    than 32, the emitted [ucdLookup] reads the same elements as the lookup
    the sanity check of [run] performs: it returns the same value for every
    code point below 2^31 the check can look up, so that after a passed
    check the emitted function returns the dense array's value at every
    index. *)
Theorem ucdLookup_agrees_with_checked_lookup (uncompressed shifts : list Z) :
  sumShifts shifts < 32 ->
  Z.of_nat (length uncompressed) <= 2 ^ 31 ->
  match buildTrie uncompressed shifts with
  | None => True
  | Some t =>
      (forall cp v, 0 <= cp < 2 ^ 31 ->
         trieLookup t cp = Some v -> ucdLookup t cp = Some v)
      /\ (sanityCheck t uncompressed = Some None ->
          forall i, (i < length uncompressed)%nat ->
            ucdLookup t (Z.of_nat i) = Some (nth i uncompressed 0))
  end.
Proof.
  intros Hsum Hlen.
  destruct (buildTrie uncompressed shifts) as [t|] eqn:Ht; [|exact I].
  assert (Hagree : forall cp v, 0 <= cp < 2 ^ 31 ->
            trieLookup t cp = Some v -> ucdLookup t cp = Some v).
  { intros cp v Hcp Hl.
    apply (buildTrie_emitted_agrees uncompressed shifts t cp v Ht Hsum); [lia|exact Hcp|exact Hl]. }
  split; [exact Hagree|].
  intros Hcheck i Hi. apply Hagree; [lia|].
  pose proof (sanityCheck_from_spec t uncompressed 0) as Hspec.
  unfold sanityCheck in Hcheck. rewrite Hcheck in Hspec.
  specialize (Hspec i Hi). rewrite Z.add_0_l in Hspec. exact Hspec.
Qed.

Lemma ucdLookup_agrees_with_checked_lookup_witness :
  sumShifts [1; 1] < 32
  /\ Z.of_nat (length [7; 8; 7; 8; 9; 9; 7; 8]) <= 2 ^ 31
  /\ match buildTrie [7; 8; 7; 8; 9; 9; 7; 8] [1; 1] with
     | None => True
     | Some t =>
         (forall cp v, 0 <= cp < 2 ^ 31 ->
            trieLookup t cp = Some v -> ucdLookup t cp = Some v)
         /\ (sanityCheck t [7; 8; 7; 8; 9; 9; 7; 8] = Some None ->
             forall i, (i < length [7; 8; 7; 8; 9; 9; 7; 8]%Z)%nat ->
               ucdLookup t (Z.of_nat i) = Some (nth i [7; 8; 7; 8; 9; 9; 7; 8] 0))
     end.
Proof.
  assert (H1 : sumShifts [1; 1] < 32) by reflexivity.
  assert (H2 : Z.of_nat (length [7; 8; 7; 8; 9; 9; 7; 8]) <= 2 ^ 31)
    by (vm_compute; discriminate).
  split; [exact H1|]. split; [exact H2|].
  exact (ucdLookup_agrees_with_checked_lookup [7; 8; 7; 8; 9; 9; 7; 8] [1; 1] H1 H2).
Defined.

(** ** Further properties: the extraction *)

Lemma processChar_pointwise (g : Group) (c : Char) (values values' : list Z) :
  processChar g values c = Returned values' ->
  length values' = length values
  /\ forall cp, 0 <= cp ->
       nth (Z.to_nat cp) values' 0
       = if covers c cp then
           match recordValue g c with Some v => v | None => nth (Z.to_nat cp) values 0 end
         else nth (Z.to_nat cp) values 0.
Proof.
  unfold processChar, recordValue.
  destruct (classifyChar g c) as [e|[cb width]]; [discriminate|].
  destruct (fillRange_slice values (firstCp_of c) (lastCp_of c + 1) (trieValue cb width))
    as [v1|] eqn:Hfill; [|discriminate].
  intros [= <-]. split; [eapply fillRange_slice_length; exact Hfill|].
  intros cp Hcp. unfold covers.
  destruct (Z.leb_spec (firstCp_of c) cp) as [H1|H1];
    destruct (Z.leb_spec cp (lastCp_of c)) as [H2|H2]; cbn [andb].
  - eapply fillRange_slice_inside; [exact Hfill|lia].
  - eapply fillRange_slice_outside; [exact Hfill|lia].
  - eapply fillRange_slice_outside; [exact Hfill|lia].
  - eapply fillRange_slice_outside; [exact Hfill|lia].
Qed.

Lemma processRecords_pointwise (rs : list (Group * Char)) :
  forall values values',
    processRecords values rs = Returned values' ->
    length values' = length values
    /\ forall cp, 0 <= cp ->
         nth (Z.to_nat cp) values' 0 = valueOf rs cp (nth (Z.to_nat cp) values 0).
Proof.
  induction rs as [|[g c] rs IH]; intros values values' H; cbn [processRecords valueOf] in *.
  - injection H as <-. split; [reflexivity|]. intros cp _. reflexivity.
  - destruct (processChar g values c) as [v1| |] eqn:Hstep; try discriminate.
    destruct (processChar_pointwise _ _ _ _ Hstep) as [Hlen1 Hval1].
    destruct (IH _ _ H) as [Hlen Hval]. split; [congruence|].
    intros cp Hcp. rewrite (Hval cp Hcp), (Hval1 cp Hcp). reflexivity.
Qed.

(** X13. When [extractValuesFromUCD] returns, the dense array has 1,114,112
    elements, and its element at every code point is: Other/Narrow from
    U+2500 to U+259F and Extend/Wide at U+FE0F, whatever the records say;
    elsewhere the classification of the last record, in document order,
    whose range holds the code point; and Other/Narrow where no record
    does. *)
Theorem extractValuesFromUCD_pointwise (ucd : UCD) :
  match extractValuesFromUCD ucd with
  | Returned values =>
      Z.of_nat (length values) = codepointCount
      /\ forall cp, 0 <= cp < codepointCount ->
           nth (Z.to_nat cp) values 0 = extractedValue ucd cp
  | Failed _ => True
  | Panicked => True
  end.
Proof.
  unfold extractValuesFromUCD. rewrite processGroups_records, <- records_recordsOf.
  destruct (processRecords _ (records ucd)) as [v1| |] eqn:Hrec; try exact I.
  destruct (postPass v1) as [v3|] eqn:Hpost; [|exact I].
  destruct (processRecords_pointwise _ _ _ Hrec) as [Hlen1 Hval1].
  unfold postPass in Hpost.
  destruct (fillRange_slice v1 9472 (9631 + 1) (trieValue cbOther cwNarrow))
    as [v2|] eqn:Hbox; [|discriminate].
  cbn [bind] in Hpost.
  pose proof (fillRange_slice_length _ _ _ _ _ Hbox) as Hlen2.
  pose proof (fillRange_slice_length _ _ _ _ _ Hpost) as Hlen3.
  split.
  { rewrite Hlen3, Hlen2, Hlen1. apply initial_length. }
  intros cp Hcp. unfold extractedValue.
  destruct (Z.leb_spec 9472 cp) as [H1|H1];
    destruct (Z.leb_spec cp 9631) as [H2|H2]; cbn [andb].
  - rewrite (fillRange_slice_outside _ _ _ _ _ 0 cp Hpost) by lia.
    apply (fillRange_slice_inside _ _ _ _ _ 0 cp Hbox). lia.
  - destruct (Z.eqb_spec cp 65039) as [->|Hne].
    + apply (fillRange_slice_inside _ _ _ _ _ 0 65039 Hpost). lia.
    + rewrite (fillRange_slice_outside _ _ _ _ _ 0 cp Hpost) by lia.
      rewrite (fillRange_slice_outside _ _ _ _ _ 0 cp Hbox) by lia.
      rewrite (Hval1 cp) by lia. f_equal.
      apply nth_repeat_lt. unfold codepointCount in *. lia.
  - destruct (Z.eqb_spec cp 65039) as [->|Hne]; [lia|].
    rewrite (fillRange_slice_outside _ _ _ _ _ 0 cp Hpost) by lia.
    rewrite (fillRange_slice_outside _ _ _ _ _ 0 cp Hbox) by lia.
    rewrite (Hval1 cp) by lia. f_equal.
    apply nth_repeat_lt. unfold codepointCount in *. lia.
  - lia.
Qed.

Lemma fillRange_slice_None (s : list Z) (lo hi v : Z) :
  ~ (0 <= lo /\ lo <= hi /\ hi <= Z.of_nat (length s)) ->
  fillRange_slice s lo hi v = None.
Proof.
  intros H. unfold fillRange_slice.
  destruct (Z.leb_spec 0 lo); destruct (Z.leb_spec lo hi);
    destruct (Z.leb_spec hi (Z.of_nat (length s))); cbn [andb]; try reflexivity.
  exfalso. apply H. lia.
Qed.

Lemma processRecords_accepted (pre rest : list (Group * Char)) :
  forall values,
    Z.of_nat (length values) = codepointCount ->
    Forall accepted pre ->
    exists values',
      Z.of_nat (length values') = codepointCount
      /\ processRecords values (pre ++ rest) = processRecords values' rest.
Proof.
  induction pre as [|[g c] pre IH]; intros values Hlen Hacc.
  - exists values. split; [exact Hlen|reflexivity].
  - assert (Hc : accepted (g, c)) by (inversion Hacc; assumption).
    assert (Hpre : Forall accepted pre) by (inversion Hacc; assumption).
    destruct Hc as [Hrange [p Hp]]. cbn [fst snd] in *.
    pose proof (processChar_in_range g c values Hlen Hrange) as Hstep.
    cbn [app processRecords].
    destruct (processChar g values c) as [v1|e|].
    + destruct Hstep as [Hlen1 _]. exact (IH v1 Hlen1 Hpre).
    + congruence.
    + contradiction.
Qed.

(** X14. The outcome of [extractValuesFromUCD] is decided by the first
    record that is not both classified and inside the dense array: if that
    record is rejected, its error is returned, also when its range is
    outside the array; if it is classified but its range is not inside the
    array, the slice expression panics, whatever the records after it
    are. *)
Theorem extractValuesFromUCD_first_offender
    (ucd : UCD) (pre post : list (Group * Char)) (g : Group) (c : Char) :
  records ucd = pre ++ (g, c) :: post ->
  Forall accepted pre ->
  (forall e, classifyChar g c = inl e -> extractValuesFromUCD ucd = Failed e)
  /\ ((exists p, classifyChar g c = inr p) -> ~ inRange c ->
      extractValuesFromUCD ucd = Panicked).
Proof.
  intros Hrecords Hpre.
  destruct (processRecords_accepted pre ((g, c) :: post) _
              (initial_length (trieValue cbOther cwNarrow)) Hpre)
    as (values' & Hlen & Hrun).
  unfold extractValuesFromUCD.
  rewrite processGroups_records, <- records_recordsOf, Hrecords, Hrun.
  cbn [processRecords]. unfold processChar. split.
  - intros e He. rewrite He. reflexivity.
  - intros [[cb width] Hp] Hout. rewrite Hp.
    rewrite fillRange_slice_None; [reflexivity|].
    intros (H1 & H2 & H3). apply Hout. unfold inRange. lia.
Qed.

Lemma extractValuesFromUCD_first_offender_witness :
  records offenderUCD
  = [(offenderGroup, wideMark)]
      ++ (offenderGroup, outOfRangeChar) :: [(offenderGroup, unknownGCB)]
  /\ Forall accepted [(offenderGroup, wideMark)]
  /\ (exists p, classifyChar offenderGroup outOfRangeChar = inr p)
  /\ ~ inRange outOfRangeChar
  /\ extractValuesFromUCD offenderUCD = Panicked.
Proof.
  assert (H1 : records offenderUCD
               = [(offenderGroup, wideMark)]
                   ++ (offenderGroup, outOfRangeChar) :: [(offenderGroup, unknownGCB)])
    by reflexivity.
  assert (H2 : Forall accepted [(offenderGroup, wideMark)]).
  { constructor; [|constructor]. split.
    - unfold inRange. cbn. unfold codepointCount. lia.
    - eexists. reflexivity. }
  assert (H3 : exists p, classifyChar offenderGroup outOfRangeChar = inr p)
    by (eexists; reflexivity).
  assert (H4 : ~ inRange outOfRangeChar).
  { unfold inRange. cbn. unfold codepointCount. lia. }
  split; [exact H1|]. split; [exact H2|]. split; [exact H3|]. split; [exact H4|].
  exact (proj2 (extractValuesFromUCD_first_offender offenderUCD
                  [(offenderGroup, wideMark)] [(offenderGroup, unknownGCB)]
                  offenderGroup outOfRangeChar H1 H2) H3 H4).
Defined.

(** ** Further properties: the search of [buildBestTrie] *)

(** The receive loop keeps the first of the smallest results. *)
Lemma fold_pickBest_first (tries : list Trie) :
  forall bestTrie,
    (fold_left pickBest tries bestTrie = bestTrie
     /\ Forall (fun t => TotalSize bestTrie <= TotalSize t) tries)
    \/ (exists pre post,
          tries = pre ++ fold_left pickBest tries bestTrie :: post
          /\ TotalSize (fold_left pickBest tries bestTrie) < TotalSize bestTrie
          /\ Forall (fun t => TotalSize (fold_left pickBest tries bestTrie) < TotalSize t) pre
          /\ Forall (fun t => TotalSize (fold_left pickBest tries bestTrie) <= TotalSize t) post).
Proof.
  induction tries as [|t tries IH]; intros bestTrie; cbn [fold_left].
  - left. split; [reflexivity|constructor].
  - assert (Hpick : (pickBest bestTrie t = t /\ TotalSize t < TotalSize bestTrie)
                    \/ (pickBest bestTrie t = bestTrie
                        /\ TotalSize bestTrie <= TotalSize t)).
    { unfold pickBest.
      destruct (Z.gtb_spec (TotalSize bestTrie) (TotalSize t)); [left|right];
        split; auto; lia. }
    destruct Hpick as [[-> Hgt]|[-> Hle]].
    + right. destruct (IH t) as [[Heq Hall]|(pre & post & Htries & Hlt & Hpre & Hpost)].
      * exists [], tries. rewrite Heq. cbn [app].
        split; [reflexivity|]. split; [lia|]. split; [constructor|exact Hall].
      * exists (t :: pre), post. cbn [app]. rewrite <- Htries.
        split; [reflexivity|]. split; [lia|]. split; [|exact Hpost].
        constructor; [exact Hlt|exact Hpre].
    + destruct (IH bestTrie) as [[Heq Hall]|(pre & post & Htries & Hlt & Hpre & Hpost)].
      * left. split; [exact Heq|]. constructor; [exact Hle|exact Hall].
      * right. exists (t :: pre), post. cbn [app]. rewrite <- Htries.
        split; [reflexivity|]. split; [exact Hlt|]. split; [|exact Hpost].
        constructor; [lia|exact Hpre].
Qed.

(** X15. Whatever the order in which the results arrive, [buildBestTrie]
    panics when a candidate does, and otherwise returns the first result to
    arrive among those of the smallest total size: every result that
    arrived before it is strictly larger, none is smaller; when no result
    is smaller than [math.MaxInt], and in particular when no goroutine was
    started, it returns the initial trie without stages.  Among candidates
    of equal size the one returned therefore depends on the schedule. *)
Theorem buildBestTrie_first_smallest
    (arrival : list Z) (uncompressed : list Z) (minShift maxShift stages : Z) :
  match mapM (candidate uncompressed minShift (wrap64 (maxShift - minShift + 1)) stages)
          arrival with
  | None => buildBestTrie_arrival arrival uncompressed minShift maxShift stages = None
  | Some tries =>
      exists best,
        buildBestTrie_arrival arrival uncompressed minShift maxShift stages = Some best
        /\ ((best = noTrie /\ Forall (fun t => MaxInt <= TotalSize t) tries)
            \/ (exists pre post,
                  tries = pre ++ best :: post
                  /\ TotalSize best < MaxInt
                  /\ Forall (fun t => TotalSize best < TotalSize t) pre
                  /\ Forall (fun t => TotalSize best <= TotalSize t) post))
  end.
Proof.
  unfold buildBestTrie_arrival.
  destruct (mapM _ arrival) as [tries|]; cbn [bind]; [|reflexivity].
  eexists. split; [reflexivity|].
  destruct (fold_pickBest_first tries {| Stages := []; TotalSize := MaxInt |})
    as [[Heq Hall]|(pre & post & Htries & Hlt & Hpre & Hpost)].
  - left. split; [exact Heq|exact Hall].
  - right. exists pre, post. auto.
Qed.

Lemma itersLoop_zero (n : nat) : itersLoop (S n) 0 1 = 0.
Proof.
  cbn [itersLoop]. rewrite Z.mul_0_r. change (wrap64 0) with 0.
  induction n as [|n IH]; [reflexivity|].
  cbn [itersLoop]. rewrite Z.mul_0_r. exact IH.
Qed.

(** X16. Outside its intended parameters [buildBestTrie] does not search:
    with a stage count of zero or less its single goroutine panics on
    [make([]int, stages-1)]; with an empty shift range
    ([maxShift = minShift - 1]) and at least two stages no goroutine is
    started and the initial trie, which has no stages and the total size
    [math.MaxInt], is returned. *)
Theorem buildBestTrie_outside_parameters
    (uncompressed : list Z) (minShift maxShift stages : Z) :
  (stages <= 0 ->
   launched minShift maxShift stages = [0]
   /\ buildBestTrie uncompressed minShift maxShift stages = None)
  /\ (2 <= stages -> maxShift = minShift - 1 ->
      launched minShift maxShift stages = []
      /\ buildBestTrie uncompressed minShift maxShift stages = Some noTrie).
Proof.
  split.
  - intros Hst.
    assert (Hl : launched minShift maxShift stages = [0]).
    { unfold launched, itersFor.
      replace (Z.to_nat (stages - 1)) with O by lia. reflexivity. }
    split; [exact Hl|].
    unfold buildBestTrie, buildBestTrie_arrival. rewrite Hl.
    cbn [mapM]. unfold candidate.
    destruct (Z.ltb_spec (stages - 1) 0) as [_|]; [reflexivity|lia].
  - intros Hst ->.
    assert (Hl : launched minShift (minShift - 1) stages = []).
    { unfold launched, itersFor.
      replace (minShift - 1 - minShift + 1) with 0 by lia.
      change (wrap64 0) with 0.
      replace (Z.to_nat (stages - 1)) with (S (Z.to_nat (stages - 2))) by lia.
      rewrite itersLoop_zero. reflexivity. }
    split; [exact Hl|].
    unfold buildBestTrie, buildBestTrie_arrival. rewrite Hl. reflexivity.
Qed.

(** ** Further properties: the trie of the single-table generator *)

Lemma rawBytes_inj (a : list Z) :
  forall b, Forall isUint32 a -> Forall isUint32 b -> rawBytes a = rawBytes b -> a = b.
Proof.
  induction a as [|x a IH]; intros [|y b] Ha Hb H; try reflexivity;
    try (apply (f_equal (@length Z)) in H; rewrite !rawBytes_length in H;
         cbn [length] in H; lia).
  assert (Hx : isUint32 x) by (inversion Ha; assumption).
  assert (Hy : isUint32 y) by (inversion Hb; assumption).
  assert (Ha' : Forall isUint32 a) by (inversion Ha; assumption).
  assert (Hb' : Forall isUint32 b) by (inversion Hb; assumption).
  cbn [rawBytes flat_map] in H. fold (rawBytes a) in H. fold (rawBytes b) in H.
  assert (Hw : wordBytes x = wordBytes y /\ rawBytes a = rawBytes b).
  { unfold wordBytes in *. cbn [app] in H.
    apply cons_eq_inv in H as [H0 H]. apply cons_eq_inv in H as [H1 H].
    apply cons_eq_inv in H as [H2 H]. apply cons_eq_inv in H as [H3 H].
    split; [congruence|exact H]. }
  destruct Hw as [Hw Hrest]. f_equal.
  - apply wordBytes_inj; assumption.
  - apply IH; assumption.
Qed.

Lemma cache_get_In (key : list Z) (cache : Cache) (offset : Z) :
  cache_get key cache = Some offset -> In (key, offset) cache.
Proof.
  induction cache as [|[k v] cache IH]; cbn [cache_get]; [discriminate|].
  destruct (slices_Equal k key) eqn:Hk.
  - intros [= ->]. apply slices_Equal_eq in Hk. subst k. left. reflexivity.
  - intros H. right. apply IH. exact H.
Qed.

Lemma occursAt_app (chunk : list Z) (offset : Z) (l x : list Z) :
  occursAt chunk offset l -> occursAt chunk offset (l ++ x).
Proof.
  intros (pre & post & -> & Hlen). exists pre, (post ++ x).
  rewrite <- !app_assoc. auto.
Qed.

Lemma occursAt_nth (chunk : list Z) (offset : Z) (l : list Z) (r : nat) :
  occursAt chunk offset l -> (r < length chunk)%nat ->
  slice_index l (offset + Z.of_nat r) = nth_error chunk r.
Proof.
  intros (pre & post & -> & Hlen) Hr. unfold slice_index.
  destruct (Z.ltb_spec (offset + Z.of_nat r) 0) as [|_]; [lia|].
  replace (Z.to_nat (offset + Z.of_nat r)) with (length pre + r)%nat by lia.
  rewrite nth_error_app2 by lia.
  replace (length pre + r - length pre)%nat with r by lia.
  apply nth_error_app1. exact Hr.
Qed.

Lemma cacheSound_app (cache : Cache) (compressed x : list Z) :
  cacheSound cache compressed -> cacheSound cache (compressed ++ x).
Proof.
  intros H key offset Hin. destruct (H key offset Hin) as (chunk & Hk & Hu & Hocc).
  exists chunk. split; [exact Hk|]. split; [exact Hu|]. apply occursAt_app. exact Hocc.
Qed.

Lemma triegen_placeChunk_sound (cache : Cache) (compressed chunk : list Z) :
  cacheSound cache compressed ->
  Forall isUint32 chunk ->
  Z.of_nat (length compressed) < 2 ^ 32 ->
  let '(cache', compressed', offset) := Triegen.placeChunk cache compressed chunk in
  cacheSound cache' compressed'
  /\ (exists x, compressed' = compressed ++ x /\ (length x <= length chunk)%nat)
  /\ occursAt chunk offset compressed'
  /\ isUint32 offset.
Proof.
  intros Hinv Hchunk Hlen. unfold Triegen.placeChunk.
  destruct (cache_get (rawBytes chunk) cache) as [offset|] eqn:Hget.
  - split; [exact Hinv|]. split; [exists []; rewrite app_nil_r; split; [reflexivity|cbn; lia]|].
    destruct (Hinv _ _ (cache_get_In _ _ _ Hget)) as (chunk' & Hk & Hu & Hocc).
    apply rawBytes_inj in Hk; [|assumption|assumption]. subst chunk'.
    split; [exact Hocc|].
    destruct Hocc as (pre & post & -> & <-). rewrite !length_app in Hlen.
    unfold isUint32. lia.
  - assert (Hoff : to_uint32 (Z.of_nat (length compressed)) = Z.of_nat (length compressed)).
    { unfold to_uint32. apply Z.mod_small. lia. }
    rewrite Hoff.
    assert (Hocc : occursAt chunk (Z.of_nat (length compressed)) (compressed ++ chunk)).
    { exists compressed, []. rewrite app_nil_r. auto. }
    split; [|split; [exists chunk; auto|split; [exact Hocc|unfold isUint32; lia]]].
    intros key offset [Hin|Hin].
    + injection Hin as <- <-. exists chunk. auto.
    + apply (cacheSound_app cache compressed chunk Hinv). exact Hin.
Qed.

Lemma triegen_compressChunks_sound (chunks : list (list Z)) :
  forall cache compressed c offsets,
    Triegen.compressChunks chunks cache compressed = (c, offsets) ->
    cacheSound cache compressed ->
    Forall (Forall isUint32) chunks ->
    Z.of_nat (length compressed + length (concat chunks)) < 2 ^ 32 ->
    (exists x, c = compressed ++ x /\ (length x <= length (concat chunks))%nat)
    /\ Forall2 (fun chunk offset => occursAt chunk offset c) chunks offsets
    /\ Forall isUint32 offsets.
Proof.
  induction chunks as [|chunk chunks IH]; intros cache compressed c offsets H Hinv Hu Hlen.
  - cbn in H. injection H as <- <-.
    split; [exists []; rewrite app_nil_r; split; [reflexivity|cbn; lia]|].
    split; constructor.
  - cbn [Triegen.compressChunks] in H.
    assert (Hc : Forall isUint32 chunk) by (inversion Hu; assumption).
    assert (Hcs : Forall (Forall isUint32) chunks) by (inversion Hu; assumption).
    cbn [concat] in Hlen. rewrite length_app in Hlen.
    pose proof (triegen_placeChunk_sound cache compressed chunk Hinv Hc ltac:(lia)) as Hstep.
    destruct (Triegen.placeChunk cache compressed chunk) as [[cache' compressed'] offset].
    destruct Hstep as (Hinv' & (x & -> & Hx) & Hocc & Hoff).
    destruct (Triegen.compressChunks chunks cache' (compressed ++ x)) as [c' offsets'] eqn:Hrest.
    injection H as <- <-.
    destruct (IH _ _ _ _ Hrest Hinv' Hcs) as ((y & -> & Hy) & Hall & Huo).
    { rewrite length_app. lia. }
    split.
    { exists (x ++ y). rewrite app_assoc. split; [reflexivity|].
      cbn [concat]. rewrite !length_app. lia. }
    split; [|constructor; assumption].
    constructor; [|exact Hall]. apply occursAt_app. exact Hocc.
Qed.

(** The element [q * n + r] of a slice is element [r] of its chunk [q]. *)
Lemma chunksOf_fuel_nth (n : nat) (q : nat) :
  (1 <= n)%nat ->
  forall fuel l r,
    (length l <= fuel)%nat -> (r < n)%nat -> (q * n + r < length l)%nat ->
    exists chunk,
      nth_error (chunksOf_fuel fuel (Z.of_nat n) l) q = Some chunk
      /\ (r < length chunk)%nat
      /\ nth_error chunk r = nth_error l (q * n + r).
Proof.
  intros Hn. induction q as [|q IH]; intros fuel l r Hfuel Hr Hi.
  - destruct fuel as [|fuel]; [lia|]. destruct l as [|x l]; [cbn in Hi; lia|].
    cbn [chunksOf_fuel nth_error]. rewrite Nat2Z.id.
    exists (firstn n (x :: l)). split; [reflexivity|].
    cbn [Nat.mul Nat.add] in *. split.
    + rewrite length_firstn. lia.
    + rewrite nth_error_firstn.
      destruct (Nat.ltb_spec r n); [reflexivity|lia].
  - destruct fuel as [|fuel]; [lia|]. destruct l as [|x l]; [cbn in Hi; lia|].
    cbn [chunksOf_fuel nth_error]. rewrite Nat2Z.id.
    destruct (IH fuel (skipn n (x :: l)) r) as (chunk & Hq & Hlen & Hnth).
    { rewrite length_skipn. cbn [length] in *. lia. }
    { exact Hr. }
    { rewrite length_skipn. cbn [Nat.mul] in Hi. lia. }
    exists chunk. split; [exact Hq|]. split; [exact Hlen|].
    rewrite Hnth, nth_error_skipn. f_equal. cbn [Nat.mul]. lia.
Qed.

Lemma Forall2_nth_error_l {A B : Type} (R : A -> B -> Prop) (l : list A) :
  forall (l' : list B) (q : nat) (a : A),
    Forall2 R l l' -> nth_error l q = Some a ->
    exists b, nth_error l' q = Some b /\ R a b.
Proof.
  induction l as [|x l IH]; intros l' q a H Hq; [destruct q; discriminate Hq|].
  inversion H as [|? y ? l2 Hxy Hrest]; subst.
  destruct q as [|q]; cbn [nth_error] in *.
  - injection Hq as <-. eauto.
  - eapply IH; eauto.
Qed.

Lemma shiftl_1_pow (shift : Z) :
  validShift shift = true ->
  Z.shiftl 1 shift = 2 ^ shift /\ 0 <= shift /\ 1 <= 2 ^ shift.
Proof.
  unfold validShift. intros H. apply andb_true_iff in H as [H0 _].
  apply Z.leb_le in H0. rewrite Z.shiftl_1_l. split; [reflexivity|].
  split; [exact H0|]. assert (0 < 2 ^ shift) by (apply Z.pow_pos_nonneg; lia). lia.
Qed.

(** One level of the trie: the offset stored for the chunk of an element,
    plus the element's position in the chunk, is where the compressed slice
    holds the element. *)
Lemma triegen_compressStage_level (uncompressed : list Z) (shift : Z) (c offsets : list Z) :
  Triegen.compressStage uncompressed shift = (c, offsets) ->
  validShift shift = true ->
  Forall isUint32 uncompressed ->
  Z.of_nat (length uncompressed) < 2 ^ 32 ->
  Forall isUint32 offsets
  /\ (length offsets <= length uncompressed)%nat
  /\ (uncompressed <> [] -> c <> [] /\ offsets <> [])
  /\ forall i,
       0 <= i < Z.of_nat (length uncompressed) ->
       exists offset,
         slice_index offsets (Z.shiftr i shift) = Some offset
         /\ slice_index c (offset + Z.land i (Z.shiftl 1 shift - 1))
            = slice_index uncompressed i.
Proof.
  intros Hc Hvalid Hu Hlen. unfold Triegen.compressStage in Hc.
  destruct (shiftl_1_pow shift Hvalid) as (Hpow & Hshift & Hpos).
  rewrite Hpow in *.
  destruct (chunksOf_spec (2 ^ shift) uncompressed Hpos) as [Hconcat Hne].
  set (chunks := chunksOf (2 ^ shift) uncompressed) in *.
  assert (Hchunks : Forall (Forall isUint32) chunks).
  { apply chunksOf_fuel_Forall. exact Hu. }
  destruct (triegen_compressChunks_sound chunks [] [] c offsets Hc)
    as ((x & Hx & _) & Hall & Huo).
  { intros key offset []. }
  { exact Hchunks. }
  { rewrite Hconcat. cbn [length Nat.add]. exact Hlen. }
  pose proof (Forall2_length Hall) as Hl2.
  pose proof (concat_nonempty_length chunks Hne) as Hcl. rewrite Hconcat in Hcl.
  split; [exact Huo|]. split; [lia|]. split.
  { intros Hnil.
    destruct chunks as [|chunk chunks'] eqn:Hch.
    { cbn in Hconcat. congruence. }
    inversion Hall as [|? offset ? offsets' Hocc _]; subst.
    split; [|discriminate].
    inversion Hne as [|? ? Hcne _]; subst.
    destruct Hocc as (pre & post & -> & _).
    destruct chunk; [contradiction|]. destruct pre; discriminate. }
  intros i Hi.
  set (n := Z.to_nat (2 ^ shift)).
  assert (Hn : Z.of_nat n = 2 ^ shift) by (subst n; lia).
  set (q := Z.to_nat (i / 2 ^ shift)).
  set (r := Z.to_nat (i mod 2 ^ shift)).
  assert (Hq : Z.of_nat q = i / 2 ^ shift).
  { subst q. rewrite Z2Nat.id; [reflexivity|]. apply Z.div_pos; lia. }
  assert (Hr : Z.of_nat r = i mod 2 ^ shift).
  { subst r. rewrite Z2Nat.id; [reflexivity|]. apply Z.mod_pos_bound. lia. }
  assert (Hmod : 0 <= i mod 2 ^ shift < 2 ^ shift) by (apply Z.mod_pos_bound; lia).
  assert (Hqr : (q * n + r)%nat = Z.to_nat i).
  { apply Nat2Z.inj. rewrite Nat2Z.inj_add, Nat2Z.inj_mul, Hq, Hr, Hn, Z2Nat.id by lia.
    rewrite (Z.div_mod i (2 ^ shift)) at 3 by lia. lia. }
  destruct (chunksOf_fuel_nth n q ltac:(lia) (length uncompressed) uncompressed r)
    as (chunk & Hnth & Hrlen & Helem).
  { lia. } { lia. } { lia. }
  rewrite Hn in Hnth. fold (chunksOf (2 ^ shift) uncompressed) in Hnth. fold chunks in Hnth.
  destruct (Forall2_nth_error_l _ _ _ _ _ Hall Hnth) as (offset & Hoff & Hocc).
  exists offset. split.
  - unfold slice_index. rewrite Z.shiftr_div_pow2 by lia.
    destruct (Z.ltb_spec (i / 2 ^ shift) 0) as [|_]; [lia|]. exact Hoff.
  - replace (2 ^ shift - 1) with (Z.ones shift)
      by (rewrite Z.ones_equiv; lia).
    rewrite Z.land_ones by lia. rewrite <- Hr.
    rewrite (occursAt_nth chunk offset c r Hocc Hrlen), Helem, Hqr.
    unfold slice_index. destruct (Z.ltb_spec i 0) as [|_]; [lia|reflexivity].
Qed.

Lemma triegen_lookup_from_app (l1 l2 : list Triegen.Stage) (cp : Z) :
  forall v,
    Triegen.lookup_from (l1 ++ l2) cp v
    = match Triegen.lookup_from l1 cp v with
      | Some v' => Triegen.lookup_from l2 cp v'
      | None => None
      end.
Proof.
  induction l1 as [|s l1 IH]; intros v; [reflexivity|].
  cbn [app Triegen.lookup_from].
  destruct (slice_index _ _) as [v'|]; cbn [bind]; [apply IH|reflexivity].
Qed.

Lemma bind_Some_r (o : option Z) : (v <- o ;; Some v) = o.
Proof. destruct o; reflexivity. Qed.

(** The stages built from one level on, read from the root, map a code
    point to the element of that level it belongs to. *)
Lemma triegen_buildStages_lookup (shifts : list Z) :
  forall uncompressed cumulativeShift acc stages,
    Triegen.buildStages shifts uncompressed cumulativeShift acc = Some stages ->
    0 <= cumulativeShift ->
    Forall isUint32 uncompressed ->
    Z.of_nat (length uncompressed) < 2 ^ 32 ->
    exists built,
      stages = acc ++ built
      /\ (uncompressed <> [] -> Forall (fun s => Triegen.Values s <> []) built)
      /\ forall cp,
           0 <= cp ->
           Z.shiftr cp cumulativeShift < Z.of_nat (length uncompressed) ->
           Triegen.lookup_from (rev built) cp 0
           = slice_index uncompressed (Z.shiftr cp cumulativeShift).
Proof.
  induction shifts as [|shift shifts IH]; intros u cum acc stages H Hcum Hu Hlen.
  - cbn [Triegen.buildStages] in H. injection H as <-.
    eexists. split; [reflexivity|]. split.
    { intros Hne. constructor; [exact Hne|constructor]. }
    intros cp Hcp Hi. cbn [rev app Triegen.lookup_from Triegen.Values Triegen.Shift Triegen.Mask].
    assert (H0 : 0 <= Z.shiftr cp cum) by (apply Z.shiftr_nonneg; exact Hcp).
    change Triegen.MaxUint32 with (Z.ones 32).
    rewrite Z.land_ones, Z.mod_small, Z.add_0_l by lia.
    apply bind_Some_r.
  - cbn [Triegen.buildStages] in H.
    destruct (validShift shift) eqn:Hvalid; [|discriminate H].
    destruct (Triegen.compressStage u shift) as [c offsets] eqn:Hstage.
    destruct (shiftl_1_pow shift Hvalid) as (_ & Hshift & _).
    destruct (triegen_compressStage_level u shift c offsets Hstage Hvalid Hu Hlen)
      as (Huo & Hlo & Hnonempty & Hlevel).
    destruct (IH offsets (cum + shift) _ stages H ltac:(lia) Huo ltac:(lia))
      as (built & -> & Hne' & Hlook).
    eexists. split; [rewrite <- app_assoc; reflexivity|]. split.
    { intros Hne. destruct (Hnonempty Hne) as [Hc Ho].
      constructor; [exact Hc|exact (Hne' Ho)]. }
    intros cp Hcp Hi. cbn [app rev].
    assert (H0 : 0 <= Z.shiftr cp cum) by (apply Z.shiftr_nonneg; exact Hcp).
    destruct (Hlevel (Z.shiftr cp cum) ltac:(lia)) as (offset & Hoff & Helem).
    rewrite Z.shiftr_shiftr in Hoff by lia.
    rewrite triegen_lookup_from_app, Hlook; [|exact Hcp|].
    2:{ apply slice_index_Some in Hoff. lia. }
    rewrite Hoff.
    cbn [Triegen.lookup_from Triegen.Values Triegen.Shift Triegen.Mask].
    rewrite Helem. apply bind_Some_r.
Qed.

Lemma triegen_buildStages_returns (shifts : list Z) :
  forall uncompressed cumulativeShift acc,
    forallb validShift shifts = true ->
    exists stages, Triegen.buildStages shifts uncompressed cumulativeShift acc = Some stages.
Proof.
  induction shifts as [|shift shifts IH]; intros u cum acc Hv; cbn [Triegen.buildStages].
  - eauto.
  - cbn [forallb] in Hv. apply andb_true_iff in Hv as [Hs Hrest]. rewrite Hs.
    destruct (Triegen.compressStage u shift) as [c offsets]. apply IH. exact Hrest.
Qed.

Lemma triegen_setBits_shape (stages : list Triegen.Stage) :
  forall i,
    (Forall (fun s => Triegen.Values s <> []) stages ->
     exists stages', Triegen.setBits i stages = Some stages')
    /\ forall stages',
         Triegen.setBits i stages = Some stages' ->
         map Triegen.shape stages' = map Triegen.shape stages.
Proof.
  induction stages as [|s stages IH]; intros i; cbn [Triegen.setBits].
  - split; [eauto|]. intros stages' [= <-]. reflexivity.
  - destruct (IH (i + 1)) as [IHr IHs]. split.
    + intros Hall. assert (Hs : Triegen.Values s <> []) by (inversion Hall; assumption).
      assert (Hrest : Forall (fun s => Triegen.Values s <> []) stages)
        by (inversion Hall; assumption).
      destruct (Triegen.Values s) as [|x vs]; [contradiction|]. cbn [slices_Max bind].
      destruct (IHr Hrest) as [rest' ->]. cbn [bind]. eauto.
    + intros stages' H.
      destruct (slices_Max (Triegen.Values s)) as [m|]; [|discriminate H].
      cbn [bind] in H.
      destruct (Triegen.setBits (i + 1) stages) as [rest'|]; [|discriminate H].
      cbn [bind] in H. injection H as <-. cbn [map]. rewrite (IHs rest' eq_refl).
      reflexivity.
Qed.

Lemma triegen_lookup_from_shape (l : list Triegen.Stage) :
  forall l' cp v,
    map Triegen.shape l = map Triegen.shape l' ->
    Triegen.lookup_from l cp v = Triegen.lookup_from l' cp v.
Proof.
  induction l as [|s l IH]; intros [|s' l'] cp v H; try discriminate H; [reflexivity|].
  cbn [map] in H. unfold Triegen.shape at 1 3 in H.
  injection H as Hv Hsh Hm Hl. cbn [Triegen.lookup_from]. rewrite Hv, Hsh, Hm.
  destruct (slice_index _ _); cbn [bind]; [apply IH; exact Hl|reflexivity].
Qed.

(** X17. The trie the single-table generator builds reproduces the array:
    on a non-empty slice of fewer than 2^32 values of 32 bits and shift
    counts in [0, 62], [buildTrie] returns, and the lookup loop of its
    sanity check maps every index of the slice to the element there. *)
Theorem triegen_buildTrie_roundtrip (uncompressed shifts : list Z) :
  Forall isUint32 uncompressed ->
  Z.of_nat (length uncompressed) < 2 ^ 32 ->
  uncompressed <> [] ->
  forallb validShift shifts = true ->
  exists stages,
    Triegen.buildTrie uncompressed shifts = Some stages
    /\ length stages = S (length shifts)
    /\ forall cp,
         0 <= cp < Z.of_nat (length uncompressed) ->
         Triegen.lookup stages cp = Some (nth (Z.to_nat cp) uncompressed 0).
Proof.
  intros Hu Hlen Hne Hvalid. unfold Triegen.buildTrie.
  destruct (triegen_buildStages_returns shifts uncompressed 0 [] Hvalid) as [built Hbuilt].
  rewrite Hbuilt. cbn [bind].
  destruct (triegen_buildStages_lookup shifts uncompressed 0 [] built Hbuilt
              ltac:(lia) Hu Hlen) as (built' & Heq & Hnonempty & Hlook).
  cbn [app] in Heq. subst built'.
  destruct (triegen_setBits_shape (rev built) 0) as [Hret Hshape].
  destruct (Hret (Forall_rev (Hnonempty Hne))) as [stages Hstages].
  exists stages. split; [exact Hstages|]. specialize (Hshape stages Hstages).
  split.
  { apply (f_equal (@length _)) in Hshape. rewrite !length_map, length_rev in Hshape.
    rewrite Hshape. clear - Hbuilt.
    assert (Hgen : forall l u cum acc r,
               Triegen.buildStages l u cum acc = Some r ->
               length r = (length acc + S (length l))%nat).
    { intros l. induction l as [|a l IH]; intros u cum acc r H;
        cbn [Triegen.buildStages] in H.
      - injection H as <-. rewrite length_app. reflexivity.
      - destruct (validShift a); [|discriminate H].
        destruct (Triegen.compressStage u a) as [c o].
        rewrite (IH _ _ _ _ H), length_app. cbn [length]. lia. }
    rewrite (Hgen _ _ _ _ _ Hbuilt). reflexivity. }
  intros cp Hcp. unfold Triegen.lookup.
  rewrite (triegen_lookup_from_shape stages (rev built) cp 0 Hshape).
  rewrite Hlook by (rewrite ?Z.shiftr_0_r; lia).
  rewrite Z.shiftr_0_r. unfold slice_index.
  destruct (Z.ltb_spec cp 0) as [|_]; [lia|].
  apply nth_error_nth'. lia.
Qed.

Lemma triegen_buildTrie_roundtrip_witness :
  Forall isUint32 [7; 8; 7; 8; 9; 9; 7; 8]
  /\ Z.of_nat (length [7; 8; 7; 8; 9; 9; 7; 8]) < 2 ^ 32
  /\ [7; 8; 7; 8; 9; 9; 7; 8] <> []
  /\ forallb validShift [1; 1] = true
  /\ exists stages,
       Triegen.buildTrie [7; 8; 7; 8; 9; 9; 7; 8] [1; 1] = Some stages
       /\ length stages = 3%nat
       /\ forall cp,
            0 <= cp < Z.of_nat (length [7; 8; 7; 8; 9; 9; 7; 8]) ->
            Triegen.lookup stages cp = Some (nth (Z.to_nat cp) [7; 8; 7; 8; 9; 9; 7; 8] 0).
Proof.
  assert (H1 : Forall isUint32 [7; 8; 7; 8; 9; 9; 7; 8])
    by (repeat constructor; unfold isUint32; lia).
  assert (H2 : Z.of_nat (length [7; 8; 7; 8; 9; 9; 7; 8]) < 2 ^ 32) by reflexivity.
  assert (H3 : [7; 8; 7; 8; 9; 9; 7; 8] <> []) by discriminate.
  assert (H4 : forallb validShift [1; 1] = true) by reflexivity.
  split; [exact H1|]. split; [exact H2|]. split; [exact H3|]. split; [exact H4|].
  exact (triegen_buildTrie_roundtrip [7; 8; 7; 8; 9; 9; 7; 8] [1; 1] H1 H2 H3 H4).
Defined.

(** ** Further properties: the join table of the single-table generator *)

(** X18. The table [buildJoinRules] returns is 13 by 13 and joins a pair
    exactly when the lead is Prepend or ConjunctLinker, whose rows are
    filled through a slice, or the pair is one of those set one by one
    (Regional Indicator pair, ZWJ before ExtendedPictographic, the ten
    Hangul pairs).  The three loops over [range rules] assign to copies of
    the rows and leave the table as it was: no other lead joins a trailing
    Extend, ZWJ or ConjunctLinker, and Prepend and ConjunctLinker join a
    trailing Control. *)
Theorem triegen_buildJoinRules_table (lead trail : Triegen.ClusterBreak) :
  length Triegen.buildJoinRules = Triegen.CB_COUNT
  /\ length (nth (Triegen.ClusterBreak_index lead) Triegen.buildJoinRules [])
     = Triegen.CB_COUNT
  /\ Triegen.joins Triegen.buildJoinRules lead trail
     = Triegen.filledRow lead
       || match lead, trail with
          | Triegen.CB_REGIONAL_INDICATOR, Triegen.CB_REGIONAL_INDICATOR => true
          | Triegen.CB_ZERO_WIDTH_JOINER, Triegen.CB_EXTENDED_PICTOGRAPHIC => true
          | _, _ => Triegen.hangulPair lead trail
          end
  /\ (Triegen.filledRow lead = false ->
      Triegen.joins Triegen.buildJoinRules lead Triegen.CB_EXTEND = false
      /\ Triegen.joins Triegen.buildJoinRules lead Triegen.CB_ZERO_WIDTH_JOINER = false
      /\ Triegen.joins Triegen.buildJoinRules lead Triegen.CB_CONJUNCT_LINKER = false)
  /\ Triegen.joins Triegen.buildJoinRules Triegen.CB_PREPEND Triegen.CB_CONTROL = true
  /\ Triegen.joins Triegen.buildJoinRules Triegen.CB_CONJUNCT_LINKER Triegen.CB_CONTROL
     = true.
Proof.
  destruct lead, trail; vm_compute; repeat split; intros; try reflexivity;
    discriminate.
Qed.
